(** * A shallow embedding of [en/parser/nltk_lite/semantics/logic.py]

    The lambda-calculus / first-order-logic engine of the repository:
    expressions, capture-avoiding substitution ([replace]), equality modulo
    alphabetic variance ([equals]), beta-reduction ([simplify]), the simple
    Skolemisation ([_skolemise]), rendering ([__str__]) and the
    recursive-descent [Parser].

    Conventions of the embedding.
    - A Python string is the [string] of its UTF-8 bytes.  The module
      splits, replaces and slices at ASCII characters only, which no byte of
      a longer character is, so that bytes do for everything but
      [str.isdigit], which decodes them.
    - The two [Counter] objects of the module are threaded explicitly: the
      class attribute [VariableBinderExpression._counter], shared by every
      binder of the process, and the [Counter()] that [skolemise] creates.
    - Recursion that is not structural in the source (a method called on the
      result of [replace], the parser reading its buffer) takes a [fuel]
      argument; [None] (or [OutOfFuel]) only ever means that the fuel given
      was too small.  Lemmas below show how much fuel is enough.
    - The interpreter's limit on the depth of recursion is not modelled: on
      expressions or texts nested deeper than that limit the methods raise
      [RecursionError] where the model, with fuel enough, has a result. *)

From Stdlib Require Import Ascii.
From stdpp Require Import base strings gmap sets list pretty.

Open Scope string_scope.

(** ** Counter *)

(** Modelled from the spec: the class [Counter] of
    [en.parser.nltk_lite.utilities] is imported by [logic.py] but is not
    among the sources.  The spec describes the fresh-name source as "a
    monotonically increasing counter used to mint globally-unique names":
    [get] advances the counter by one and returns the new value, and a new
    [Counter()] starts from zero. *)
Module Counter.
Record t := mk { _value : nat }.

Definition new : t := mk 0.

Definition get (self : t) : nat * t :=
  let v := S (_value self) in (v, mk v).
End Counter.

(** Python's [str] on a non-negative integer. *)
Definition str_of_int (n : nat) : string := pretty n.

(** ** Variable and Constant *)

Record variable := Variable' { variable_name : string }.
Record constant := Constant' { constant_name : string }.

#[global] Instance variable_eq_dec : EqDecision variable.
Proof. solve_decision. Defined.
#[global] Instance variable_countable : Countable variable :=
  inj_countable' variable_name Variable' (λ v, match v with Variable' _ => eq_refl end).
#[global] Instance constant_eq_dec : EqDecision constant.
Proof. solve_decision. Defined.

(** [Variable.equals]: [self.name == other.name]. *)
Definition Variable_equals (self other : variable) : bool :=
  String.eqb (variable_name self) (variable_name other).

(** [Constant.equals]: [self.name == other.name]. *)
Definition Constant_equals (self other : constant) : bool :=
  String.eqb (constant_name self) (constant_name other).

(** ** Expression *)

(** The three subclasses of [VariableBinderExpression]; a binder node carries
    its class, which is what [self.__class__] reads in the shared methods. *)
Inductive BinderClass := LambdaExpression | SomeExpression | AllExpression.

#[global] Instance BinderClass_eq_dec : EqDecision BinderClass.
Proof. solve_decision. Defined.

(** The concrete classes of [Expression].  The constructors of the source
    assert that the name of an [IndVariableExpression] satisfies [is_indvar]
    and that the name of an [Operator] is in [Parser.OPS]; the parser only
    builds such nodes. *)
Inductive Expression :=
| VariableExpression (variable : variable)
| IndVariableExpression (variable : variable)
| ConstantExpression (constant : constant)
| Operator (operator : string)
| VariableBinderExpression (cls : BinderClass) (variable : variable) (term : Expression)
| ApplicationExpression (first second : Expression).

#[global] Instance Expression_eq_dec : EqDecision Expression.
Proof. solve_decision. Defined.

(** The characters on which [str.isdigit] is true: those of Unicode's
    Numeric_Type Digit or Decimal, here by their code points, as inclusive
    ranges (Unicode 14.0.0, the database of CPython 3.11): the decimal
    digits of every script, and digits such as the superscripts. *)
Definition digit_ranges : list (N * N) :=
  [(48, 57); (178, 179); (185, 185); (1632, 1641); (1776, 1785);
   (1984, 1993); (2406, 2415); (2534, 2543); (2662, 2671); (2790, 2799);
   (2918, 2927); (3046, 3055); (3174, 3183); (3302, 3311); (3430, 3439);
   (3558, 3567); (3664, 3673); (3792, 3801); (3872, 3881); (4160, 4169);
   (4240, 4249); (4969, 4977); (6112, 6121); (6160, 6169); (6470, 6479);
   (6608, 6618); (6784, 6793); (6800, 6809); (6992, 7001); (7088, 7097);
   (7232, 7241); (7248, 7257); (8304, 8304); (8308, 8313); (8320, 8329);
   (9312, 9320); (9332, 9340); (9352, 9360); (9450, 9450); (9461, 9469);
   (9471, 9471); (10102, 10110); (10112, 10120); (10122, 10130);
   (42528, 42537); (43216, 43225); (43264, 43273); (43472, 43481);
   (43504, 43513); (43600, 43609); (44016, 44025); (65296, 65305);
   (66720, 66729); (68160, 68163); (68912, 68921); (69216, 69224);
   (69714, 69722); (69734, 69743); (69872, 69881); (69942, 69951);
   (70096, 70105); (70384, 70393); (70736, 70745); (70864, 70873);
   (71248, 71257); (71360, 71369); (71472, 71481); (71904, 71913);
   (72016, 72025); (72784, 72793); (73040, 73049); (73120, 73129);
   (92768, 92777); (92864, 92873); (93008, 93017); (120782, 120831);
   (123200, 123209); (123632, 123641); (125264, 125273); (127232, 127242);
   (130032, 130041)]%N.

Definition is_digit_code_point (n : N) : bool :=
  existsb (λ r, (r.1 <=? n)%N && (n <=? r.2)%N) digit_ranges.

(** All the characters of a UTF-8 text are digits.  [need] bytes are still
    to come of the character being read, [acc] is its code point so far and
    [lo] the least code point that takes so many bytes. *)
Fixpoint all_digits (need : nat) (lo acc : N) (s : string) : bool :=
  match s with
  | "" => bool_decide (need = 0%nat)
  | String c rest =>
      let b := N_of_ascii c in
      match need with
      | 0%nat =>
          if (b <? 128)%N then is_digit_code_point b && all_digits 0 0 0 rest
          else if (194 <=? b)%N && (b <? 224)%N then all_digits 1 128 (b - 192) rest
          else if (224 <=? b)%N && (b <? 240)%N then all_digits 2 2048 (b - 224) rest
          else if (240 <=? b)%N && (b <? 245)%N then all_digits 3 65536 (b - 240) rest
          else false
      | S need' =>
          if (128 <=? b)%N && (b <? 192)%N then
            let acc' := (acc * 64 + (b - 128))%N in
            match need' with
            | 0%nat =>
                (lo <=? acc')%N && is_digit_code_point acc' && all_digits 0 0 0 rest
            | _ => all_digits need' lo acc' rest
            end
          else false
      end
  end.

(** [str.isdigit]: false on the empty string. *)
Definition isdigit (s : string) : bool :=
  match s with
  | "" => false
  | _ => all_digits 0 0 0 s
  end.

(** [is_indvar]: [None] is the [IndexError] of [expr[0]] on the empty string. *)
Definition is_indvar (expr : string) : option bool :=
  match expr with
  | "" => None
  | String c rest =>
      let result := bool_decide (c ∈ ["w"; "x"; "y"; "z"]%char) in
      if decide (1 < String.length expr) then Some (result && isdigit rest)
      else Some result
  end.

(** ** free, subterms *)

(** [free]: a Python set of [Variable]s, which hash and compare by name. *)
Fixpoint free (self : Expression) : gset variable :=
  match self with
  | VariableExpression v | IndVariableExpression v => {[ v ]}
  | ConstantExpression _ | Operator _ => ∅
  | VariableBinderExpression _ v term => free term ∖ {[ v ]}
  | ApplicationExpression first second => free first ∪ free second
  end.

(** [subterms]: the elements of the set the source builds, in the order of
    its unions.  Python's set would merge elements that are [==]; that never
    merges nodes of different binder classes, which is all the statements
    below look at. *)
Fixpoint subterms (self : Expression) : list Expression :=
  match self with
  | VariableExpression _ | IndVariableExpression _
  | ConstantExpression _ | Operator _ => [self]
  | VariableBinderExpression _ _ term => subterms term ++ [self]
  | ApplicationExpression first second =>
      subterms first ++ subterms second ++ [self]
  end.

(** The depth of the recursion of the methods on an expression. *)
Fixpoint height (self : Expression) : nat :=
  match self with
  | VariableBinderExpression _ _ term => S (height term)
  | ApplicationExpression first second => S (height first `max` height second)
  | _ => 0
  end.

(** ** replace and alpha_convert *)

(** The name minted on capture: ["z" + str(self._counter.get())]. *)
Definition fresh_z (c : Counter.t) : variable * Counter.t :=
  let '(k, c') := Counter.get c in (Variable' ("z" +:+ str_of_int k), c').

(** [replace], class by class.  In a binder whose variable is free in
    [expression], the body is first renamed and then substituted into: the one
    call that is not on a sub-expression, hence the fuel.  [c] is the
    class-level [_counter] before the call, and the result carries it as the
    call leaves it. *)
Fixpoint replace_fuel (fuel : nat) (self : Expression) (variable : variable)
    (expression : Expression) (c : Counter.t) : option (Expression * Counter.t) :=
  match fuel with
  | 0 => None
  | S fuel =>
      match self with
      | VariableExpression v | IndVariableExpression v =>
          if Variable_equals v variable then Some (expression, c) else Some (self, c)
      | ConstantExpression _ | Operator _ => Some (self, c)
      | ApplicationExpression first second =>
          '(first', c1) ← replace_fuel fuel first variable expression c;
          '(second', c2) ← replace_fuel fuel second variable expression c1;
          Some (ApplicationExpression first' second', c2)
      | VariableBinderExpression cls v term =>
          if Variable_equals v variable then Some (self, c)
          else if bool_decide (v ∈ free expression) then
            let '(newvar, c1) := fresh_z c in
            (* self = self.alpha_convert(Variable(v)) *)
            '(term1, c2) ← replace_fuel fuel term v (VariableExpression newvar) c1;
            '(term2, c3) ← replace_fuel fuel term1 variable expression c2;
            Some (VariableBinderExpression cls newvar term2, c3)
          else
            '(term', c1) ← replace_fuel fuel term variable expression c;
            Some (VariableBinderExpression cls v term', c1)
      end
  end.

(** [replace] with the fuel its recursion needs (see [replace_fuel_enough]). *)
Definition replace (self : Expression) (variable : variable)
    (expression : Expression) (c : Counter.t) : Expression * Counter.t :=
  default (self, c) (replace_fuel (S (height self)) self variable expression c).

(** [alpha_convert] of the binder [cls v term]. *)
Definition alpha_convert (cls : BinderClass) (v : variable) (term : Expression)
    (newvar : variable) (c : Counter.t) : Expression * Counter.t :=
  let '(term', c') := replace term v (VariableExpression newvar) c in
  (VariableBinderExpression cls newvar term', c').

(** ** equals *)

(** [equals] (and [==], which calls it), class by class.  Relabelling goes
    through [replace] and so through the class-level counter. *)
Fixpoint equals (self other : Expression) (c : Counter.t) : bool * Counter.t :=
  match self with
  | VariableExpression v | IndVariableExpression v =>
      match other with
      | VariableExpression w | IndVariableExpression w => (Variable_equals v w, c)
      | _ => (false, c)
      end
  | ConstantExpression k =>
      match other with
      | ConstantExpression k' => (Constant_equals k k', c)
      | _ => (false, c)
      end
  | Operator o =>
      match other with
      | Operator o' => (String.eqb o o', c)
      | _ => (false, c)
      end
  | VariableBinderExpression cls v term =>
      match other with
      | VariableBinderExpression cls' v' term' =>
          if bool_decide (cls = cls') then
            if Variable_equals v v' then equals term term' c
            else
              (* _relabel *)
              let '(relabeled, c1) := replace term' v' (VariableExpression v) c in
              equals term relabeled c1
          else (false, c)
      | _ => (false, c)
      end
  | ApplicationExpression first second =>
      match other with
      | ApplicationExpression first' second' =>
          let '(b, c1) := equals first first' c in
          if b then equals second second' c1 else (false, c1)
      | _ => (false, c)
      end
  end.

(** ** simplify *)

(** [simplify], class by class.  Beta-reduction need not terminate: the
    method is given fuel, and [None] is the fuel running out. *)
Fixpoint simplify (fuel : nat) (self : Expression) (c : Counter.t)
    : option (Expression * Counter.t) :=
  match fuel with
  | 0 => None
  | S fuel =>
      match self with
      | VariableExpression _ | IndVariableExpression _
      | ConstantExpression _ | Operator _ => Some (self, c)
      | VariableBinderExpression cls v term =>
          '(term', c1) ← simplify fuel term c;
          Some (VariableBinderExpression cls v term', c1)
      | ApplicationExpression first second =>
          '(first', c1) ← simplify fuel first c;
          '(second', c2) ← simplify fuel second c1;
          match first' with
          | VariableBinderExpression LambdaExpression variable term =>
              let '(r, c3) := replace term variable second' c2 in
              simplify fuel r c3
          | _ => Some (ApplicationExpression first' second', c2)
          end
      end
  end.

(** ** Skolemisation *)

(** What a call of [_skolemise] can change: the set object [bound_vars] it is
    handed (mutated in place by [SomeExpression]), the [counter] object of
    this Skolemisation, and the class-level counter that [replace] draws
    from. *)
Record SkolemState := {
  bound_vars : gset variable;
  counter : Counter.t;
  _counter : Counter.t
}.

(** The name minted for a clashing existential: ["_s" + str(counter.get())]. *)
Definition fresh_s (c : Counter.t) : variable * Counter.t :=
  let '(k, c') := Counter.get c in (Variable' ("_s" +:+ str_of_int k), c').

(** [_skolemise], class by class.  An existential goes on in its body, after
    renaming when its variable clashes, with the set it was handed enlarged;
    a lambda or universal binder works on a copy and hands the set of its
    caller back as it was. *)
Fixpoint _skolemise_fuel (fuel : nat) (self : Expression) (st : SkolemState)
    : option (Expression * SkolemState) :=
  match fuel with
  | 0 => None
  | S fuel =>
      match self with
      | VariableExpression _ | IndVariableExpression _
      | ConstantExpression _ | Operator _ => Some (self, st)
      | VariableBinderExpression SomeExpression v term =>
          if bool_decide (v ∈ bound_vars st) then
            let '(var, counter1) := fresh_s (counter st) in
            let '(term', zc) := replace term v (VariableExpression var) (_counter st) in
            _skolemise_fuel fuel term'
              {| bound_vars := {[ var ]} ∪ bound_vars st;
                 counter := counter1; _counter := zc |}
          else
            _skolemise_fuel fuel term
              {| bound_vars := {[ v ]} ∪ bound_vars st;
                 counter := counter st; _counter := _counter st |}
      | VariableBinderExpression cls v term =>
          (* LambdaExpression, AllExpression: bv = bound_vars.copy() *)
          let bv := {[ v ]} ∪ bound_vars st in
          '(term', st') ← _skolemise_fuel fuel term
              {| bound_vars := bv; counter := counter st; _counter := _counter st |};
          Some (VariableBinderExpression cls v term',
                {| bound_vars := bound_vars st;
                   counter := counter st'; _counter := _counter st' |})
      | ApplicationExpression first second =>
          '(first', st1) ← _skolemise_fuel fuel first st;
          '(second', st2) ← _skolemise_fuel fuel second st1;
          Some (ApplicationExpression first' second', st2)
      end
  end.

(** [_skolemise] with the fuel its recursion needs
    (see [_skolemise_fuel_enough]). *)
Definition _skolemise (self : Expression) (st : SkolemState)
    : Expression * SkolemState :=
  default (self, st) (_skolemise_fuel (S (height self)) self st).

(** [Expression.skolemise]: [self._skolemise(set(), Counter())]; [zc] is the
    class-level counter at the time of the call. *)
Definition skolemise (self : Expression) (zc : Counter.t) : Expression * Counter.t :=
  let '(r, st) :=
    _skolemise self {| bound_vars := ∅; counter := Counter.new; _counter := zc |} in
  (r, _counter st).

(** ** Rendering *)

(** The class attribute [PREFIX]. *)
Definition PREFIX (cls : BinderClass) : string :=
  match cls with
  | LambdaExpression => "\"
  | SomeExpression => "some "
  | AllExpression => "all "
  end.

Definition is_ApplicationExpression (e : Expression) : bool :=
  match e with ApplicationExpression _ _ => true | _ => false end.

Definition is_Operator (e : Expression) : bool :=
  match e with Operator _ => true | _ => false end.

(** [self.term.__class__ == self.__class__] in a binder of class [cls]. *)
Definition same_binder_class (cls : BinderClass) (term : Expression) : bool :=
  match term with
  | VariableBinderExpression cls' _ _ => bool_decide (cls' = cls)
  | _ => false
  end.

(** The slice [s[1:-1]]. *)
Definition slice_1_m1 (s : string) : string :=
  String.substring 1 (String.length s - 2) s.

(** [__str__]; only binders take (and look at) [continuation]. *)
Fixpoint __str__ (self : Expression) (continuation : bool) : string :=
  match self with
  | VariableExpression v | IndVariableExpression v => variable_name v
  | ConstantExpression k => constant_name k
  | Operator o => o
  | VariableBinderExpression cls v term =>
      let prefix := if continuation then " " else PREFIX cls in
      if same_binder_class cls term
      then prefix +:+ variable_name v +:+ __str__ term true
      else prefix +:+ variable_name v +:+ "." +:+ __str__ term false
  | ApplicationExpression first second =>
      let strFirst := __str__ first false in
      let strFirst :=
        if is_ApplicationExpression first && negb (is_Operator second)
        then slice_1_m1 strFirst else strFirst in
      "(" +:+ strFirst +:+ " " +:+ __str__ second false +:+ ")"
  end.

Definition str (e : Expression) : string := __str__ e false.

(** ** Parser *)

(** The exceptions that the statements of the parser can raise themselves:
    [Error] by [raise], [IndexError] by [expr[0]] in [is_indvar] and by
    [vars.pop()], [AssertionError] by [assert].  The interpreter's
    [RecursionError], raised when calls nest deeper than its recursion limit
    (text nested about a thousand deep), is none of them: the model has no
    recursion limit, and bounds the nesting of calls by [fuel] instead. *)
Inductive Exception :=
| Error (msg : string)
| IndexError
| AssertionError.

(** What a parser method can end in: a value together with the buffer it
    leaves, an exception, the [while not tok] loop of [token] spinning on an
    exhausted buffer, or the fuel of the model running out, which says
    nothing of the code: where the interpreter gives up on deep nesting with
    a [RecursionError], the model with fuel enough goes on. *)
Inductive result (A : Type) :=
| Return (a : A) (buffer : string)
| Raise (e : Exception)
| Hang
| OutOfFuel.
Arguments Return {A} a buffer.
Arguments Raise {A} e.
Arguments Hang {A}.
Arguments OutOfFuel {A}.

(** A method of a [Parser] object, as a function of [self.buffer]. *)
Definition M (A : Type) : Type := string → result A.

#[global] Instance M_ret : MRet M := λ A a buffer, Return a buffer.
#[global] Instance M_bind : MBind M := λ A B k m buffer,
  match m buffer with
  | Return a buffer' => k a buffer'
  | Raise e => Raise e
  | Hang => Hang
  | OutOfFuel => OutOfFuel
  end.

Definition raise {A} (e : Exception) : M A := λ _, Raise e.

(** [str.replace(old, new)] for a one-character [old]. *)
Fixpoint str_replace (old : ascii) (new : string) (s : string) : string :=
  match s with
  | "" => ""
  | String c rest =>
      if Ascii.eqb c old then new +:+ str_replace old new rest
      else String c (str_replace old new rest)
  end.

(** [buffer.split(" ", 1)]: the text before the first space and, when there
    is a space, the text after it. *)
Fixpoint split_space_1 (s : string) : string * option string :=
  match s with
  | "" => ("", None)
  | String c rest =>
      if Ascii.eqb c " " then ("", Some rest)
      else let '(tok, after) := split_space_1 rest in (String c tok, after)
  end.

Module Parser.

Definition LAMBDA := "\".
Definition SOME := "some".
Definition ALL := "all".
Definition DOT := ".".
Definition OPEN := "(".
Definition CLOSE := ")".
Definition EQ := "=".
(** [OPS = BOOL; OPS.append(EQ)]: one list object under two names. *)
Definition BOOL := ["and"; "or"; "not"; "implies"; "iff"; EQ].
Definition OPS := BOOL.

Definition process (buffer : string) : string :=
  let buffer := str_replace (ascii_of_nat 9) " " buffer in
  let buffer := str_replace (ascii_of_nat 10) " " buffer in
  let buffer := str_replace "\" " \ " buffer in
  let buffer := str_replace "." " . " buffer in
  let buffer := str_replace "(" " ( " buffer in
  let buffer := str_replace ")" " ) " buffer in
  buffer.

(** [Parser(data)]: the buffer of the new object. *)
Definition new (data : string) : string := process data.

(** The loop [while not tok] of [token].  An empty [tok] comes from a
    leading space, and the loop goes on with the rest; on the empty buffer
    [split] gives [[""]], [tok] and [buffer] stay empty and the loop never
    exits ([None]). *)
Fixpoint token_loop (buffer : string) : option (string * string) :=
  match buffer with
  | "" => None
  | String c rest =>
      if Ascii.eqb c " " then token_loop rest
      else
        let '(tok, after) := split_space_1 buffer in
        Some (tok, default "" after)
  end.

Definition token (destructive : bool) : M string := λ buffer,
  if bool_decide (buffer = "") then Raise (Error "end of stream")
  else
    match token_loop buffer with
    | None => Hang
    | Some (tok, buffer') => Return tok (if destructive then buffer' else buffer)
    end.

Definition isVariable (constants : list string) (token : string) : bool :=
  let TOKENS := [LAMBDA; SOME; ALL; DOT; OPEN; CLOSE; EQ] in
  let TOKENS := (TOKENS ++ constants)%list in
  let TOKENS := (TOKENS ++ BOOL)%list in
  negb (bool_decide (token ∈ TOKENS)).

(** [while self.isVariable(self.token(0)): vars.append(self.token())] *)
Fixpoint more_vars (fuel : nat) (constants : list string) (vars : list string)
    : M (list string) :=
  match fuel with
  | 0 => λ _, OutOfFuel
  | S fuel =>
      ahead ← token false;
      if isVariable constants ahead then
        tok ← token true;
        more_vars fuel constants (vars ++ [tok])%list
      else mret vars
  end.

(** [while self.token(0) != Parser.CLOSE: exps.append(next(self))] *)
Fixpoint more_exps (fuel : nat) (next : M Expression) (exps : list Expression)
    : M (list Expression) :=
  match fuel with
  | 0 => λ _, OutOfFuel
  | S fuel =>
      ahead ← token false;
      if bool_decide (ahead ≠ CLOSE) then
        exp ← next;
        more_exps fuel next (exps ++ [exp])%list
      else mret exps
  end.

Definition unexpected_token (tok : string) : Exception :=
  Error ("parse error, unexpected token: " +:+ tok).

Fixpoint __next__ (fuel : nat) (constants : list string) : M Expression :=
  match fuel with
  | 0 => λ _, OutOfFuel
  | S fuel =>
      tok ← token true;
      if bool_decide (tok ∈ [LAMBDA; SOME; ALL]) then
        let factory :=
          if bool_decide (tok = LAMBDA) then LambdaExpression
          else if bool_decide (tok = SOME) then SomeExpression
          else AllExpression in
        v ← token true;
        vars ← more_vars fuel constants [v];
        tok ← token true;
        if bool_decide (tok ≠ DOT) then raise (unexpected_token tok)
        else
          term ← __next__ fuel constants;
          (* vars.pop() takes the variables from the last to the first *)
          mret (foldr (λ v accum, VariableBinderExpression factory (Variable' v) accum)
                      term vars)
      else if bool_decide (tok = OPEN) then
        first ← __next__ fuel constants;
        second ← __next__ fuel constants;
        exps ← more_exps fuel (__next__ fuel constants) [];
        tok ← token true;
        if bool_decide (tok = CLOSE) then
          let accum :=
            if is_Operator second then ApplicationExpression second first
            else ApplicationExpression first second in
          mret (foldl ApplicationExpression accum exps)
        else raise AssertionError
      else if bool_decide (tok ∈ constants) then
        mret (ConstantExpression (Constant' tok))
      else if bool_decide (tok ∈ OPS) then
        mret (Operator tok)
      else
        match is_indvar tok with
        | None => raise IndexError
        | Some true => mret (IndVariableExpression (Variable' tok))
        | Some false =>
            if isVariable constants tok
            then mret (VariableExpression (Variable' tok))
            else raise (unexpected_token tok)
        end
  end.

(** [next(Parser(data, constants))] *)
Definition parse_fuel (fuel : nat) (constants : list string) (data : string)
    : result Expression :=
  __next__ fuel constants (new data).

End Parser.


(** ** Terms of the demo and of the test-suite *)

Module Terms.

Definition var (name : string) : Expression := VariableExpression (Variable' name).
Definition ind (name : string) : Expression := IndVariableExpression (Variable' name).
Definition lam (name : string) (term : Expression) : Expression :=
  VariableBinderExpression LambdaExpression (Variable' name) term.
Definition some (name : string) (term : Expression) : Expression :=
  VariableBinderExpression SomeExpression (Variable' name) term.
Definition all (name : string) (term : Expression) : Expression :=
  VariableBinderExpression AllExpression (Variable' name) term.
Definition app (first second : Expression) : Expression :=
  ApplicationExpression first second.
Definition const (name : string) : Expression :=
  ConstantExpression (Constant' name).

(** [\y.(x y)], [\z.(y z)] and the captured [\y.(y y)] *)
Definition lam_y_xy : Expression := lam "y" (app (ind "x") (ind "y")).
Definition lam_z_yz : Expression := lam "z" (app (ind "y") (ind "z")).
Definition lam_y_yy : Expression := lam "y" (app (ind "y") (ind "y")).

(** [\\y.(x (y z2))] *)
Definition lam_y_x_y_z2 : Expression :=
  lam "y" (app (ind "x") (app (ind "y") (ind "z2"))).

(** Church numerals, as [runtests] parses them. *)
Definition zero : Expression := lam "f" (lam "x" (ind "x")).
Definition one : Expression := lam "f" (lam "x" (app (var "f") (ind "x"))).
Definition two : Expression :=
  lam "f" (lam "x" (app (var "f") (app (var "f") (ind "x")))).
Definition succ : Expression :=
  lam "n" (lam "f" (lam "x"
    (app (var "f") (app (app (var "n") (var "f")) (ind "x"))))).

End Terms.

(** ** Auxiliary notions for the statements *)

(** The expression with the individual-variable classification forgotten. *)
Fixpoint untag (e : Expression) : Expression :=
  match e with
  | IndVariableExpression v => VariableExpression v
  | VariableBinderExpression cls v term => VariableBinderExpression cls v (untag term)
  | ApplicationExpression first second => ApplicationExpression (untag first) (untag second)
  | _ => e
  end.

(** The variables of the binders of an expression. *)
Fixpoint binders (e : Expression) : gset variable :=
  match e with
  | VariableBinderExpression _ v term => {[ v ]} ∪ binders term
  | ApplicationExpression first second => binders first ∪ binders second
  | _ => ∅
  end.

Definition is_SomeExpression (e : Expression) : bool :=
  match e with
  | VariableBinderExpression SomeExpression _ _ => true
  | _ => false
  end.

(** ** Auxiliary notions for the round trip *)

(** A character that [process] leaves alone and [token] does not split at. *)
Definition clean_char (c : ascii) : bool :=
  negb (Ascii.eqb c " ") && negb (Ascii.eqb c (ascii_of_nat 9)) &&
  negb (Ascii.eqb c (ascii_of_nat 10)) && negb (Ascii.eqb c "\") &&
  negb (Ascii.eqb c ".") && negb (Ascii.eqb c "(") && negb (Ascii.eqb c ")").

Definition not_space (c : ascii) : bool := negb (Ascii.eqb c " ").

Fixpoint all_chars (f : ascii → bool) (s : string) : bool :=
  match s with
  | "" => true
  | String c rest => f c && all_chars f rest
  end.

Definition nonempty (s : string) : bool :=
  match s with "" => false | _ => true end.

(** A non-empty text without a space: what [token] returns. *)
Definition nospace (t : string) : bool := nonempty t && all_chars not_space t.

(** A non-empty text that is one token, before and after [process]. *)
Definition clean (t : string) : bool := nonempty t && all_chars clean_char t.

(** A name the parser reads as a variable. *)
Definition var_token (constants : list string) (name : string) : bool :=
  clean name && Parser.isVariable constants name.

(** The expressions whose rendering a parser with the declared [constants]
    reads back: names are single tokens of the right kind, and no
    application has an operator as its argument. *)
Fixpoint parsable (constants : list string) (e : Expression) : bool :=
  match e with
  | VariableExpression v | IndVariableExpression v =>
      var_token constants (variable_name v)
  | ConstantExpression k =>
      clean (constant_name k) &&
      negb (bool_decide (constant_name k ∈ [Parser.LAMBDA; Parser.SOME; Parser.ALL])) &&
      bool_decide (constant_name k ∈ constants)
  | Operator o =>
      bool_decide (o ∈ Parser.OPS) && negb (bool_decide (o ∈ constants))
  | VariableBinderExpression _ v term =>
      var_token constants (variable_name v) && parsable constants term
  | ApplicationExpression first second =>
      parsable constants first && parsable constants second && negb (is_Operator second)
  end.

(** The expression with its variables classified the way the parser does. *)
Fixpoint retag (e : Expression) : Expression :=
  match e with
  | VariableExpression v | IndVariableExpression v =>
      match is_indvar (variable_name v) with
      | Some true => IndVariableExpression v
      | _ => VariableExpression v
      end
  | VariableBinderExpression cls v term => VariableBinderExpression cls v (retag term)
  | ApplicationExpression first second =>
      ApplicationExpression (retag first) (retag second)
  | _ => e
  end.

(** The number of nodes. *)
Fixpoint size (e : Expression) : nat :=
  match e with
  | VariableBinderExpression _ _ term => S (size term)
  | ApplicationExpression first second => S (size first + size second)
  | _ => 1
  end.

(** [tokenizes buffer l]: the buffer is the tokens [l], with spaces between
    them and possibly around them. *)
Inductive tokenizes : string → list string → Prop :=
| tokenizes_nil : tokenizes "" []
| tokenizes_space b l : tokenizes b l → tokenizes (String " " b) l
| tokenizes_last t : nospace t = true → tokenizes t [t]
| tokenizes_cons t b l :
    nospace t = true → tokenizes b l → tokenizes (t +:+ String " " b) (t :: l).

(** The binder keyword as a token. *)
Definition keyword (cls : BinderClass) : string :=
  match cls with
  | LambdaExpression => Parser.LAMBDA
  | SomeExpression => Parser.SOME
  | AllExpression => Parser.ALL
  end.

(** How a node is rendered: on its own, as the continuation of a binder of
    its class ([\x y.M]), or as the functor of an application, without its
    parentheses ([(M N P)]). *)
Inductive mode := Top | Continuation | Inner.

(** The rendering of [__str__], with the slice [[1:-1]] replaced by [Inner],
    for expressions without operators in argument position. *)
Fixpoint strs (m : mode) (e : Expression) : string :=
  match e with
  | VariableExpression v | IndVariableExpression v => variable_name v
  | ConstantExpression k => constant_name k
  | Operator o => o
  | VariableBinderExpression cls v term =>
      (match m with Continuation => " " | _ => PREFIX cls end) +:+ variable_name v +:+
      (if same_binder_class cls term then strs Continuation term
       else "." +:+ strs Top term)
  | ApplicationExpression first second =>
      let body :=
        strs (if is_ApplicationExpression first then Inner else Top) first +:+
        " " +:+ strs Top second in
      match m with Inner => body | _ => "(" +:+ body +:+ ")" end
  end.

(** The tokens of the rendering. *)
Fixpoint toks (m : mode) (e : Expression) : list string :=
  match e with
  | VariableExpression v | IndVariableExpression v => [variable_name v]
  | ConstantExpression k => [constant_name k]
  | Operator o => [o]
  | VariableBinderExpression cls v term =>
      ((match m with Continuation => [] | _ => [keyword cls] end) ++
       variable_name v ::
       (if same_binder_class cls term then toks Continuation term
        else Parser.DOT :: toks Top term))%list
  | ApplicationExpression first second =>
      let body :=
        (toks (if is_ApplicationExpression first then Inner else Top) first ++
         toks Top second)%list in
      match m with Inner => body | _ => (Parser.OPEN :: body ++ [Parser.CLOSE])%list end
  end.

(** The variables [\x y z.M] puts after the first, and the body [M]. *)
Fixpoint chain_vars (cls : BinderClass) (term : Expression) : list string :=
  match term with
  | VariableBinderExpression cls' w t =>
      if bool_decide (cls' = cls) then variable_name w :: chain_vars cls t else []
  | _ => []
  end.

Fixpoint chain_body (cls : BinderClass) (term : Expression) : Expression :=
  match term with
  | VariableBinderExpression cls' w t =>
      if bool_decide (cls' = cls) then chain_body cls t else term
  | _ => term
  end.

(** The functor and the arguments of [(M N P ...)]. *)
Fixpoint spine_head (e : Expression) : Expression :=
  match e with
  | ApplicationExpression first _ => spine_head first
  | _ => e
  end.

Fixpoint spine_args (e : Expression) : list Expression :=
  match e with
  | ApplicationExpression first second => (spine_args first ++ [second])%list
  | _ => []
  end.

(** ** The remaining methods of the expression classes *)

(** [variables]: the set of all variables, free and bound. *)
Fixpoint variables (self : Expression) : gset variable :=
  match self with
  | VariableExpression v | IndVariableExpression v => {[ v ]}
  | ConstantExpression _ | Operator _ => ∅
  | VariableBinderExpression _ v term => {[ v ]} ∪ variables term
  | ApplicationExpression first second => variables first ∪ variables second
  end.

(** [infixify]: an application whose infixified functor is an operator other
    than ["not"] has its two sides exchanged. *)
Fixpoint infixify (self : Expression) : Expression :=
  match self with
  | VariableExpression _ | IndVariableExpression _
  | ConstantExpression _ | Operator _ => self
  | VariableBinderExpression cls v term =>
      VariableBinderExpression cls v (infixify term)
  | ApplicationExpression first second =>
      let first' := infixify first in
      let second' := infixify second in
      match first' with
      | Operator o =>
          if negb (String.eqb o "not") then ApplicationExpression second' first'
          else ApplicationExpression first' second'
      | _ => ApplicationExpression first' second'
      end
  end.

(** [ApplicationExpression._functor] (the property [fun]); [None] is the
    [AttributeError] of asking a node of another class. *)
Fixpoint _functor (self : Expression) : option Expression :=
  match self with
  | ApplicationExpression first _ =>
      match first with
      | ApplicationExpression _ _ => _functor first
      | _ => Some first
      end
  | _ => None
  end.

(** [ApplicationExpression._operator] (the property [op]); [None] is its
    [AttributeError]. *)
Definition _operator (self : Expression) : option string :=
  match _functor self with
  | Some (Operator o) => Some o
  | _ => None
  end.

(** [ApplicationExpression._arglist]: the arguments, rendered, last first. *)
Fixpoint _arglist (self : Expression) : list string :=
  match self with
  | ApplicationExpression first second =>
      str second ::
      match first with
      | ApplicationExpression _ _ => _arglist first
      | _ => []
      end
  | _ => []
  end.

(** [ApplicationExpression._args] (the property [args]). *)
Definition _args (self : Expression) : list string := rev (_arglist self).

(** [Parser.feed], on the buffer of the object: [self.buffer += data], then
    [process] over the whole buffer. *)
Definition feed (data : string) (buffer : string) : string :=
  Parser.process (buffer +:+ data).

(** [Parser.parse]: [feed], then the next expression. *)
Definition parse (fuel : nat) (constants : list string) (data : string)
    : M Expression :=
  λ buffer, Parser.__next__ fuel constants (feed data buffer).

(** An expression without a beta-redex: no application has a
    [LambdaExpression] as its functor. *)
Fixpoint normal (e : Expression) : bool :=
  match e with
  | VariableBinderExpression _ _ term => normal term
  | ApplicationExpression first second =>
      normal first && normal second &&
      match first with
      | VariableBinderExpression LambdaExpression _ _ => false
      | _ => true
      end
  | _ => true
  end.

(** What the constructors of the source assert, and what the parser decides
    before it builds a node. *)
Fixpoint asserted (constants : list string) (e : Expression) : bool :=
  match e with
  | VariableExpression v =>
      bool_decide (is_indvar (variable_name v) = Some false) &&
      Parser.isVariable constants (variable_name v)
  | IndVariableExpression v => bool_decide (is_indvar (variable_name v) = Some true)
  | ConstantExpression k => bool_decide (constant_name k ∈ constants)
  | Operator o => bool_decide (o ∈ Parser.OPS)
  | VariableBinderExpression _ v term =>
      nospace (variable_name v) && asserted constants term
  | ApplicationExpression first second =>
      asserted constants first && asserted constants second
  end.

(** An exception the parser is written to raise. *)
Definition parse_error (e : Exception) : Prop :=
  e = Error "end of stream" ∨ ∃ tok, e = Parser.unexpected_token tok.

(** Outcomes all of whose exceptions, or all of whose values, satisfy [P]. *)
Definition raises_only {A} (P : Exception → Prop) (r : result A) : Prop :=
  ∀ e, r = Raise e → P e.

Definition returns_only {A} (P : A → string → Prop) (r : result A) : Prop :=
  ∀ a b, r = Return a b → P a b.

(** ** The rendering of every expression *)

(** [__str__] with the slice [[1:-1]] replaced by [Inner]: an application
    renders its functor without parentheses when the functor is an
    application and the argument is not an operator. *)
Fixpoint rendering (m : mode) (e : Expression) : string :=
  match e with
  | VariableExpression v | IndVariableExpression v => variable_name v
  | ConstantExpression k => constant_name k
  | Operator o => o
  | VariableBinderExpression cls v term =>
      (match m with Continuation => " " | _ => PREFIX cls end) +:+ variable_name v +:+
      (if same_binder_class cls term then rendering Continuation term
       else "." +:+ rendering Top term)
  | ApplicationExpression first second =>
      let body :=
        rendering (if is_ApplicationExpression first && negb (is_Operator second)
                   then Inner else Top) first +:+
        " " +:+ rendering Top second in
      match m with Inner => body | _ => "(" +:+ body +:+ ")" end
  end.

(** Its tokens. *)
Fixpoint tokens (m : mode) (e : Expression) : list string :=
  match e with
  | VariableExpression v | IndVariableExpression v => [variable_name v]
  | ConstantExpression k => [constant_name k]
  | Operator o => [o]
  | VariableBinderExpression cls v term =>
      ((match m with Continuation => [] | _ => [keyword cls] end) ++
       variable_name v ::
       (if same_binder_class cls term then tokens Continuation term
        else Parser.DOT :: tokens Top term))%list
  | ApplicationExpression first second =>
      let body :=
        (tokens (if is_ApplicationExpression first && negb (is_Operator second)
                 then Inner else Top) first ++
         tokens Top second)%list in
      match m with Inner => body | _ => (Parser.OPEN :: body ++ [Parser.CLOSE])%list end
  end.

(** Names are single tokens and operators are among [OPS]. *)
Fixpoint lexable (e : Expression) : bool :=
  match e with
  | VariableExpression v | IndVariableExpression v => clean (variable_name v)
  | ConstantExpression k => clean (constant_name k)
  | Operator o => bool_decide (o ∈ Parser.OPS)
  | VariableBinderExpression _ v term => clean (variable_name v) && lexable term
  | ApplicationExpression first second => lexable first && lexable second
  end.

(** No application has an operator as its argument. *)
Fixpoint operators_lead (e : Expression) : bool :=
  match e with
  | VariableBinderExpression _ _ term => operators_lead term
  | ApplicationExpression first second =>
      operators_lead first && operators_lead second && negb (is_Operator second)
  | _ => true
  end.

(** No application has an operator other than ["not"] as its functor. *)
Fixpoint operators_follow (e : Expression) : bool :=
  match e with
  | VariableBinderExpression _ _ term => operators_follow term
  | ApplicationExpression first second =>
      operators_follow first && operators_follow second &&
      match first with
      | Operator o => String.eqb o "not"
      | _ => true
      end
  | _ => true
  end.

(** ** Substitution as the docstring of [replace] has it *)

(** "Replace all instances of variable v with expression E in self, where v
    is free in self": the substitution that renames no binder. *)
Fixpoint substitute (t : Expression) (v : variable) (e : Expression) : Expression :=
  match t with
  | VariableExpression u | IndVariableExpression u =>
      if Variable_equals u v then e else t
  | ConstantExpression _ | Operator _ => t
  | VariableBinderExpression cls u term =>
      if Variable_equals u v then t
      else VariableBinderExpression cls u (substitute term v e)
  | ApplicationExpression first second =>
      ApplicationExpression (substitute first v e) (substitute second v e)
  end.

(** ** The notation without abbreviations *)

(** An expression written out in full: every binder with its own prefix and
    dot ([\x.\y.M] for [\x y.M]), every application in its own parentheses
    ([((M N) P)] for [(M N P)]). *)
Fixpoint plain (e : Expression) : string :=
  match e with
  | VariableExpression v | IndVariableExpression v => variable_name v
  | ConstantExpression k => constant_name k
  | Operator o => o
  | VariableBinderExpression cls v term =>
      PREFIX cls +:+ variable_name v +:+ "." +:+ plain term
  | ApplicationExpression first second =>
      "(" +:+ plain first +:+ " " +:+ plain second +:+ ")"
  end.

(** Its tokens. *)
Fixpoint plain_toks (e : Expression) : list string :=
  match e with
  | VariableExpression v | IndVariableExpression v => [variable_name v]
  | ConstantExpression k => [constant_name k]
  | Operator o => [o]
  | VariableBinderExpression cls v term =>
      keyword cls :: variable_name v :: Parser.DOT :: plain_toks term
  | ApplicationExpression first second =>
      (Parser.OPEN :: plain_toks first ++ plain_toks second ++ [Parser.CLOSE])%list
  end.

(** ** Skolemisation, observed *)

(** The names [_skolemise] mints start with ["_s"]. *)
Definition skolem_like (name : string) : bool :=
  match name with
  | String a (String b _) => Ascii.eqb a "_" && Ascii.eqb b "s"
  | _ => false
  end.

(** No binder of the expression has a name that starts with ["_s"]. *)
Fixpoint plain_binders (e : Expression) : bool :=
  match e with
  | VariableBinderExpression _ v term =>
      negb (skolem_like (variable_name v)) && plain_binders term
  | ApplicationExpression first second => plain_binders first && plain_binders second
  | _ => true
  end.

(** The lambda and universal binders of an expression, each with its class
    and its variable, from the outside in and from left to right. *)
Fixpoint kept_binders (e : Expression) : list (BinderClass * variable) :=
  match e with
  | VariableBinderExpression cls v term =>
      (match cls with SomeExpression => [] | _ => [(cls, v)] end ++ kept_binders term)%list
  | ApplicationExpression first second => (kept_binders first ++ kept_binders second)%list
  | _ => []
  end.

(** The number of existential binders. *)
Fixpoint existentials (e : Expression) : nat :=
  match e with
  | VariableBinderExpression cls _ term =>
      (match cls with SomeExpression => 1 | _ => 0 end + existentials term)%nat
  | ApplicationExpression first second => (existentials first + existentials second)%nat
  | _ => 0%nat
  end.

(** The calls [bound_vars.add(var)] that [SomeExpression._skolemise] makes
    in the course of [self._skolemise(bound_vars, counter)], in order: the
    variable added, and the set as it was before.  The recursion is that of
    [_skolemise_fuel]; the second operand of an application starts from the
    state the first operand leaves. *)
Fixpoint additions_fuel (fuel : nat) (self : Expression) (st : SkolemState)
    : list (variable * gset variable) :=
  match fuel with
  | 0 => []
  | S fuel =>
      match self with
      | VariableExpression _ | IndVariableExpression _
      | ConstantExpression _ | Operator _ => []
      | VariableBinderExpression SomeExpression v term =>
          if bool_decide (v ∈ bound_vars st) then
            let '(var, counter1) := fresh_s (counter st) in
            let '(term', zc) := replace term v (VariableExpression var) (_counter st) in
            (var, bound_vars st) ::
            additions_fuel fuel term'
              {| bound_vars := {[ var ]} ∪ bound_vars st;
                 counter := counter1; _counter := zc |}
          else
            (v, bound_vars st) ::
            additions_fuel fuel term
              {| bound_vars := {[ v ]} ∪ bound_vars st;
                 counter := counter st; _counter := _counter st |}
      | VariableBinderExpression _ v term =>
          additions_fuel fuel term
            {| bound_vars := {[ v ]} ∪ bound_vars st;
               counter := counter st; _counter := _counter st |}
      | ApplicationExpression first second =>
          (additions_fuel fuel first st ++
           additions_fuel fuel second (_skolemise first st).2)%list
      end
  end.

Definition additions (self : Expression) (st : SkolemState)
    : list (variable * gset variable) :=
  additions_fuel (S (height self)) self st.

(** The set holds none of the names the counter has yet to give out. *)
Definition numbered (st : SkolemState) : Prop :=
  ∀ k : nat, (Counter._value (counter st) < k)%nat →
    Variable' ("_s" +:+ str_of_int k) ∉ bound_vars st.

(** * Properties *)

Close Scope string_scope.

Opaque fresh_z fresh_s str_of_int.

(** ** Fuel of [replace] *)

Section ReplaceFuel.

Lemma replace_fuel_mono n m self v e c r :
  replace_fuel n self v e c = Some r → n ≤ m →
  replace_fuel m self v e c = Some r.
Proof.
  revert m self v e c r.
  induction n as [|n IH]; intros m self v e c r H Hle; [discriminate|].
  destruct m as [|m]; [lia|].
  assert (Hnm : n ≤ m) by lia.
  destruct self as [w|w|k|o|cls w term|first second]; simpl in *; try exact H.
  - destruct (Variable_equals w v); [exact H|].
    destruct (bool_decide (w ∈ free e)).
    + destruct (fresh_z c) as [newvar c1].
      destruct (replace_fuel n term w (VariableExpression newvar) c1)
        as [[term1 c2]|] eqn:E1; [|simpl in H; discriminate H].
      rewrite (IH _ _ _ _ _ _ E1 Hnm). simpl in *.
      destruct (replace_fuel n term1 v e c2) as [[term2 c3]|] eqn:E2; [|simpl in H; discriminate H].
      rewrite (IH _ _ _ _ _ _ E2 Hnm). exact H.
    + destruct (replace_fuel n term v e c) as [[term1 c1]|] eqn:E1; [|simpl in H; discriminate H].
      rewrite (IH _ _ _ _ _ _ E1 Hnm). exact H.
  - destruct (replace_fuel n first v e c) as [[first1 c1]|] eqn:E1; [|simpl in H; discriminate H].
    rewrite (IH _ _ _ _ _ _ E1 Hnm). simpl in *.
    destruct (replace_fuel n second v e c1) as [[second1 c2]|] eqn:E2; [|simpl in H; discriminate H].
    rewrite (IH _ _ _ _ _ _ E2 Hnm). exact H.
Qed.

(** Substituting a variable for a variable keeps the height. *)
Lemma replace_fuel_rename_height n self v w c r c' :
  replace_fuel n self v (VariableExpression w) c = Some (r, c') →
  height r = height self.
Proof.
  revert self v w c r c'.
  induction n as [|n IH]; intros self v w c r c' H; [discriminate|].
  destruct self as [u|u|k|o|cls u term|first second]; simpl in H.
  - destruct (Variable_equals u v); by inversion H.
  - destruct (Variable_equals u v); by inversion H.
  - by inversion H.
  - by inversion H.
  - destruct (Variable_equals u v); [by inversion H|].
    destruct (bool_decide _).
    + destruct (fresh_z c) as [newvar c1].
      destruct (replace_fuel n term u _ c1) as [[term1 c2]|] eqn:E1; [|simpl in H; discriminate H].
      simpl in H.
      destruct (replace_fuel n term1 v _ c2) as [[term2 c3]|] eqn:E2; [|simpl in H; discriminate H].
      inversion H; subst; simpl.
      by rewrite (IH _ _ _ _ _ _ E2), (IH _ _ _ _ _ _ E1).
    + destruct (replace_fuel n term v _ c) as [[term1 c1]|] eqn:E1; [|simpl in H; discriminate H].
      inversion H; subst; simpl. by rewrite (IH _ _ _ _ _ _ E1).
  - destruct (replace_fuel n first v _ c) as [[first1 c1]|] eqn:E1; [|simpl in H; discriminate H].
    simpl in H.
    destruct (replace_fuel n second v _ c1) as [[second1 c2]|] eqn:E2; [|simpl in H; discriminate H].
    inversion H; subst; simpl.
    by rewrite (IH _ _ _ _ _ _ E1), (IH _ _ _ _ _ _ E2).
Qed.

(** Fuel above the height of the term is enough: [replace] always returns. *)
Lemma replace_fuel_enough n self v e c :
  height self < n → is_Some (replace_fuel n self v e c).
Proof.
  revert self v e c.
  induction n as [|n IH]; intros self v e c Hh; [lia|].
  destruct self as [u|u|k|o|cls u term|first second]; simpl in *.
  - destruct (Variable_equals u v); eauto.
  - destruct (Variable_equals u v); eauto.
  - eauto.
  - eauto.
  - destruct (Variable_equals u v); [eauto|].
    destruct (bool_decide _).
    + destruct (fresh_z c) as [newvar c1].
      destruct (IH term u (VariableExpression newvar) c1) as [[term1 c2] E1]; [lia|].
      rewrite E1; simpl.
      destruct (IH term1 v e c2) as [[term2 c3] E2].
      { rewrite (replace_fuel_rename_height _ _ _ _ _ _ _ E1). lia. }
      rewrite E2; simpl. eauto.
    + destruct (IH term v e c) as [[term1 c1] E1]; [lia|].
      rewrite E1; simpl. eauto.
  - destruct (IH first v e c) as [[first1 c1] E1]; [lia|].
    rewrite E1; simpl.
    destruct (IH second v e c1) as [[second1 c2] E2]; [lia|].
    rewrite E2; simpl. eauto.
Qed.

Lemma replace_fuel_total n self v e c :
  height self < n → replace_fuel n self v e c = Some (replace self v e c).
Proof.
  intros Hh. unfold replace.
  destruct (replace_fuel_enough (S (height self)) self v e c) as [r E]; [lia|].
  rewrite E; simpl. eapply replace_fuel_mono; [exact E | lia].
Qed.

Lemma replace_rename_height self v w c :
  height (replace self v (VariableExpression w) c).1 = height self.
Proof.
  pose proof (replace_fuel_total (S (height self)) self v (VariableExpression w) c) as E.
  destruct (replace self v (VariableExpression w) c) as [r c'].
  eapply replace_fuel_rename_height. apply E. lia.
Qed.

End ReplaceFuel.

(** ** The equations of [replace] *)

Section ReplaceEquations.

Lemma replace_VariableExpression u v e c :
  replace (VariableExpression u) v e c =
  (if Variable_equals u v then e else VariableExpression u, c).
Proof. unfold replace; simpl. by destruct (Variable_equals u v). Qed.

Lemma replace_IndVariableExpression u v e c :
  replace (IndVariableExpression u) v e c =
  (if Variable_equals u v then e else IndVariableExpression u, c).
Proof. unfold replace; simpl. by destruct (Variable_equals u v). Qed.

Lemma replace_ConstantExpression k v e c :
  replace (ConstantExpression k) v e c = (ConstantExpression k, c).
Proof. reflexivity. Qed.

Lemma replace_Operator o v e c :
  replace (Operator o) v e c = (Operator o, c).
Proof. reflexivity. Qed.

Lemma replace_ApplicationExpression first second v e c :
  replace (ApplicationExpression first second) v e c =
  let '(first', c1) := replace first v e c in
  let '(second', c2) := replace second v e c1 in
  (ApplicationExpression first' second', c2).
Proof.
  unfold replace at 1.
  change (replace_fuel (S ?n) (ApplicationExpression first second) v e c)
    with ('(first', c1) ← replace_fuel n first v e c;
          '(second', c2) ← replace_fuel n second v e c1;
          Some (ApplicationExpression first' second', c2)).
  assert (Hf : height first < height (ApplicationExpression first second))
    by (simpl; lia).
  assert (Hs : height second < height (ApplicationExpression first second))
    by (simpl; lia).
  revert Hf Hs. generalize (height (ApplicationExpression first second)) as n.
  intros n Hf Hs.
  rewrite (replace_fuel_total _ first) by done.
  destruct (replace first v e c) as [first' c1]; simpl.
  rewrite (replace_fuel_total _ second) by done.
  by destruct (replace second v e c1) as [second' c2].
Qed.

Lemma replace_VariableBinderExpression cls u term v e c :
  replace (VariableBinderExpression cls u term) v e c =
  if Variable_equals u v then (VariableBinderExpression cls u term, c)
  else if bool_decide (u ∈ free e) then
    let '(newvar, c1) := fresh_z c in
    let '(term1, c2) := replace term u (VariableExpression newvar) c1 in
    let '(term2, c3) := replace term1 v e c2 in
    (VariableBinderExpression cls newvar term2, c3)
  else
    let '(term', c1) := replace term v e c in
    (VariableBinderExpression cls u term', c1).
Proof.
  assert (Hn : height term < height (VariableBinderExpression cls u term))
    by (simpl; lia).
  unfold replace at 1.
  revert Hn. generalize (height (VariableBinderExpression cls u term)) as n.
  intros n Hn. simpl.
  destruct (Variable_equals u v); [done|].
  destruct (bool_decide (u ∈ free e)).
  - destruct (fresh_z c) as [newvar c1].
    rewrite (replace_fuel_total _ term) by done.
    pose proof (replace_rename_height term u newvar c1) as Hh.
    destruct (replace term u (VariableExpression newvar) c1) as [term1 c2]; simpl in *.
    rewrite (replace_fuel_total _ term1) by lia.
    by destruct (replace term1 v e c2) as [term2 c3].
  - rewrite (replace_fuel_total _ term) by done.
    by destruct (replace term v e c) as [term' c1].
Qed.

End ReplaceEquations.

Lemma Variable_equals_eq v w : Variable_equals v w = true ↔ v = w.
Proof.
  destruct v as [n], w as [m]; unfold Variable_equals; simpl.
  rewrite String.eqb_eq. split; [by intros -> | by inversion 1].
Qed.

Lemma Variable_equals_refl v : Variable_equals v v = true.
Proof. by apply Variable_equals_eq. Qed.

Lemma Variable_equals_neq v w : Variable_equals v w = false ↔ v ≠ w.
Proof.
  rewrite <- Variable_equals_eq. destruct (Variable_equals v w); split; congruence.
Qed.

Lemma fresh_z_eq c :
  fresh_z c = (Variable' (String "z" (str_of_int (S (Counter._value c)))),
               Counter.mk (S (Counter._value c))).
Proof. Transparent fresh_z. reflexivity. Opaque fresh_z. Qed.

Lemma fresh_s_eq c :
  fresh_s c = (Variable' (String "_" (String "s" (str_of_int (S (Counter._value c))))),
               Counter.mk (S (Counter._value c))).
Proof. Transparent fresh_s. reflexivity. Opaque fresh_s. Qed.

(** ** Tests of the parser on the terms above *)

Example parse_lam_y_xy :
  Parser.parse_fuel 5 [] "\y.(x y)" = Return Terms.lam_y_xy "".
Proof. vm_compute. reflexivity. Qed.

Example parse_succ :
  Parser.parse_fuel 9 [] "\n f x.(f (n f x))" = Return Terms.succ "".
Proof. vm_compute. reflexivity. Qed.

Example parse_zero_one_two :
  Parser.parse_fuel 9 [] "\f x.x" = Return Terms.zero "" ∧
  Parser.parse_fuel 9 [] "\f x.(f x)" = Return Terms.one "" ∧
  Parser.parse_fuel 9 [] "\f x.(f (f x))" = Return Terms.two "".
Proof. vm_compute. done. Qed.

(** ** Equality of variable expressions *)

(** C9: for every name [n] with the form of an individual variable, the
    generic [VariableExpression] and the [IndVariableExpression] over
    [Variable(n)] are [equals] in both directions; between variable
    expressions of either class, [equals] compares the names only. *)
Theorem equals_across_variable_classes (n : string) (c : Counter.t) :
  is_indvar n = Some true →
  equals (VariableExpression (Variable' n)) (IndVariableExpression (Variable' n)) c
    = (true, c) ∧
  equals (IndVariableExpression (Variable' n)) (VariableExpression (Variable' n)) c
    = (true, c) ∧
  (∀ v w : variable,
     let by_name := (String.eqb (variable_name v) (variable_name w), c) in
     equals (VariableExpression v) (VariableExpression w) c = by_name ∧
     equals (VariableExpression v) (IndVariableExpression w) c = by_name ∧
     equals (IndVariableExpression v) (VariableExpression w) c = by_name ∧
     equals (IndVariableExpression v) (IndVariableExpression w) c = by_name).
Proof.
  intros _. simpl. unfold Variable_equals; simpl.
  rewrite String.eqb_refl. repeat split.
Qed.

Lemma equals_across_variable_classes_witness :
  is_indvar "x12" = Some true ∧
  equals (VariableExpression (Variable' "x12")) (IndVariableExpression (Variable' "x12"))
    Counter.new = (true, Counter.new).
Proof.
  split; [reflexivity|].
  apply (equals_across_variable_classes "x12" Counter.new). reflexivity.
Defined.

Opaque Variable_equals.

(** Decide the comparisons of variable names that are syntactically equal or
    differ in a character. *)
Ltac decide_Variable_equals :=
  repeat match goal with
  | |- context [Variable_equals ?a ?a] => rewrite (Variable_equals_refl a)
  | |- context [Variable_equals ?a ?b] =>
      rewrite (proj2 (Variable_equals_neq a b)) by (intros [=]; done)
  end.

Ltac unfold_replace :=
  rewrite ?replace_ApplicationExpression, ?replace_IndVariableExpression,
    ?replace_VariableExpression, ?replace_ConstantExpression, ?replace_Operator,
    ?replace_VariableBinderExpression.

Ltac run_equals :=
  repeat (progress (simpl; unfold_replace; decide_Variable_equals)).

(** ** Capture-avoiding substitution *)

Section CaptureAvoidance.

Import Terms.

(** The name minted from the counter is none of the names in sight. *)
Lemma replace_lam_y_xy (e : Expression) (c : Counter.t) :
  free e = {[ Variable' "y" ]} →
  replace lam_y_xy (Variable' "x") e c =
  (VariableBinderExpression LambdaExpression (fresh_z c).1
     (ApplicationExpression e (VariableExpression (fresh_z c).1)),
   (fresh_z c).2).
Proof.
  intros Hfree. unfold lam_y_xy, lam, app, ind.
  rewrite replace_VariableBinderExpression.
  rewrite Hfree, bool_decide_true by set_solver.
  rewrite fresh_z_eq; simpl.
  reflexivity.
Qed.

Lemma equals_fresh_lam_z_yz (e : Expression) (s : string) (c : Counter.t) :
  e = var "y" ∨ e = ind "y" →
  let r := VariableBinderExpression LambdaExpression (Variable' (String "z" s))
             (ApplicationExpression e (VariableExpression (Variable' (String "z" s)))) in
  equals r lam_z_yz c = (true, c) ∧ equals lam_z_yz r c = (true, c) ∧
  equals r lam_y_yy c = (false, c) ∧ r ≠ lam_y_yy.
Proof.
  intros He r. subst r. unfold lam_z_yz, lam_y_yy, lam, app, ind, var in *.
  destruct s as [|a s]; destruct He as [-> | ->]; run_equals;
    repeat split; discriminate.
Qed.

(** C1: substituting [y] for [x] in [\y.(x y)] renames the bound [y] to
    the name minted from the counter before it substitutes; the result is
    [equals] to [\z.(y z)] and is not the captured [\y.(y y)].  In general,
    when the bound variable of a binder differs from the substituted
    variable and occurs free in the expression substituted in, [replace]
    alpha-converts the binder to the variable ["z" + str(counter.get())] and
    then substitutes into the renamed body. *)
Theorem replace_avoids_capture :
  (∀ (e : Expression) (c : Counter.t),
     e = var "y" ∨ e = ind "y" →
     let '(r, c') := replace lam_y_xy (Variable' "x") e c in
     r = VariableBinderExpression LambdaExpression (fresh_z c).1
           (ApplicationExpression e (VariableExpression (fresh_z c).1)) ∧
     c' = (fresh_z c).2 ∧
     equals r lam_z_yz c' = (true, c') ∧
     equals lam_z_yz r c' = (true, c') ∧
     r ≠ lam_y_yy ∧
     equals r lam_y_yy c' = (false, c')) ∧
  (∀ (cls : BinderClass) (bound : variable) (body : Expression)
     (v : variable) (expression : Expression) (c : Counter.t),
     bound ≠ v → bound ∈ free expression →
     let '(newvar, c1) := fresh_z c in
     let '(renamed, c2) := alpha_convert cls bound body newvar c1 in
     newvar = Variable' ("z" +:+ str_of_int (S (Counter._value c))) ∧
     ∃ body1,
       renamed = VariableBinderExpression cls newvar body1 ∧
       replace (VariableBinderExpression cls bound body) v expression c =
       let '(body2, c3) := replace body1 v expression c2 in
       (VariableBinderExpression cls newvar body2, c3)).
Proof.
  split.
  - intros e c He.
    rewrite replace_lam_y_xy by (destruct He as [-> | ->]; reflexivity).
    rewrite fresh_z_eq; simpl.
    destruct (equals_fresh_lam_z_yz e (str_of_int (S (Counter._value c)))
                (Counter.mk (S (Counter._value c))) He) as (H1 & H2 & H3 & H4).
    repeat split; assumption.
  - intros cls bound body v expression c Hne Hfree.
    rewrite replace_VariableBinderExpression.
    rewrite (proj2 (Variable_equals_neq bound v) Hne).
    rewrite bool_decide_true by done.
    rewrite fresh_z_eq. unfold alpha_convert.
    destruct (replace body bound _ _) as [body1 c2].
    split; [reflexivity|]. exists body1. split; reflexivity.
Qed.

Lemma replace_avoids_capture_witness :
  Variable' "y" ≠ Variable' "x" ∧
  Variable' "y" ∈ free (ind "y") ∧
  replace lam_y_xy (Variable' "x") (ind "y") Counter.new =
    (lam "z1" (app (ind "y") (var "z1")), Counter.mk 1).
Proof.
  split; [discriminate|]. split; [simpl; set_solver|].
  pose proof (proj2 replace_avoids_capture LambdaExpression (Variable' "y")
                (app (ind "x") (ind "y")) (Variable' "x") (ind "y") Counter.new
                ltac:(discriminate) ltac:(simpl; set_solver)) as H.
  change (fresh_z Counter.new) with (Variable' "z1", Counter.mk 1) in H.
  cbv beta iota in H.
  change (alpha_convert _ _ _ _ _)
    with (lam "z1" (app (ind "x") (var "z1")), Counter.mk 1) in H.
  destruct H as (_ & body1 & Hb & H).
  injection Hb as <-. exact H.
Defined.

End CaptureAvoidance.

(** ** Induction on the height of an expression *)

Lemma Expression_height_ind (P : Expression → Prop) :
  (∀ e, (∀ e', height e' < height e → P e') → P e) → ∀ e, P e.
Proof.
  intros step e.
  assert (H : ∀ n e, height e < n → P e).
  { induction n as [|n IH]; intros e' Hlt; [lia|].
    apply step. intros e'' Hlt'. apply IH. lia. }
  apply (H (S (height e))). lia.
Qed.

(** ** [equals] does not see the individual-variable classification *)

Section Untag.

Lemma free_untag e : free (untag e) = free e.
Proof. induction e; simpl; congruence. Qed.

Lemma height_untag e : height (untag e) = height e.
Proof. induction e; simpl; congruence. Qed.

Lemma replace_untag self v e c :
  replace (untag self) v (untag e) c =
  ((untag (replace self v e c).1), (replace self v e c).2).
Proof.
  revert v e c. induction self as [self IH] using Expression_height_ind.
  intros v e c.
  destruct self as [u|u|k|o|cls u term|first second]; simpl untag.
  - rewrite !replace_VariableExpression. by destruct (Variable_equals u v).
  - rewrite replace_VariableExpression, replace_IndVariableExpression.
    by destruct (Variable_equals u v).
  - reflexivity.
  - reflexivity.
  - rewrite !replace_VariableBinderExpression, free_untag.
    destruct (Variable_equals u v); [done|].
    destruct (bool_decide (u ∈ free e)).
    + destruct (fresh_z c) as [newvar c1].
      change (VariableExpression newvar) with (untag (VariableExpression newvar)) at 1.
      rewrite IH by (simpl; lia).
      pose proof (replace_rename_height term u newvar c1) as Hh.
      destruct (replace term u (VariableExpression newvar) c1) as [term1 c2].
      simpl in Hh |- *.
      rewrite IH by (simpl; lia).
      by destruct (replace term1 v e c2) as [term2 c3].
    + rewrite IH by (simpl; lia).
      by destruct (replace term v e c) as [term' c1].
  - rewrite !replace_ApplicationExpression.
    rewrite (IH first) by (simpl; lia).
    destruct (replace first v e c) as [first' c1]; simpl.
    rewrite (IH second) by (simpl; lia).
    by destruct (replace second v e c1) as [second' c2].
Qed.

Lemma equals_untag_r self other c :
  equals self (untag other) c = equals self other c.
Proof.
  revert other c.
  induction self as [u|u|k|o|cls u term IH|first IH1 second IH2];
    intros other c; destruct other as [w|w|k'|o'|cls' w term'|first' second'];
    simpl; try reflexivity.
  - destruct (bool_decide (cls = cls')); [|done].
    destruct (Variable_equals u w); [apply IH|].
    change (VariableExpression u) with (untag (VariableExpression u)) at 1.
    rewrite replace_untag.
    destruct (replace term' w (VariableExpression u) c) as [relabeled c1]; simpl.
    apply IH.
  - rewrite IH1. destruct (equals first first' c) as [[] c1]; [apply IH2|done].
Qed.

(** Substituting a variable for itself changes nothing [equals] can see,
    and never draws from the counter. *)
Lemma replace_self self v c :
  untag (replace self v (VariableExpression v) c).1 = untag self ∧
  (replace self v (VariableExpression v) c).2 = c.
Proof.
  revert c.
  induction self as [u|u|k|o|cls u term IH|first IH1 second IH2]; intros c.
  - rewrite replace_VariableExpression.
    destruct (Variable_equals u v) eqn:E; [|done].
    apply Variable_equals_eq in E as ->. done.
  - rewrite replace_IndVariableExpression.
    destruct (Variable_equals u v) eqn:E; [|done].
    apply Variable_equals_eq in E as ->. done.
  - done.
  - done.
  - rewrite replace_VariableBinderExpression.
    destruct (Variable_equals u v) eqn:E; [done|].
    apply Variable_equals_neq in E.
    rewrite bool_decide_false by (simpl; set_solver).
    destruct (IH c) as [H1 H2].
    destruct (replace term v (VariableExpression v) c) as [term' c1]; simpl in *.
    by rewrite H1, H2.
  - rewrite replace_ApplicationExpression.
    destruct (IH1 c) as [H1 H2].
    destruct (replace first v (VariableExpression v) c) as [first' c1]; simpl in *.
    subst c1. destruct (IH2 c) as [H3 H4].
    destruct (replace second v (VariableExpression v) c) as [second' c2]; simpl in *.
    by rewrite H1, H3, H4.
Qed.

Lemma equals_relabel_same self other v c :
  (let '(relabeled, c1) := replace other v (VariableExpression v) c in
   equals self relabeled c1) = equals self other c.
Proof.
  destruct (replace_self other v c) as [H1 H2].
  destruct (replace other v (VariableExpression v) c) as [relabeled c1].
  simpl in *. subst c1.
  by rewrite <- (equals_untag_r self relabeled), H1, equals_untag_r.
Qed.

End Untag.

(** ** Equality of binders *)

Section BinderEquality.

Import Terms.

Lemma Constant_equals_eq k k' : Constant_equals k k' = true ↔ k = k'.
Proof.
  destruct k as [n], k' as [m]; unfold Constant_equals; simpl.
  rewrite String.eqb_eq. split; [by intros -> | by inversion 1].
Qed.

(** C2: on two binders of the same class, [equals] is true exactly when
    either the bound variables are identical and the bodies are [equals],
    or the body of the second, with its bound variable replaced by the bound
    variable of the first, is [equals] to the body of the first.  For every
    constant [P], [\\x.(P x)] equals [\\y.(P y)]; for distinct constants [P]
    and [Q], [\\x.(P x)] does not equal [\\x.(Q x)]. *)
Theorem equals_binders_alpha :
  (∀ (cls : BinderClass) (x y : variable) (M N : Expression) (c : Counter.t),
     (equals (VariableBinderExpression cls x M) (VariableBinderExpression cls y N) c).1
       = true ↔
     (x = y ∧ (equals M N c).1 = true) ∨
     (let '(relabeled, c1) := replace N y (VariableExpression x) c in
      (equals M relabeled c1).1 = true)) ∧
  (∀ (P : string) (c : Counter.t),
     equals (lam "x" (app (const P) (ind "x"))) (lam "y" (app (const P) (ind "y"))) c
       = (true, c)) ∧
  (∀ (P Q : string) (c : Counter.t),
     P ≠ Q →
     equals (lam "x" (app (const P) (ind "x"))) (lam "x" (app (const Q) (ind "x"))) c
       = (false, c)).
Proof.
  split; [|split].
  - intros cls x y M N c. simpl.
    rewrite bool_decide_true by done.
    destruct (Variable_equals x y) eqn:E.
    + apply Variable_equals_eq in E as ->.
      pose proof (equals_relabel_same M N y c) as Hsame.
      destruct (replace N y (VariableExpression y) c) as [relabeled c1].
      rewrite Hsame. tauto.
    + apply Variable_equals_neq in E.
      destruct (replace N y (VariableExpression x) c) as [relabeled c1]. tauto.
  - intros P c. unfold lam, app, const, ind. run_equals.
    unfold Constant_equals; simpl. by rewrite String.eqb_refl.
  - intros P Q c Hne. unfold lam, app, const, ind. run_equals.
    unfold Constant_equals; simpl.
    by rewrite (proj2 (String.eqb_neq P Q) Hne).
Qed.

Lemma equals_binders_alpha_witness :
  "P" ≠ "Q" ∧
  equals (lam "x" (app (const "P") (ind "x"))) (lam "x" (app (const "Q") (ind "x")))
    Counter.new = (false, Counter.new).
Proof.
  split; [discriminate|].
  apply (proj2 (proj2 equals_binders_alpha) "P" "Q" Counter.new). discriminate.
Defined.

End BinderEquality.

(** ** [replace] and the class-level counter *)

Section HiddenCounter.

Import Terms.

(** Two calls of [replace] with the same arguments, one after the other in
    a fresh process: the first mints [z1], the second mints [z2], which
    captures the free [z2] of the term; the two results are different
    expressions, and the first is not [equals] to the second. *)
Lemma replace_twice_differs :
  let '(r1, c1) := replace lam_y_x_y_z2 (Variable' "x") (ind "y") Counter.new in
  let '(r2, c2) := replace lam_y_x_y_z2 (Variable' "x") (ind "y") c1 in
  r1 = lam "z1" (app (ind "y") (app (var "z1") (ind "z2"))) ∧
  r2 = lam "z2" (app (ind "y") (app (var "z2") (ind "z2"))) ∧
  r1 ≠ r2 ∧
  (equals r1 r2 c2).1 = false.
Proof. vm_compute. repeat split. discriminate. Qed.

Lemma replace_counter_mono self v e c :
  Counter._value c ≤ Counter._value (replace self v e c).2.
Proof.
  revert v e c. induction self as [self IH] using Expression_height_ind.
  intros v e c.
  destruct self as [u|u|k|o|cls u term|first second].
  - by rewrite replace_VariableExpression.
  - by rewrite replace_IndVariableExpression.
  - done.
  - done.
  - rewrite replace_VariableBinderExpression.
    destruct (Variable_equals u v); [done|].
    destruct (bool_decide (u ∈ free e)).
    + rewrite fresh_z_eq.
      set (newvar := Variable' _). set (c1 := Counter.mk _).
      pose proof (IH term ltac:(simpl; lia) u (VariableExpression newvar) c1) as H1.
      pose proof (replace_rename_height term u newvar c1) as Hh.
      destruct (replace term u (VariableExpression newvar) c1) as [term1 c2].
      simpl in Hh, H1.
      pose proof (IH term1 ltac:(simpl; lia) v e c2) as H2.
      destruct (replace term1 v e c2) as [term2 c3]. simpl in *. lia.
    + pose proof (IH term ltac:(simpl; lia) v e c) as H1.
      by destruct (replace term v e c) as [term' c1].
  - rewrite replace_ApplicationExpression.
    pose proof (IH first ltac:(simpl; lia) v e c) as H1.
    destruct (replace first v e c) as [first' c1].
    pose proof (IH second ltac:(simpl; lia) v e c1) as H2.
    destruct (replace second v e c1) as [second' c2]. simpl in *. lia.
Qed.

Lemma replace_no_capture self v e c :
  binders self ## free e →
  replace self v e c = ((replace self v e Counter.new).1, c).
Proof.
  revert c.
  induction self as [u|u|k|o|cls u term IH|first IH1 second IH2]; intros c Hd.
  - by rewrite !replace_VariableExpression.
  - by rewrite !replace_IndVariableExpression.
  - done.
  - done.
  - rewrite !replace_VariableBinderExpression.
    destruct (Variable_equals u v); [done|].
    simpl in Hd. rewrite bool_decide_false by set_solver.
    rewrite (IH c) by set_solver.
    by destruct (replace term v e Counter.new) as [term' c1].
  - rewrite !replace_ApplicationExpression. simpl in Hd.
    rewrite (IH1 c) by set_solver.
    rewrite (IH1 Counter.new) by set_solver.
    destruct (replace first v e Counter.new) as [first' c1]; simpl.
    rewrite (IH2 c), (IH2 Counter.new) by set_solver.
    by destruct (replace second v e Counter.new) as [second' c2].
Qed.

(** C7, as the code has it: [replace] draws its fresh names from the
    class-level counter, which is not a parameter of the call; the result
    is a function of the arguments together with the value of that counter.
    A call never moves the counter backwards, and when no binder of the
    term binds a variable that is free in the expression substituted in,
    the call leaves the counter as it was and returns the same expression
    from every counter value. *)
Theorem replace_deterministic_given_counter :
  (∀ (t : Expression) (v : variable) (e : Expression) (c : Counter.t),
     Counter._value c ≤ Counter._value (replace t v e c).2) ∧
  (∀ (t : Expression) (v : variable) (e : Expression) (c c' : Counter.t),
     binders t ## free e →
     (replace t v e c).2 = c ∧
     (replace t v e c).1 = (replace t v e c').1).
Proof.
  split.
  - intros. apply replace_counter_mono.
  - intros t v e c c' Hd.
    rewrite (replace_no_capture t v e c Hd), (replace_no_capture t v e c' Hd). done.
Qed.

Lemma replace_deterministic_given_counter_witness :
  binders lam_y_xy ## free (var "a") ∧
  (replace lam_y_xy (Variable' "x") (var "a") (Counter.mk 3)).2 = Counter.mk 3 ∧
  (replace lam_y_xy (Variable' "x") (var "a") (Counter.mk 3)).1 =
  (replace lam_y_xy (Variable' "x") (var "a") (Counter.mk 7)).1.
Proof.
  assert (Hd : binders lam_y_xy ## free (var "a"))
    by (apply (bool_decide_unpack _); vm_compute; exact I).
  split; [exact Hd|].
  exact (proj2 replace_deterministic_given_counter lam_y_xy (Variable' "x") (var "a")
           (Counter.mk 3) (Counter.mk 7) Hd).
Defined.

End HiddenCounter.

(** ** Parse errors *)

Section ParseErrors.

(** [Parser("\\x")]: the token after [x] is looked for in an empty buffer, and
    the parse stops on "end of stream", not on an unexpected token. *)
Lemma parse_lambda_x_is_end_of_stream :
  Parser.parse_fuel 2 [] "\x" = Raise (Error "end of stream") ∧
  ∀ tok, Parser.parse_fuel 2 [] "\x" ≠ Raise (Parser.unexpected_token tok).
Proof. split; [reflexivity|]. intros tok. vm_compute. discriminate. Qed.

(** C6, as the code has it: parsing ["\\x"] fails with "end of stream" (after
    the variable [x] the look-ahead for more variables finds the buffer
    empty), and so does parsing [""].  The unexpected-token error is what a
    binder raises when the token that follows its variables is not ["."], as
    in ["\\x )"].  An exception ends the parse: no expression is returned. *)
Theorem parse_failures :
  (∀ fuel constants,
     Parser.parse_fuel (S (S fuel)) constants "\x" = Raise (Error "end of stream")) ∧
  (∀ fuel constants,
     Parser.parse_fuel (S fuel) constants "" = Raise (Error "end of stream")) ∧
  (∀ fuel,
     Parser.parse_fuel (S (S fuel)) [] "\x )" = Raise (Parser.unexpected_token ")")) ∧
  (∀ fuel constants buffer binder b0 v b1 vars b2 tok b3,
     Parser.token true buffer = Return binder b0 →
     binder ∈ [Parser.LAMBDA; Parser.SOME; Parser.ALL] →
     Parser.token true b0 = Return v b1 →
     Parser.more_vars fuel constants [v] b1 = Return vars b2 →
     Parser.token true b2 = Return tok b3 →
     tok ≠ Parser.DOT →
     Parser.__next__ (S fuel) constants buffer = Raise (Parser.unexpected_token tok)).
Proof.
  split; [|split; [|split]].
  - intros fuel constants. reflexivity.
  - intros fuel constants. reflexivity.
  - intros fuel. reflexivity.
  - intros fuel constants buffer binder b0 v b1 vars b2 tok b3 H0 Hb H1 H2 H3 Hne.
    cbn [Parser.__next__]. unfold mbind, M_bind at 1. rewrite H0.
    rewrite bool_decide_true by done.
    unfold mbind, M_bind at 1. rewrite H1.
    unfold M_bind at 1. rewrite H2.
    unfold M_bind at 1. rewrite H3.
    by rewrite bool_decide_true by done.
Qed.

Lemma parse_failures_witness :
  Parser.__next__ 2 [] " \ x ( " = Raise (Parser.unexpected_token "(").
Proof.
  apply (proj2 (proj2 (proj2 parse_failures)) 1 [] " \ x ( " "\" "x ( " "x" "( " ["x"] "( " "(" "").
  - reflexivity.
  - vm_compute. left.
  - reflexivity.
  - reflexivity.
  - reflexivity.
  - discriminate.
Defined.

End ParseErrors.

(** ** The operator swap of applications *)

Section OperatorSwap.

Import Terms.

(** C8: in a parenthesised application, when the second sub-expression read
    is an [Operator], operator and first operand change places, once; the
    remaining sub-expressions are folded on from the left as they come, so an
    operator further down the chain stays where it is.  [(a and b)] is read as
    [((and a) b)], and [(a b and c)] as [(((a b) and) c)]. *)
Theorem parse_application_swaps_once :
  (∀ fuel constants buffer b0 first b1 second b2 exps b3 b4,
     Parser.token true buffer = Return Parser.OPEN b0 →
     Parser.__next__ fuel constants b0 = Return first b1 →
     Parser.__next__ fuel constants b1 = Return second b2 →
     Parser.more_exps fuel (Parser.__next__ fuel constants) [] b2 = Return exps b3 →
     Parser.token true b3 = Return Parser.CLOSE b4 →
     Parser.__next__ (S fuel) constants buffer =
     Return (foldl ApplicationExpression
               (if is_Operator second then ApplicationExpression second first
                else ApplicationExpression first second) exps) b4) ∧
  Parser.parse_fuel 5 [] "(a and b)" =
    Return (app (app (Operator "and") (var "a")) (var "b")) "" ∧
  Parser.parse_fuel 5 [] "(a b and c)" =
    Return (app (app (app (var "a") (var "b")) (Operator "and")) (var "c")) "" ∧
  Parser.parse_fuel 7 [] "(a and b or c)" =
    Return (app (app (app (app (Operator "and") (var "a")) (var "b")) (Operator "or"))
              (var "c")) "".
Proof.
  split; [|by vm_compute].
  intros fuel constants buffer b0 first b1 second b2 exps b3 b4 H0 H1 H2 H3 H4.
  cbn [Parser.__next__]. unfold mbind, M_bind at 1. rewrite H0.
  change (bool_decide (Parser.OPEN ∈ [Parser.LAMBDA; Parser.SOME; Parser.ALL]))
    with false. cbv iota.
  rewrite bool_decide_true by done.
  unfold M_bind at 1. rewrite H1.
  unfold M_bind at 1. rewrite H2.
  unfold M_bind at 1. rewrite H3.
  unfold M_bind at 1. rewrite H4.
  by rewrite bool_decide_true by done.
Qed.

Lemma parse_application_swaps_once_witness :
  Parser.__next__ 3 [] " ( a and b ) " =
  Return (app (app (Operator "and") (var "a")) (var "b")) "".
Proof.
  apply (proj1 parse_application_swaps_once 2 [] " ( a and b ) "
           "a and b ) " (var "a") "and b ) " (Operator "and") "b ) " [var "b"] ") " "");
    reflexivity.
Defined.

End OperatorSwap.

(** ** Beta-reduction *)

Section Simplify.

Import Terms.

Lemma simplify_fuel_mono n m self c r :
  simplify n self c = Some r → n ≤ m → simplify m self c = Some r.
Proof.
  revert m self c r.
  induction n as [|n IH]; intros m self c r H Hle; [discriminate|].
  destruct m as [|m]; [lia|].
  assert (Hnm : n ≤ m) by lia.
  destruct self as [w|w|k|o|cls w term|first second]; simpl in *; try exact H.
  - destruct (simplify n term c) as [[term1 c1]|] eqn:E1; [|simpl in H; discriminate H].
    by rewrite (IH _ _ _ _ E1 Hnm).
  - destruct (simplify n first c) as [[first1 c1]|] eqn:E1; [|simpl in H; discriminate H].
    rewrite (IH _ _ _ _ E1 Hnm). simpl in *.
    destruct (simplify n second c1) as [[second1 c2]|] eqn:E2; [|simpl in H; discriminate H].
    rewrite (IH _ _ _ _ E2 Hnm). simpl in *.
    destruct first1 as [| | | |[] variable term|]; try exact H.
    destruct (replace term variable second1 c2) as [r' c3].
    by apply IH.
Qed.

Example simplify_succ_zero_10 c :
  simplify 10 (app succ zero) c = Some (one, c).
Proof. vm_compute. reflexivity. Qed.

Example simplify_succ_one_10 c :
  simplify 10 (app succ one) c = Some (two, c).
Proof. vm_compute. reflexivity. Qed.

Lemma equals_refl_untag self other c :
  untag self = untag other → equals self other c = (true, c).
Proof.
  revert other c.
  induction self as [u|u|k|o|cls u term IH|first IH1 second IH2];
    intros other c; destruct other as [w|w|k'|o'|cls' w term'|first' second'];
    simpl; intros [=]; subst;
    rewrite ?Variable_equals_refl, ?String.eqb_refl; try reflexivity.
  - unfold Constant_equals. by rewrite String.eqb_refl.
  - rewrite bool_decide_true by done. by apply IH.
  - rewrite (IH1 first') by done. by apply IH2.
Qed.

(** C3: with the Church numerals of the test-suite, [simplify] of
    [(succ zero)] returns a term [equals] to [one] and [simplify] of
    [(succ one)] a term [equals] to [two], whatever fuel above ten the model
    is given and whatever the counter.  On an application, [simplify]
    simplifies [first], then [second], and when the simplified [first] is a
    [LambdaExpression], the result is [simplify] of its body with its
    variable replaced by the simplified [second]. *)
Theorem simplify_beta_reduces :
  (∀ fuel c, ∃ r,
     simplify (10 + fuel) (app succ zero) c = Some (r, c) ∧
     equals r one c = (true, c) ∧ equals one r c = (true, c)) ∧
  (∀ fuel c, ∃ r,
     simplify (10 + fuel) (app succ one) c = Some (r, c) ∧
     equals r two c = (true, c) ∧ equals two r c = (true, c)) ∧
  (∀ fuel first second c variable term c1 second' c2,
     simplify fuel first c =
       Some (VariableBinderExpression LambdaExpression variable term, c1) →
     simplify fuel second c1 = Some (second', c2) →
     simplify (S fuel) (ApplicationExpression first second) c =
     let '(r, c3) := replace term variable second' c2 in simplify fuel r c3).
Proof.
  split; [|split].
  - intros fuel c. exists one. split.
    + eapply simplify_fuel_mono; [apply simplify_succ_zero_10 | lia].
    + split; by apply equals_refl_untag.
  - intros fuel c. exists two. split.
    + eapply simplify_fuel_mono; [apply simplify_succ_one_10 | lia].
    + split; by apply equals_refl_untag.
  - intros fuel first second c variable term c1 second' c2 H1 H2.
    simpl. rewrite H1. simpl. rewrite H2. reflexivity.
Qed.

Lemma simplify_beta_reduces_witness :
  simplify 3 (app (lam "x" (ind "x")) (var "a")) Counter.new =
  Some (var "a", Counter.new).
Proof.
  apply (proj2 (proj2 simplify_beta_reduces) 2 (lam "x" (ind "x")) (var "a")
           Counter.new (Variable' "x") (ind "x") Counter.new (var "a") Counter.new);
    reflexivity.
Defined.

End Simplify.

(** ** Fuel of [_skolemise] *)

Section SkolemiseFuel.

Lemma _skolemise_fuel_mono n m self st r :
  _skolemise_fuel n self st = Some r → n ≤ m → _skolemise_fuel m self st = Some r.
Proof.
  revert m self st r.
  induction n as [|n IH]; intros m self st r H Hle; [discriminate|].
  destruct m as [|m]; [lia|].
  assert (Hnm : n ≤ m) by lia.
  destruct self as [w|w|k|o|cls w term|first second]; simpl in *; try exact H.
  - destruct cls.
    + destruct (_skolemise_fuel n term _) as [[term1 st1]|] eqn:E1;
        [|simpl in H; discriminate H].
      by rewrite (IH _ _ _ _ E1 Hnm).
    + destruct (bool_decide (w ∈ bound_vars st)).
      * destruct (fresh_s (counter st)) as [var counter1].
        destruct (replace term w (VariableExpression var) (_counter st)) as [term' zc].
        by apply IH.
      * by apply IH.
    + destruct (_skolemise_fuel n term _) as [[term1 st1]|] eqn:E1;
        [|simpl in H; discriminate H].
      by rewrite (IH _ _ _ _ E1 Hnm).
  - destruct (_skolemise_fuel n first st) as [[first1 st1]|] eqn:E1;
      [|simpl in H; discriminate H].
    rewrite (IH _ _ _ _ E1 Hnm). simpl in *.
    destruct (_skolemise_fuel n second st1) as [[second1 st2]|] eqn:E2;
      [|simpl in H; discriminate H].
    by rewrite (IH _ _ _ _ E2 Hnm).
Qed.

(** Fuel above the height of the term is enough: [_skolemise] always
    returns. *)
Lemma _skolemise_fuel_enough n self st :
  height self < n → is_Some (_skolemise_fuel n self st).
Proof.
  revert self st.
  induction n as [|n IH]; intros self st Hh; [lia|].
  destruct self as [u|u|k|o|cls u term|first second]; simpl in *; eauto.
  - destruct cls.
    + destruct (IH term {| bound_vars := {[u]} ∪ bound_vars st; counter := counter st;
                           _counter := _counter st |}) as [[term1 st1] E1]; [lia|].
      rewrite E1; simpl; eauto.
    + destruct (bool_decide (u ∈ bound_vars st)).
      * destruct (fresh_s (counter st)) as [var counter1].
        pose proof (replace_rename_height term u var (_counter st)) as Hh'.
        destruct (replace term u (VariableExpression var) (_counter st)) as [term' zc].
        apply IH. simpl in Hh'. lia.
      * apply IH. lia.
    + destruct (IH term {| bound_vars := {[u]} ∪ bound_vars st; counter := counter st;
                           _counter := _counter st |}) as [[term1 st1] E1]; [lia|].
      rewrite E1; simpl; eauto.
  - destruct (IH first st) as [[first1 st1] E1]; [lia|].
    rewrite E1; simpl.
    destruct (IH second st1) as [[second1 st2] E2]; [lia|].
    rewrite E2; simpl. eauto.
Qed.

Lemma _skolemise_fuel_total n self st :
  height self < n → _skolemise_fuel n self st = Some (_skolemise self st).
Proof.
  intros Hh. unfold _skolemise.
  destruct (_skolemise_fuel_enough (S (height self)) self st) as [r E]; [lia|].
  rewrite E; simpl. eapply _skolemise_fuel_mono; [exact E | lia].
Qed.

(** The equations of [_skolemise]. *)

Lemma _skolemise_leaf self st :
  height self = 0 → _skolemise self st = (self, st).
Proof. by destruct self. Qed.

Lemma _skolemise_ApplicationExpression first second st :
  _skolemise (ApplicationExpression first second) st =
  let '(first', st1) := _skolemise first st in
  let '(second', st2) := _skolemise second st1 in
  (ApplicationExpression first' second', st2).
Proof.
  assert (Hf : height first < height (ApplicationExpression first second))
    by (simpl; lia).
  assert (Hs : height second < height (ApplicationExpression first second))
    by (simpl; lia).
  unfold _skolemise at 1.
  revert Hf Hs. generalize (height (ApplicationExpression first second)) as n.
  intros n Hf Hs. simpl.
  rewrite (_skolemise_fuel_total _ first) by done.
  destruct (_skolemise first st) as [first' st1]; simpl.
  rewrite (_skolemise_fuel_total _ second) by done.
  by destruct (_skolemise second st1) as [second' st2].
Qed.

Lemma _skolemise_SomeExpression v term st :
  _skolemise (VariableBinderExpression SomeExpression v term) st =
  if bool_decide (v ∈ bound_vars st) then
    let '(var, counter1) := fresh_s (counter st) in
    let '(term', zc) := replace term v (VariableExpression var) (_counter st) in
    _skolemise term'
      {| bound_vars := {[ var ]} ∪ bound_vars st; counter := counter1; _counter := zc |}
  else
    _skolemise term
      {| bound_vars := {[ v ]} ∪ bound_vars st;
         counter := counter st; _counter := _counter st |}.
Proof.
  assert (Hn : height term < height (VariableBinderExpression SomeExpression v term))
    by (simpl; lia).
  unfold _skolemise at 1.
  revert Hn. generalize (height (VariableBinderExpression SomeExpression v term)) as n.
  intros n Hn. simpl.
  destruct (bool_decide (v ∈ bound_vars st)).
  - destruct (fresh_s (counter st)) as [var counter1].
    pose proof (replace_rename_height term v var (_counter st)) as Hh.
    destruct (replace term v (VariableExpression var) (_counter st)) as [term' zc].
    simpl in Hh. by rewrite _skolemise_fuel_total by lia.
  - by rewrite _skolemise_fuel_total by lia.
Qed.

Lemma _skolemise_Lambda_All cls v term st :
  cls ≠ SomeExpression →
  _skolemise (VariableBinderExpression cls v term) st =
  let '(term', st') :=
    _skolemise term {| bound_vars := {[ v ]} ∪ bound_vars st;
                       counter := counter st; _counter := _counter st |} in
  (VariableBinderExpression cls v term',
   {| bound_vars := bound_vars st; counter := counter st'; _counter := _counter st' |}).
Proof.
  intros Hcls.
  assert (Hn : height term < height (VariableBinderExpression cls v term))
    by (simpl; lia).
  unfold _skolemise at 1.
  revert Hn. generalize (height (VariableBinderExpression cls v term)) as n.
  intros n Hn. simpl.
  destruct cls; [|done|]; rewrite _skolemise_fuel_total by done;
    by destruct (_skolemise term _) as [term' st'].
Qed.

End SkolemiseFuel.

(** ** Skolemisation *)

Section Skolemise.

Import Terms.

(** [(man x)], [(woman x)] and [(loves x y)] as the parser reads them *)
Example parse_some_x_man_x :
  Parser.parse_fuel 5 [] "some x.(man x)" =
  Return (some "x" (app (var "man") (ind "x"))) "".
Proof. vm_compute. reflexivity. Qed.

Example parse_loves_x_y :
  Parser.parse_fuel 5 [] "(loves x y)" =
  Return (app (app (var "loves") (ind "x")) (ind "y")) "".
Proof. vm_compute. reflexivity. Qed.

(** No node of the result of [_skolemise] is a [SomeExpression]. *)
Lemma _skolemise_no_SomeExpression self st :
  Forall (λ e, is_SomeExpression e = false) (subterms (_skolemise self st).1).
Proof.
  revert st. induction self as [self IH] using Expression_height_ind.
  intros st.
  destruct self as [u|u|k|o|cls u term|first second];
    try (rewrite _skolemise_leaf by done; simpl; by repeat constructor).
  - destruct (decide (cls = SomeExpression)) as [->|Hcls].
    + rewrite _skolemise_SomeExpression.
      destruct (bool_decide (u ∈ bound_vars st)).
      * destruct (fresh_s (counter st)) as [var counter1].
        pose proof (replace_rename_height term u var (_counter st)) as Hh.
        destruct (replace term u (VariableExpression var) (_counter st)) as [term' zc].
        simpl in Hh. apply IH. simpl. lia.
      * apply IH. simpl. lia.
    + rewrite _skolemise_Lambda_All by done.
      pose proof (IH term ltac:(simpl; lia)
                    {| bound_vars := {[u]} ∪ bound_vars st; counter := counter st;
                       _counter := _counter st |}) as H.
      destruct (_skolemise term _) as [term' st']. simpl in *.
      apply Forall_app. split; [done|].
      constructor; [by destruct cls|constructor].
  - rewrite _skolemise_ApplicationExpression.
    pose proof (IH first ltac:(simpl; lia) st) as H1.
    destruct (_skolemise first st) as [first' st1].
    pose proof (IH second ltac:(simpl; lia) st1) as H2.
    destruct (_skolemise second st1) as [second' st2]. simpl in *.
    rewrite !Forall_app. repeat split; try done. by repeat constructor.
Qed.

(** [bound_vars] only grows. *)
Lemma _skolemise_bound_vars_mono self st :
  bound_vars st ⊆ bound_vars (_skolemise self st).2.
Proof.
  revert st. induction self as [self IH] using Expression_height_ind.
  intros st.
  destruct self as [u|u|k|o|cls u term|first second];
    try (by rewrite _skolemise_leaf by done).
  - destruct (decide (cls = SomeExpression)) as [->|Hcls].
    + rewrite _skolemise_SomeExpression.
      destruct (bool_decide (u ∈ bound_vars st)).
      * destruct (fresh_s (counter st)) as [var counter1].
        pose proof (replace_rename_height term u var (_counter st)) as Hh.
        destruct (replace term u (VariableExpression var) (_counter st)) as [term' zc].
        simpl in Hh.
        etrans; [|apply IH; simpl; lia]. simpl. set_solver.
      * etrans; [|apply IH; simpl; lia]. simpl. set_solver.
    + rewrite _skolemise_Lambda_All by done.
      by destruct (_skolemise term _) as [term' st'].
  - rewrite _skolemise_ApplicationExpression.
    pose proof (IH first ltac:(simpl; lia) st) as H1.
    destruct (_skolemise first st) as [first' st1].
    pose proof (IH second ltac:(simpl; lia) st1) as H2.
    destruct (_skolemise second st1) as [second' st2]. simpl in *.
    set_solver.
Qed.

(** C10: an existential adds its variable (the fresh one when it clashes) to
    the very [bound_vars] it was handed, so the caller sees it afterwards,
    whereas a lambda or universal binder leaves the set of its caller as it
    was.  Hence in an application of two existentials over the same variable
    [x], Skolemised from a set without [x], the first operand keeps [x] and the
    second, which finds [x] in the set, has it replaced by a fresh [_s<N>]
    variable, although neither existential encloses the other:
    [((some x.(man x)) (some x.(woman x)))] becomes [((man x) (woman _s1))]. *)
Theorem skolemise_shares_bound_vars :
  (∀ v term st,
     let var := if bool_decide (v ∈ bound_vars st) then (fresh_s (counter st)).1 else v in
     {[ var ]} ∪ bound_vars st ⊆
       bound_vars (_skolemise (VariableBinderExpression SomeExpression v term) st).2) ∧
  (∀ cls v term st,
     cls ≠ SomeExpression →
     bound_vars (_skolemise (VariableBinderExpression cls v term) st).2 = bound_vars st) ∧
  (∀ x P Q st,
     x ∉ bound_vars st →
     _skolemise (ApplicationExpression (VariableBinderExpression SomeExpression x P)
                                       (VariableBinderExpression SomeExpression x Q)) st =
     let '(P', st1) :=
       _skolemise P {| bound_vars := {[ x ]} ∪ bound_vars st;
                       counter := counter st; _counter := _counter st |} in
     let '(var, counter1) := fresh_s (counter st1) in
     let '(Q1, zc) := replace Q x (VariableExpression var) (_counter st1) in
     let '(Q', st2) :=
       _skolemise Q1 {| bound_vars := {[ var ]} ∪ bound_vars st1;
                        counter := counter1; _counter := zc |} in
     (ApplicationExpression P' Q', st2)) ∧
  (∀ zc, skolemise (app (some "x" (app (var "man") (ind "x")))
                        (some "x" (app (var "woman") (ind "x")))) zc =
         (app (app (var "man") (ind "x")) (app (var "woman") (var "_s1")), zc)).
Proof.
  split; [|split; [|split]].
  - intros v term st var. subst var.
    rewrite _skolemise_SomeExpression.
    destruct (bool_decide (v ∈ bound_vars st)).
    + destruct (fresh_s (counter st)) as [var counter1]. simpl.
      destruct (replace term v (VariableExpression var) (_counter st)) as [term' zc].
      etrans; [|apply _skolemise_bound_vars_mono]. done.
    + etrans; [|apply _skolemise_bound_vars_mono]. done.
  - intros cls v term st Hcls.
    rewrite _skolemise_Lambda_All by done.
    by destruct (_skolemise term _) as [term' st'].
  - intros x P Q st Hx.
    rewrite _skolemise_ApplicationExpression, _skolemise_SomeExpression.
    rewrite bool_decide_false by done.
    pose proof (_skolemise_bound_vars_mono P
                  {| bound_vars := {[ x ]} ∪ bound_vars st;
                     counter := counter st; _counter := _counter st |}) as Hmono.
    destruct (_skolemise P _) as [P' st1]. simpl in Hmono.
    rewrite _skolemise_SomeExpression.
    rewrite bool_decide_true by set_solver.
    destruct (fresh_s (counter st1)) as [var counter1].
    destruct (replace Q x (VariableExpression var) (_counter st1)) as [Q1 zc].
    by destruct (_skolemise Q1 _) as [Q' st2].
  - intros zc. vm_compute. reflexivity.
Qed.

Lemma skolemise_shares_bound_vars_witness :
  (Variable' "x" ∉ bound_vars {| bound_vars := ∅; counter := Counter.new;
                                   _counter := Counter.new |}) ∧
  _skolemise (app (some "x" (ind "x")) (some "x" (ind "x")))
    {| bound_vars := ∅; counter := Counter.new; _counter := Counter.new |} =
  (app (ind "x") (var "_s1"),
   {| bound_vars := {[ Variable' "_s1" ]} ∪ ({[ Variable' "x" ]} ∪ ∅);
      counter := Counter.mk 1; _counter := Counter.new |}).
Proof.
  assert (Hx : Variable' "x" ∉ bound_vars {| bound_vars := ∅; counter := Counter.new;
                                             _counter := Counter.new |})
    by apply not_elem_of_empty.
  split; [exact Hx|].
  etrans.
  - exact (proj1 (proj2 (proj2 skolemise_shares_bound_vars)) (Variable' "x")
             (ind "x") (ind "x")
             {| bound_vars := ∅; counter := Counter.new; _counter := Counter.new |} Hx).
  - vm_compute. reflexivity.
Defined.

End Skolemise.

(** ** Round trip: where it fails *)

Section RoundTripFails.

Import Terms.

(** [(a b and)] is read as [((a b) and)]; rendered, it is ["((a b) and)"],
    which is read back with the operator moved to the front: [(and (a b))].
    And a constant, rendered and read back by [Parser(str(e))], which has no
    declared constants, comes back as a variable. *)
Lemma roundtrip_fails :
  let e := app (app (var "a") (var "b")) (Operator "and") in
  let e' := app (Operator "and") (app (var "a") (var "b")) in
  Parser.parse_fuel 5 [] "(a b and)" = Return e "" ∧
  str e = "((a b) and)" ∧
  Parser.parse_fuel 5 [] (str e) = Return e' "" ∧
  equals e e' Counter.new = (false, Counter.new) ∧
  equals e' e Counter.new = (false, Counter.new) ∧
  Parser.parse_fuel 5 [] (str (const "mia")) = Return (var "mia") "" ∧
  equals (const "mia") (var "mia") Counter.new = (false, Counter.new) ∧
  equals (var "mia") (const "mia") Counter.new = (false, Counter.new).
Proof. vm_compute. repeat split. Qed.

End RoundTripFails.

(** ** Strings, [process] and [token] *)

Section Strings.

Lemma string_app_cons x (a b : string) : String x a +:+ b = String x (a +:+ b).
Proof. reflexivity. Qed.

Lemma string_app_nil_l (b : string) : "" +:+ b = b.
Proof. reflexivity. Qed.

Lemma string_app_assoc (a b c : string) : (a +:+ b) +:+ c = a +:+ (b +:+ c).
Proof.
  induction a as [|x a IH]; [done|]. rewrite !string_app_cons. by rewrite IH.
Qed.

Lemma string_app_nil_r (a : string) : a +:+ "" = a.
Proof.
  induction a as [|x a IH]; [done|]. rewrite string_app_cons. by rewrite IH.
Qed.

Lemma string_length_app (a b : string) :
  String.length (a +:+ b) = String.length a + String.length b.
Proof.
  induction a as [|x a IH]; [done|]. rewrite string_app_cons. simpl. by rewrite IH.
Qed.

Lemma substring_app_l (a b : string) :
  String.substring 0 (String.length a) (a +:+ b) = a.
Proof.
  induction a as [|x a IH]; [by destruct b|].
  rewrite string_app_cons. simpl. by rewrite IH.
Qed.

(** [("(" + X + ")")[1:-1]] is [X]. *)
Lemma slice_1_m1_parens (X : string) : slice_1_m1 ("(" +:+ X +:+ ")") = X.
Proof.
  unfold slice_1_m1. rewrite string_app_cons, string_app_nil_l.
  cbn [String.length]. rewrite string_length_app.
  replace (S (String.length X + String.length ")") - 2) with (String.length X)
    by (simpl; lia).
  cbn [String.substring]. apply substring_app_l.
Qed.

Lemma str_replace_app old new (a b : string) :
  str_replace old new (a +:+ b) = str_replace old new a +:+ str_replace old new b.
Proof.
  induction a as [|x a IH]; [done|]. rewrite string_app_cons. simpl.
  destruct (Ascii.eqb x old); rewrite IH; [|done].
  by rewrite string_app_assoc.
Qed.

Lemma process_app (a b : string) :
  Parser.process (a +:+ b) = Parser.process a +:+ Parser.process b.
Proof. unfold Parser.process. by rewrite !str_replace_app. Qed.

Lemma str_replace_absent old new (s : string) :
  all_chars (λ c, negb (Ascii.eqb c old)) s = true → str_replace old new s = s.
Proof.
  induction s as [|x s IH]; [done|]. simpl.
  destruct (Ascii.eqb x old); simpl; [done|]. intros H. by rewrite IH.
Qed.

Lemma all_chars_impl (f g : ascii → bool) (s : string) :
  (∀ c, f c = true → g c = true) → all_chars f s = true → all_chars g s = true.
Proof.
  intros Hfg. induction s as [|x s IH]; [done|]. simpl.
  rewrite !andb_true_iff. intros [H1 H2]. auto.
Qed.

Lemma clean_char_inv c :
  clean_char c = true →
  Ascii.eqb c " " = false ∧ Ascii.eqb c (ascii_of_nat 9) = false ∧
  Ascii.eqb c (ascii_of_nat 10) = false ∧ Ascii.eqb c "\" = false ∧
  Ascii.eqb c "." = false ∧ Ascii.eqb c "(" = false ∧ Ascii.eqb c ")" = false.
Proof.
  unfold clean_char. rewrite !andb_true_iff, !negb_true_iff. tauto.
Qed.

Lemma process_clean (s : string) :
  all_chars clean_char s = true → Parser.process s = s.
Proof.
  intros H. unfold Parser.process.
  assert (Habs : ∀ old new,
            (∀ c, clean_char c = true → Ascii.eqb c old = false) →
            str_replace old new s = s).
  { intros old new Hold. apply str_replace_absent.
    eapply all_chars_impl; [|exact H]. intros c Hc.
    rewrite negb_true_iff. by apply Hold. }
  rewrite (Habs (ascii_of_nat 9)) by (intros c Hc; apply clean_char_inv in Hc; tauto).
  rewrite (Habs (ascii_of_nat 10)) by (intros c Hc; apply clean_char_inv in Hc; tauto).
  rewrite (Habs "\"%char) by (intros c Hc; apply clean_char_inv in Hc; tauto).
  rewrite (Habs "."%char) by (intros c Hc; apply clean_char_inv in Hc; tauto).
  rewrite (Habs "("%char) by (intros c Hc; apply clean_char_inv in Hc; tauto).
  rewrite (Habs ")"%char) by (intros c Hc; apply clean_char_inv in Hc; tauto).
  done.
Qed.

Lemma clean_nospace (s : string) : clean s = true → nospace s = true.
Proof.
  unfold clean, nospace. rewrite !andb_true_iff. intros [H1 H2]. split; [done|].
  eapply all_chars_impl; [|exact H2]. intros c Hc.
  apply clean_char_inv in Hc. unfold not_space. rewrite negb_true_iff. tauto.
Qed.

Lemma clean_process (s : string) : clean s = true → Parser.process s = s.
Proof.
  unfold clean. rewrite andb_true_iff. intros [_ H]. by apply process_clean.
Qed.

(** [split] on a text without a space, followed by a space or by nothing. *)
Lemma split_space_1_nospace (t b : string) :
  all_chars not_space t = true →
  split_space_1 (t +:+ String " " b) = (t, Some b) ∧ split_space_1 t = (t, None).
Proof.
  induction t as [|x t IH]; [done|]. rewrite string_app_cons. simpl.
  unfold not_space at 1.
  rewrite andb_true_iff, negb_true_iff. intros [Hx Ht].
  rewrite Hx. destruct (IH Ht) as [-> ->]. done.
Qed.

Lemma nospace_first (t : string) :
  nospace t = true → ∃ x r, t = String x r ∧ Ascii.eqb x " " = false.
Proof.
  destruct t as [|x r]; [done|]. unfold nospace. simpl. unfold not_space at 1.
  rewrite andb_true_iff, negb_true_iff. intros [H _]. by exists x, r.
Qed.

Lemma token_loop_nospace (t b : string) :
  nospace t = true →
  Parser.token_loop (t +:+ String " " b) = Some (t, b) ∧
  Parser.token_loop t = Some (t, "").
Proof.
  intros Hns. destruct (nospace_first t Hns) as (x & r & -> & Hx).
  unfold nospace in Hns. apply andb_true_iff in Hns as [_ Ht].
  destruct (split_space_1_nospace (String x r) b Ht) as [H1 H2].
  split.
  - rewrite string_app_cons in *. cbn [Parser.token_loop]. rewrite Hx. by rewrite H1.
  - cbn [Parser.token_loop]. rewrite Hx. by rewrite H2.
Qed.

(** The first token of a buffer, for [token] and for [token(0)]. *)
Lemma tokenizes_token_loop b t l :
  tokenizes b (t :: l) →
  b ≠ "" ∧ ∃ R, Parser.token_loop b = Some (t, R) ∧ tokenizes R l.
Proof.
  intros H. remember (t :: l) as tl eqn:E. revert t l E.
  induction H as [|b l' H IH|t' Ht'|t' b l' Ht' H IH]; intros t l E.
  - discriminate.
  - split; [done|]. destruct (IH t l E) as [_ (R & H1 & H2)]. by exists R.
  - injection E as -> <-. split.
    + intros ->. done.
    + exists "". split; [by apply token_loop_nospace | constructor].
  - injection E as -> ->. split.
    + destruct (nospace_first t Ht') as (x & r & -> & _). done.
    + exists b. split; [by apply token_loop_nospace | done].
Qed.

Lemma tokenizes_token b t l :
  tokenizes b (t :: l) →
  Parser.token false b = Return t b ∧
  ∃ R, Parser.token true b = Return t R ∧ tokenizes R l.
Proof.
  intros H. destruct (tokenizes_token_loop b t l H) as [Hne (R & H1 & H2)].
  unfold Parser.token. rewrite bool_decide_false by done. rewrite H1.
  split; [done|]. by exists R.
Qed.

Lemma tokenizes_space_inv b l : tokenizes (String " " b) l → tokenizes b l.
Proof.
  intros H. inversion H as [|b' l' H' E1 E2|t Ht E1 E2|t b' l' Ht H' E1 E2]; subst.
  - done.
  - apply nospace_first in Ht as (x & r & [= <- <-] & Hx).
    vm_compute in Hx. discriminate Hx.
  - apply nospace_first in Ht as (x & r & -> & Hx).
    rewrite string_app_cons in E1. injection E1 as Ex _. subst x.
    vm_compute in Hx. discriminate Hx.
Qed.

(** Two buffers side by side, the second starting with a space. *)
Lemma tokenizes_app a la b lb :
  tokenizes a la → tokenizes (String " " b) lb →
  tokenizes (a +:+ String " " b) (la ++ lb).
Proof.
  intros Ha Hb. induction Ha as [|a l Ha IH|t Ht|t a l Ht Ha IH].
  - done.
  - rewrite string_app_cons. by constructor.
  - constructor; [done|]. by apply tokenizes_space_inv.
  - rewrite string_app_assoc, string_app_cons. by constructor.
Qed.

Lemma tokenizes_app_nil a la : tokenizes a la → tokenizes (a +:+ " ") la.
Proof.
  intros Ha. rewrite <- (app_nil_r la).
  apply tokenizes_app; [done|]. repeat constructor.
Qed.

End Strings.

(** ** The rendering as a sequence of tokens *)

Section Rendering.

Context (constants : list string).

Lemma parsable_ApplicationExpression first second :
  parsable constants (ApplicationExpression first second) = true →
  parsable constants first = true ∧ parsable constants second = true ∧
  is_Operator second = false.
Proof. simpl. rewrite !andb_true_iff, negb_true_iff. tauto. Qed.

Lemma parsable_VariableBinderExpression cls v term :
  parsable constants (VariableBinderExpression cls v term) = true →
  clean (variable_name v) = true ∧
  Parser.isVariable constants (variable_name v) = true ∧
  parsable constants term = true.
Proof. simpl. unfold var_token. rewrite !andb_true_iff. tauto. Qed.

(** On parsable expressions [__str__] is [strs]. *)
Lemma __str___strs e continuation :
  parsable constants e = true →
  __str__ e continuation = strs (if continuation then Continuation else Top) e.
Proof.
  revert continuation.
  induction e as [u|u|k|o|cls u term IH|first IH1 second IH2]; intros continuation He.
  - by destruct continuation.
  - by destruct continuation.
  - by destruct continuation.
  - by destruct continuation.
  - apply parsable_VariableBinderExpression in He as (_ & _ & Ht).
    simpl. rewrite (IH true Ht), (IH false Ht). simpl.
    by destruct continuation, (same_binder_class cls term).
  - apply parsable_ApplicationExpression in He as (Hf & Hs & Hop).
    simpl. rewrite Hop, andb_true_r, (IH1 false Hf), (IH2 false Hs). simpl.
    destruct first as [| | | | |f1 f2]; simpl;
      rewrite ?slice_1_m1_parens; destruct continuation;
      by rewrite ?string_app_assoc.
Qed.

Lemma process_literal (a b : string) (X : string) :
  Parser.process a = b → Parser.process (a +:+ X) = b +:+ Parser.process X.
Proof. intros <-. apply process_app. Qed.

Lemma OPS_inv o :
  o ∈ Parser.OPS → Parser.process o = o ∧ nospace o = true.
Proof.
  unfold Parser.OPS, Parser.BOOL. rewrite !elem_of_cons, elem_of_nil.
  intros [->|[->|[->|[->|[->|[->|[]]]]]]]; by vm_compute.
Qed.

Lemma tokenizes_keyword cls m b l :
  tokenizes b l →
  tokenizes (Parser.process (match m with Continuation => " " | _ => PREFIX cls end) +:+ b)
    ((match m with Continuation => [] | _ => [keyword cls] end) ++ l).
Proof.
  intros H.
  assert (Hk : tokenizes (Parser.process (PREFIX cls) +:+ b) (keyword cls :: l)).
  { destruct cls.
    - change (Parser.process (PREFIX LambdaExpression) +:+ b)
        with (String " " ("\" +:+ String " " b)).
      constructor. by constructor.
    - change (Parser.process (PREFIX SomeExpression) +:+ b)
        with ("some" +:+ String " " b).
      by constructor.
    - change (Parser.process (PREFIX AllExpression) +:+ b)
        with ("all" +:+ String " " b).
      by constructor. }
  destruct m; try exact Hk.
  change (Parser.process " " +:+ b) with (String " " b). by constructor.
Qed.

(** The processed rendering is the tokens of [toks]. *)
Lemma tokenizes_strs e m :
  parsable constants e = true →
  tokenizes (Parser.process (strs m e)) (toks m e).
Proof.
  revert m.
  induction e as [u|u|k|o|cls u term IH|first IH1 second IH2]; intros m He.
  - simpl in *. unfold var_token in He. apply andb_true_iff in He as [Hc _].
    rewrite clean_process by done. constructor. by apply clean_nospace.
  - simpl in *. unfold var_token in He. apply andb_true_iff in He as [Hc _].
    rewrite clean_process by done. constructor. by apply clean_nospace.
  - simpl in *. rewrite !andb_true_iff in He. destruct He as [[Hc _] _].
    rewrite clean_process by done. constructor. by apply clean_nospace.
  - simpl in *. apply andb_true_iff in He as [Ho _].
    apply bool_decide_eq_true in Ho. apply OPS_inv in Ho as [-> Hn].
    by constructor.
  - apply parsable_VariableBinderExpression in He as (Hc & _ & Ht).
    cbn [strs toks]. rewrite process_app.
    apply tokenizes_keyword.
    rewrite process_app, clean_process by done.
    destruct term as [w|w|k|o|cls' w term'|f s];
      try (cbn [same_binder_class];
           rewrite (process_literal "." " . ") by reflexivity;
           change (" . " +:+ ?X) with (String " " ("." +:+ String " " X));
           constructor; [by apply clean_nospace|];
           constructor; [done|]; by apply IH).
    cbn [same_binder_class]. destruct (bool_decide (cls' = cls)) eqn:Ecls.
    + pose proof (IH Continuation Ht) as H.
      assert (Hsame : same_binder_class cls (VariableBinderExpression cls' w term') = true)
        by done.
      cbn [strs toks] in H |- *.
      rewrite (process_literal " " " ") in H |- * by reflexivity.
      change (" " +:+ ?X) with (String " " X) in H |- *.
      constructor; [by apply clean_nospace|]. by apply tokenizes_space_inv.
    + rewrite (process_literal "." " . ") by reflexivity.
      change (" . " +:+ ?X) with (String " " ("." +:+ String " " X)).
      constructor; [by apply clean_nospace|].
      constructor; [done|]. by apply IH.
  - apply parsable_ApplicationExpression in He as (Hf & Hs & Hop).
    cbn [strs toks].
    set (m' := if is_ApplicationExpression first then Inner else Top).
    assert (Hbody : tokenizes (Parser.process (strs m' first +:+ " " +:+ strs Top second))
                      (toks m' first ++ toks Top second)).
    { rewrite process_app, (process_literal " " " ") by reflexivity.
      change (" " +:+ ?X) with (String " " X).
      apply tokenizes_app; [by apply IH1|]. constructor. by apply IH2. }
    destruct m; try exact Hbody;
      rewrite (process_literal "(" " ( ") by reflexivity;
      rewrite process_app;
      change (Parser.process ")") with (String " " (")" +:+ String " " ""));
      change (" ( " +:+ ?X) with (String " " ("(" +:+ String " " X));
      (constructor; constructor; [done|]);
      (apply tokenizes_app; [done|]); repeat constructor.
Qed.

End Rendering.

(** ** Binder chains and application spines *)

Section ChainsAndSpines.

Context (constants : list string).

Lemma Variable_eta v : Variable' (variable_name v) = v.
Proof. by destruct v. Qed.

Lemma toks_chain cls term :
  (if same_binder_class cls term then toks Continuation term
   else Parser.DOT :: toks Top term) =
  chain_vars cls term ++ Parser.DOT :: toks Top (chain_body cls term).
Proof.
  induction term as [u|u|k|o|cls' u term IH|first IH1 second IH2]; try done.
  cbn [same_binder_class chain_vars chain_body].
  destruct (bool_decide (cls' = cls)) eqn:E; [|done].
  apply bool_decide_eq_true in E as ->.
  cbn [toks]. by rewrite IH.
Qed.

Lemma toks_VariableBinderExpression cls v term :
  toks Top (VariableBinderExpression cls v term) =
  keyword cls :: variable_name v ::
    chain_vars cls term ++ Parser.DOT :: toks Top (chain_body cls term).
Proof. cbn [toks]. by rewrite toks_chain. Qed.

Lemma retag_chain cls term :
  retag term =
  foldr (λ w accum, VariableBinderExpression cls (Variable' w) accum)
    (retag (chain_body cls term)) (chain_vars cls term).
Proof.
  induction term as [u|u|k|o|cls' u term IH|first IH1 second IH2]; try done.
  cbn [chain_vars chain_body].
  destruct (bool_decide (cls' = cls)) eqn:E; [|done].
  apply bool_decide_eq_true in E as ->.
  cbn [retag foldr]. by rewrite Variable_eta, <- IH.
Qed.

Lemma chain_parsable cls term :
  parsable constants term = true →
  Forall (λ w, Parser.isVariable constants w = true) (chain_vars cls term) ∧
  parsable constants (chain_body cls term) = true ∧
  length (chain_vars cls term) + size (chain_body cls term) = size term.
Proof.
  induction term as [u|u|k|o|cls' u term IH|first IH1 second IH2]; intros He;
    try (by repeat split).
  cbn [chain_vars chain_body].
  destruct (bool_decide (cls' = cls)); [|by repeat split].
  apply parsable_VariableBinderExpression in He as (_ & Hv & Ht).
  destruct (IH Ht) as (H1 & H2 & H3).
  repeat split; [by constructor|done|simpl; lia].
Qed.

Lemma toks_spine first second :
  toks Inner (ApplicationExpression first second) =
  toks Top (spine_head first) ++ flat_map (toks Top) (spine_args first ++ [second]).
Proof.
  revert second.
  induction first as [u|u|k|o|cls u term IH|f1 IH1 f2 IH2]; intros second;
    try (cbn; by rewrite app_nil_r).
  cbn [toks is_ApplicationExpression spine_head spine_args] in *.
  rewrite IH1. rewrite !flat_map_app, <- !app_assoc. cbn. by rewrite !app_nil_r.
Qed.

Lemma retag_spine e :
  retag e = foldl ApplicationExpression (retag (spine_head e)) (map retag (spine_args e)).
Proof.
  induction e as [u|u|k|o|cls u term IH|f1 IH1 f2 IH2]; try done.
  cbn [retag spine_head spine_args]. rewrite map_app, foldl_app. cbn.
  by rewrite <- IH1.
Qed.

Lemma size_pos e : 0 < size e.
Proof. destruct e; simpl; lia. Qed.

Lemma spine_parsable e :
  parsable constants e = true →
  parsable constants (spine_head e) = true ∧
  is_ApplicationExpression (spine_head e) = false ∧
  size (spine_head e) ≤ size e ∧
  length (spine_args e) < size e ∧
  Forall (λ a, parsable constants a = true ∧ is_Operator a = false ∧ size a < size e)
    (spine_args e).
Proof.
  induction e as [u|u|k|o|cls u term IH|f1 IH1 f2 IH2]; intros He;
    try (by repeat split; first [done | simpl; lia | constructor]).
  apply parsable_ApplicationExpression in He as (Hf & Hs & Hop).
  destruct (IH1 Hf) as (H1 & H2 & H3 & H4 & H5).
  pose proof (size_pos f2) as Hpos.
  cbn [spine_head spine_args size]. repeat split; try done.
  - lia.
  - rewrite length_app. simpl. lia.
  - apply Forall_app. split.
    + eapply Forall_impl; [exact H5|]. simpl. intros a (? & ? & ?).
      repeat split; try done. lia.
    + repeat constructor; try done. lia.
Qed.

End ChainsAndSpines.

(** ** The parser on the tokens of a rendering *)

Section ParserOnTokens.

Context (constants : list string).

Lemma M_bind_Return {A B} (m : M A) (k : A → M B) b a b' :
  m b = Return a b' → (m ≫= k) b = k a b'.
Proof. intros H. unfold mbind, M_bind. by rewrite H. Qed.

Lemma isVariable_inv n :
  Parser.isVariable constants n = true →
  (n ∉ [Parser.LAMBDA; Parser.SOME; Parser.ALL]) ∧ n ≠ Parser.OPEN ∧
  n ≠ Parser.DOT ∧ n ≠ Parser.CLOSE ∧ (n ∉ constants) ∧ (n ∉ Parser.OPS).
Proof.
  unfold Parser.isVariable. rewrite negb_true_iff, bool_decide_eq_false.
  rewrite !elem_of_app, !elem_of_cons, elem_of_nil. tauto.
Qed.

Lemma isVariable_DOT : Parser.isVariable constants Parser.DOT = false.
Proof.
  unfold Parser.isVariable. rewrite negb_false_iff, bool_decide_eq_true.
  rewrite !elem_of_app, !elem_of_cons. tauto.
Qed.

Lemma more_vars_ok vars :
  Forall (λ w, Parser.isVariable constants w = true) vars →
  ∀ fuel acc b rest,
    length vars < fuel →
    tokenizes b (vars ++ Parser.DOT :: rest) →
    ∃ b', Parser.more_vars fuel constants acc b = Return (acc ++ vars) b' ∧
          tokenizes b' (Parser.DOT :: rest).
Proof.
  induction 1 as [|w vars Hw Hvars IH]; intros fuel acc b rest Hfuel Hb;
    (destruct fuel as [|fuel]; [simpl in Hfuel; lia|]); cbn [Parser.more_vars].
  - destruct (tokenizes_token _ _ _ Hb) as [Hpeek _].
    rewrite (M_bind_Return _ _ _ _ _ Hpeek), isVariable_DOT.
    exists b. by rewrite app_nil_r.
  - destruct (tokenizes_token _ _ _ Hb) as [Hpeek (R & Htok & HR)].
    rewrite (M_bind_Return _ _ _ _ _ Hpeek), Hw.
    rewrite (M_bind_Return _ _ _ _ _ Htok).
    destruct (IH fuel (acc ++ [w]) R rest) as (b' & H1 & H2);
      [simpl in Hfuel; lia|done|].
    exists b'. by rewrite H1, <- app_assoc.
Qed.

Lemma OPS_not_special o :
  o ∈ Parser.OPS →
  (o ∉ [Parser.LAMBDA; Parser.SOME; Parser.ALL]) ∧ o ≠ Parser.OPEN ∧ o ≠ Parser.CLOSE.
Proof.
  unfold Parser.OPS, Parser.BOOL. rewrite !elem_of_cons, !elem_of_nil.
  intros [->|[->|[->|[->|[->|[->|[]]]]]]]; repeat split; try discriminate;
    intros [?|[?|[?|[]]]]; discriminate.
Qed.

Lemma clean_not_special n :
  clean n = true →
  n ≠ Parser.LAMBDA ∧ n ≠ Parser.OPEN ∧ n ≠ Parser.CLOSE ∧ n ≠ Parser.DOT ∧ n ≠ "".
Proof. intros H. repeat split; intros ->; by vm_compute in H. Qed.

(** The rendering of a parsable expression does not start with [")"]. *)
Lemma toks_head e :
  parsable constants e = true →
  ∃ t l, toks Top e = t :: l ∧ t ≠ Parser.CLOSE.
Proof.
  destruct e as [u|u|k|o|cls u term|first second]; simpl; intros He.
  - exists (variable_name u), []. split; [done|].
    unfold var_token in He. apply andb_true_iff in He as [Hc _].
    by destruct (clean_not_special _ Hc) as (? & ? & ? & ? & ?).
  - exists (variable_name u), []. split; [done|].
    unfold var_token in He. apply andb_true_iff in He as [Hc _].
    by destruct (clean_not_special _ Hc) as (? & ? & ? & ? & ?).
  - exists (constant_name k), []. split; [done|].
    rewrite !andb_true_iff in He. destruct He as [[Hc _] _].
    by destruct (clean_not_special _ Hc) as (? & ? & ? & ? & ?).
  - exists o, []. split; [done|].
    apply andb_true_iff in He as [Ho _]. apply bool_decide_eq_true in Ho.
    by destruct (OPS_not_special _ Ho) as (? & ? & ?).
  - eexists _, _. split; [reflexivity|]. by destruct cls.
  - eexists _, _. split; [reflexivity|]. done.
Qed.

Lemma more_exps_ok (next : M Expression) args :
  Forall (λ a, parsable constants a = true ∧
               ∀ b rest, tokenizes b (toks Top a ++ rest) →
                         ∃ R, next b = Return (retag a) R ∧ tokenizes R rest) args →
  ∀ fuel acc b rest,
    length args < fuel →
    tokenizes b (flat_map (toks Top) args ++ Parser.CLOSE :: rest) →
    ∃ b', Parser.more_exps fuel next acc b = Return (acc ++ map retag args) b' ∧
          tokenizes b' (Parser.CLOSE :: rest).
Proof.
  induction 1 as [|a args [Ha Hnext] Hargs IH]; intros fuel acc b rest Hfuel Hb;
    (destruct fuel as [|fuel]; [simpl in Hfuel; lia|]); cbn [Parser.more_exps].
  - destruct (tokenizes_token _ _ _ Hb) as [Hpeek _].
    rewrite (M_bind_Return _ _ _ _ _ Hpeek).
    rewrite bool_decide_false by (intros Hne; by apply Hne).
    exists b. by rewrite app_nil_r.
  - cbn [flat_map] in Hb. rewrite <- app_assoc in Hb.
    destruct (toks_head a Ha) as (t & l & Et & Hne).
    pose proof Hb as Hb'. rewrite Et in Hb'.
    destruct (tokenizes_token _ _ _ Hb') as [Hpeek _].
    rewrite (M_bind_Return _ _ _ _ _ Hpeek).
    rewrite bool_decide_true by done.
    destruct (Hnext b _ Hb) as (R & HR & HtR).
    rewrite (M_bind_Return _ _ _ _ _ HR).
    destruct (IH fuel (acc ++ [retag a]) R rest) as (b' & H1 & H2);
      [simpl in Hfuel; lia|done|].
    exists b'. rewrite H1. cbn [map]. by rewrite <- app_assoc.
Qed.

End ParserOnTokens.

Section RoundTrip.

Context (constants : list string).

Lemma is_indvar_None n : is_indvar n = None → n = "".
Proof.
  destruct n as [|c r]; [done|]. unfold is_indvar.
  by destruct (decide (1 < String.length (String c r))).
Qed.

Lemma __next___variable fuel name b rest :
  var_token constants name = true →
  tokenizes b (name :: rest) →
  ∃ R, Parser.__next__ (S fuel) constants b =
         Return (match is_indvar name with
                 | Some true => IndVariableExpression (Variable' name)
                 | _ => VariableExpression (Variable' name)
                 end) R ∧
       tokenizes R rest.
Proof.
  unfold var_token. rewrite andb_true_iff. intros [Hc Hv] Hb.
  destruct (tokenizes_token _ _ _ Hb) as [_ (R & Htok & HR)].
  destruct (isVariable_inv constants name Hv) as (H1 & H2 & _ & _ & H3 & H4).
  exists R. split; [|done].
  cbn [Parser.__next__]. rewrite (M_bind_Return _ _ _ _ _ Htok).
  rewrite (bool_decide_false _ H1), (bool_decide_false _ H2),
    (bool_decide_false _ H3), (bool_decide_false _ H4).
  destruct (is_indvar name) as [[]|] eqn:E; [done| by rewrite Hv |].
  apply is_indvar_None in E. by destruct (clean_not_special _ Hc) as (? & ? & ? & ? & ?).
Qed.

Lemma factory_keyword cls :
  keyword cls ∈ [Parser.LAMBDA; Parser.SOME; Parser.ALL] ∧
  (if bool_decide (keyword cls = Parser.LAMBDA) then LambdaExpression
   else if bool_decide (keyword cls = Parser.SOME) then SomeExpression
   else AllExpression) = cls.
Proof. destruct cls; split; try done; simpl; set_solver. Qed.

Lemma is_Operator_retag e : is_Operator (retag e) = is_Operator e.
Proof. destruct e; try done; simpl; by destruct (is_indvar _) as [[]|]. Qed.

(** Reading the rendering of [e]: with fuel for every node, the parser
    returns [e], classified its way, and leaves what followed. *)
Lemma __next___on_rendering n :
  ∀ e, size e ≤ n →
    parsable constants e = true →
    ∀ fuel b rest,
      size e ≤ fuel →
      tokenizes b (toks Top e ++ rest) →
      ∃ R, Parser.__next__ fuel constants b = Return (retag e) R ∧ tokenizes R rest.
Proof.
  induction n as [|n IH]; intros e Hn He fuel b rest Hfuel Hb.
  { pose proof (size_pos e). lia. }
  destruct fuel as [|fuel]; [pose proof (size_pos e); lia|].
  destruct e as [u|u|k|o|cls u term|first second].
  - destruct (__next___variable fuel (variable_name u) b rest He Hb) as (R & H1 & H2).
    exists R. split; [|done]. rewrite H1. simpl. by rewrite Variable_eta.
  - destruct (__next___variable fuel (variable_name u) b rest He Hb) as (R & H1 & H2).
    exists R. split; [|done]. rewrite H1. simpl. by rewrite Variable_eta.
  - simpl in He, Hb. rewrite !andb_true_iff, negb_true_iff in He.
    destruct He as [[Hc Hk] Hin].
    apply bool_decide_eq_false in Hk. apply bool_decide_eq_true in Hin.
    destruct (clean_not_special _ Hc) as (_ & Hopen & _).
    destruct (tokenizes_token _ _ _ Hb) as [_ (R & Htok & HR)].
    exists R. split; [|done].
    cbn [Parser.__next__]. rewrite (M_bind_Return _ _ _ _ _ Htok).
    rewrite (bool_decide_false _ Hk), (bool_decide_false _ Hopen),
      (bool_decide_true _ Hin).
    by destruct k.
  - simpl in He, Hb. rewrite !andb_true_iff, negb_true_iff in He.
    destruct He as [Ho Hc].
    apply bool_decide_eq_true in Ho. apply bool_decide_eq_false in Hc.
    destruct (OPS_not_special _ Ho) as (Hk & Hopen & _).
    destruct (tokenizes_token _ _ _ Hb) as [_ (R & Htok & HR)].
    exists R. split; [|done].
    cbn [Parser.__next__]. rewrite (M_bind_Return _ _ _ _ _ Htok).
    by rewrite (bool_decide_false _ Hk), (bool_decide_false _ Hopen),
      (bool_decide_false _ Hc), (bool_decide_true _ Ho).
  - apply parsable_VariableBinderExpression in He as (Hc & Hv & Ht).
    destruct (chain_parsable constants cls term Ht) as (Hvars & Hbody & Hsize).
    rewrite toks_VariableBinderExpression in Hb.
    simpl in Hn, Hfuel.
    cbn [app] in Hb. rewrite <- app_assoc in Hb. cbn [app] in Hb.
    destruct (tokenizes_token _ _ _ Hb) as [_ (b0 & Htok0 & Hb0)].
    destruct (tokenizes_token _ _ _ Hb0) as [_ (b1 & Htok1 & Hb1)].
    destruct (more_vars_ok constants _ Hvars fuel [variable_name u] b1 _
                ltac:(pose proof (size_pos (chain_body cls term)); lia) Hb1)
      as (b2 & Hvars2 & Hb2).
    destruct (tokenizes_token _ _ _ Hb2) as [_ (b3 & Htok3 & Hb3)].
    destruct (IH (chain_body cls term) ltac:(lia) Hbody fuel b3 rest ltac:(lia) Hb3)
      as (R & Hterm & HR).
    exists R. split; [|done].
    destruct (factory_keyword cls) as [Hkw Hfac].
    cbn [Parser.__next__]. rewrite (M_bind_Return _ _ _ _ _ Htok0).
    rewrite (bool_decide_true _ Hkw), Hfac.
    rewrite (M_bind_Return _ _ _ _ _ Htok1).
    rewrite (M_bind_Return _ _ _ _ _ Hvars2).
    rewrite (M_bind_Return _ _ _ _ _ Htok3).
    rewrite bool_decide_false by (intros Hne; by apply Hne).
    rewrite (M_bind_Return _ _ _ _ _ Hterm).
    cbn [retag app foldr]. rewrite Variable_eta.
    by rewrite (retag_chain cls term).
  - pose proof He as He'.
    apply spine_parsable in He' as (Hh & Hnapp & Hhsize & Hlen & Hargs).
    apply parsable_ApplicationExpression in He as (Hf & Hs & Hop).
    change (toks Top (ApplicationExpression first second))
      with (Parser.OPEN :: toks Inner (ApplicationExpression first second) ++ [Parser.CLOSE])
      in Hb.
    rewrite toks_spine in Hb.
    cbn [spine_head spine_args] in *.
    simpl in Hn, Hfuel.
    assert (Hargs' : Forall (λ a, parsable constants a = true ∧ is_Operator a = false ∧
                                  size a ≤ n ∧ size a ≤ fuel)
                       (spine_args first ++ [second])).
    { eapply Forall_impl; [exact Hargs|]. simpl. intros a (? & ? & ?).
      repeat split; try done; lia. }
    pose proof (spine_parsable constants first Hf) as (_ & _ & Hhsize' & _ & _).
    destruct (spine_args first ++ [second]) as [|a1 args] eqn:Eargs.
    { by destruct (spine_args first). }
    apply Forall_cons in Hargs' as [(Ha1 & Hop1 & Hn1 & Hf1) Hrest].
    cbn [flat_map app] in Hb. rewrite <- !app_assoc in Hb. cbn [app] in Hb.
    destruct (tokenizes_token _ _ _ Hb) as [_ (b0 & Htok0 & Hb0)].
    destruct (IH (spine_head first) ltac:(lia) Hh fuel b0 _ ltac:(lia) Hb0)
      as (b1 & Hfirst & Hb1).
    destruct (IH a1 ltac:(lia) Ha1 fuel b1 _ ltac:(lia) Hb1) as (b2 & Hsecond & Hb2).
    destruct (more_exps_ok constants (Parser.__next__ fuel constants) args) with
      (fuel := fuel) (acc := @nil Expression) (b := b2) (rest := rest)
      as (b3 & Hexps & Hb3).
    { eapply Forall_impl; [exact Hrest|]. simpl. intros a (Ha & _ & Han & Haf).
      split; [done|]. intros b' rest' Hb'. by apply (IH a). }
    { simpl in Hlen. lia. }
    { done. }
    destruct (tokenizes_token _ _ _ Hb3) as [_ (R & Htok3 & HR)].
    exists R. split; [|done].
    cbn [Parser.__next__]. rewrite (M_bind_Return _ _ _ _ _ Htok0).
    rewrite bool_decide_false by (rewrite !elem_of_cons, elem_of_nil; by intros [?|[?|[?|[]]]]).
    rewrite bool_decide_true by done.
    rewrite (M_bind_Return _ _ _ _ _ Hfirst).
    rewrite (M_bind_Return _ _ _ _ _ Hsecond).
    rewrite (M_bind_Return _ _ _ _ _ Hexps).
    rewrite (M_bind_Return _ _ _ _ _ Htok3).
    rewrite bool_decide_true by done.
    rewrite is_Operator_retag, Hop1.
    rewrite (retag_spine (ApplicationExpression first second)).
    cbn [spine_head spine_args]. rewrite Eargs. done.
Qed.

Lemma untag_retag e : untag (retag e) = untag e.
Proof.
  induction e as [u|u|k|o|cls u term IH|first IH1 second IH2]; simpl;
    try congruence; by destruct (is_indvar _) as [[]|].
Qed.

(** C5, as the code has it: for every expression [e] built from variables,
    declared constants, operators, binders and applications whose names are
    single tokens of their kind and in which no application has an operator
    as its argument, the parser, given fuel for every node of [e], reads the
    rendering [str(e)] back as [e] with its variables classified anew, and
    that expression is [equals] to [e], in both directions.  With no declared
    constants this is [Parser(str(e))] on the expressions without
    constants. *)
Theorem parse_str_roundtrip (e : Expression) (fuel : nat) (c : Counter.t) :
  parsable constants e = true →
  size e ≤ fuel →
  ∃ e' R,
    Parser.parse_fuel fuel constants (str e) = Return e' R ∧
    e' = retag e ∧
    equals e e' c = (true, c) ∧ equals e' e c = (true, c).
Proof.
  intros He Hfuel.
  pose proof (tokenizes_strs constants e Top He) as Htok.
  rewrite <- (app_nil_r (toks Top e)) in Htok.
  destruct (__next___on_rendering (size e) e ltac:(lia) He fuel _ [] Hfuel Htok)
    as (R & Hparse & _).
  exists (retag e), R. repeat split.
  - unfold Parser.parse_fuel, Parser.new, str.
    by rewrite (__str___strs constants e false He).
  - apply equals_refl_untag. by rewrite untag_retag.
  - apply equals_refl_untag. by rewrite untag_retag.
Qed.

End RoundTrip.

Section RoundTripExamples.

Import Terms.

(** [T] of the demo, [\x y.(x y z)], with its variables as generic
    [VariableExpression]s. *)
Lemma parse_str_roundtrip_witness :
  let T := lam "x" (lam "y" (app (app (var "x") (var "y")) (var "z"))) in
  parsable [] T = true ∧ size T ≤ 7 ∧
  ∃ e' R,
    Parser.parse_fuel 7 [] (str T) = Return e' R ∧
    e' = lam "x" (lam "y" (app (app (ind "x") (ind "y")) (ind "z"))) ∧
    equals T e' Counter.new = (true, Counter.new) ∧
    equals e' T Counter.new = (true, Counter.new).
Proof.
  intros T.
  assert (He : parsable [] T = true) by reflexivity.
  assert (Hs : size T ≤ 7) by (simpl; lia).
  split; [exact He|]. split; [exact Hs|].
  exact (parse_str_roundtrip [] T 7 Counter.new He Hs).
Defined.

End RoundTripExamples.

(** * Further properties of the module *)

Set Warnings "-clear-no-such-hyp".

(** ** Free variables *)

Section FreeVariables.

(** X1: every free variable of an expression is one of its variables. *)
Theorem free_subseteq_variables (e : Expression) : free e ⊆ variables e.
Proof. induction e; simpl; set_solver. Qed.

Lemma replace_free_subseteq (t : Expression) (v : variable) (e : Expression)
    (c : Counter.t) :
  free (replace t v e c).1 ⊆ (free t ∖ {[ v ]}) ∪ free e.
Proof.
  revert v e c. induction t as [t IH] using Expression_height_ind.
  intros v e c.
  destruct t as [u|u|k|o|cls u term|first second].
  - rewrite replace_VariableExpression.
    destruct (Variable_equals u v) eqn:E; simpl; [set_solver|].
    apply Variable_equals_neq in E. set_solver.
  - rewrite replace_IndVariableExpression.
    destruct (Variable_equals u v) eqn:E; simpl; [set_solver|].
    apply Variable_equals_neq in E. set_solver.
  - simpl. set_solver.
  - simpl. set_solver.
  - rewrite replace_VariableBinderExpression.
    destruct (Variable_equals u v) eqn:E.
    { apply Variable_equals_eq in E as ->. simpl. set_solver. }
    apply Variable_equals_neq in E.
    destruct (bool_decide (u ∈ free e)).
    + destruct (fresh_z c) as [newvar c1].
      pose proof (IH term ltac:(simpl; lia) u (VariableExpression newvar) c1) as H1.
      pose proof (replace_rename_height term u newvar c1) as Hh.
      destruct (replace term u (VariableExpression newvar) c1) as [term1 c2].
      simpl in Hh, H1.
      pose proof (IH term1 ltac:(simpl; lia) v e c2) as H2.
      destruct (replace term1 v e c2) as [term2 c3]. simpl in *. set_solver.
    + pose proof (IH term ltac:(simpl; lia) v e c) as H1.
      destruct (replace term v e c) as [term' c1]. simpl in *. set_solver.
  - rewrite replace_ApplicationExpression.
    pose proof (IH first ltac:(simpl; lia) v e c) as H1.
    destruct (replace first v e c) as [first' c1].
    pose proof (IH second ltac:(simpl; lia) v e c1) as H2.
    destruct (replace second v e c1) as [second' c2]. simpl in *. set_solver.
Qed.

(** X2: substitution adds no free variable of its own: the free variables of
    [replace(t, v, e)] are free variables of [t] other than [v], or free
    variables of [e]; whatever the counter, also when binders are renamed. *)
Theorem replace_free (t : Expression) (v : variable) (e : Expression) (c : Counter.t) :
  free (replace t v e c).1 ⊆ (free t ∖ {[ v ]}) ∪ free e.
Proof. apply replace_free_subseteq. Qed.

(** X3: replacing a variable that is not free in the term, by an expression
    none of whose free variables the term binds, returns the term itself and
    leaves the counter alone. *)
Theorem replace_not_free (t : Expression) (v : variable) (e : Expression) (c : Counter.t) :
  v ∉ free t → binders t ## free e → replace t v e c = (t, c).
Proof.
  revert c.
  induction t as [u|u|k|o|cls u term IH|first IH1 second IH2]; intros c Hv Hd;
    simpl in Hv, Hd.
  - rewrite replace_VariableExpression.
    rewrite (proj2 (Variable_equals_neq u v)) by set_solver. done.
  - rewrite replace_IndVariableExpression.
    rewrite (proj2 (Variable_equals_neq u v)) by set_solver. done.
  - done.
  - done.
  - rewrite replace_VariableBinderExpression.
    destruct (Variable_equals u v) eqn:E; [done|].
    apply Variable_equals_neq in E.
    rewrite bool_decide_false by set_solver.
    rewrite IH by set_solver. done.
  - rewrite replace_ApplicationExpression.
    rewrite IH1 by set_solver. rewrite IH2 by set_solver. done.
Qed.

Lemma replace_not_free_witness :
  (Variable' "x" ∉ free Terms.lam_z_yz) ∧
  binders Terms.lam_z_yz ## free (Terms.var "a") ∧
  replace Terms.lam_z_yz (Variable' "x") (Terms.var "a") (Counter.mk 4) =
  (Terms.lam_z_yz, Counter.mk 4).
Proof.
  assert (Hv : Variable' "x" ∉ free Terms.lam_z_yz)
    by (apply (bool_decide_unpack _); vm_compute; exact I).
  assert (Hd : binders Terms.lam_z_yz ## free (Terms.var "a"))
    by (apply (bool_decide_unpack _); vm_compute; exact I).
  split; [exact Hv|]. split; [exact Hd|].
  exact (replace_not_free Terms.lam_z_yz (Variable' "x") (Terms.var "a")
           (Counter.mk 4) Hv Hd).
Defined.

End FreeVariables.

(** ** [equals] as a relation *)

Section EqualsRelation.

Lemma equals_untag_l self other c :
  equals (untag self) other c = equals self other c.
Proof.
  revert other c.
  induction self as [u|u|k|o|cls u term IH|first IH1 second IH2];
    intros other c; destruct other as [w|w|k'|o'|cls' w term'|first' second'];
    simpl; try reflexivity.
  - destruct (bool_decide (cls = cls')); [|done].
    destruct (Variable_equals u w); [apply IH|].
    destruct (replace term' w (VariableExpression u) c) as [relabeled c1].
    apply IH.
  - rewrite IH1. destruct (equals first first' c) as [[] c1]; [apply IH2|done].
Qed.

(** X4: [==] on expressions is reflexive, and it does not see whether a
    variable node is an [IndVariableExpression] or a plain
    [VariableExpression], anywhere in the two expressions: the verdict, and
    the counter left, are those for the expressions with all variable nodes
    made plain. *)
Theorem equals_reflexive_and_class_blind :
  (∀ e c, equals e e c = (true, c)) ∧
  (∀ self other c, equals self other c = equals (untag self) (untag other) c).
Proof.
  split.
  - intros e c. by apply equals_refl_untag.
  - intros self other c. by rewrite equals_untag_l, equals_untag_r.
Qed.

(** X5: [==] is not symmetric, and it accepts expressions that are not
    alpha-equivalent: for distinct variables [x] and [y], [\\y.(y y)] equals
    [\\x.(x y)] (relabelling [x] to [y] in the second body captures nothing
    the test can see), while [\\x.(x y)] does not equal [\\y.(y y)]. *)
Theorem equals_not_symmetric (x y : variable) (c : Counter.t) :
  x ≠ y →
  let yy := VariableBinderExpression LambdaExpression y
              (ApplicationExpression (VariableExpression y) (VariableExpression y)) in
  let xy := VariableBinderExpression LambdaExpression x
              (ApplicationExpression (VariableExpression x) (VariableExpression y)) in
  equals yy xy c = (true, c) ∧ equals xy yy c = (false, c).
Proof.
  intros Hne yy xy. subst yy xy.
  assert (Hxy : Variable_equals x y = false) by by apply Variable_equals_neq.
  assert (Hyx : Variable_equals y x = false) by by apply Variable_equals_neq.
  split; simpl; rewrite ?Hxy, ?Hyx; unfold_replace;
    rewrite ?Variable_equals_refl, ?Hxy, ?Hyx; simpl;
    by rewrite ?Variable_equals_refl, ?Hxy, ?Hyx.
Qed.

Lemma equals_not_symmetric_witness :
  Variable' "x" ≠ Variable' "y" ∧
  equals (Terms.lam "y" (Terms.app (Terms.var "y") (Terms.var "y")))
         (Terms.lam "x" (Terms.app (Terms.var "x") (Terms.var "y"))) Counter.new
    = (true, Counter.new) ∧
  equals (Terms.lam "x" (Terms.app (Terms.var "x") (Terms.var "y")))
         (Terms.lam "y" (Terms.app (Terms.var "y") (Terms.var "y"))) Counter.new
    = (false, Counter.new).
Proof.
  assert (Hne : Variable' "x" ≠ Variable' "y") by discriminate.
  split; [exact Hne|].
  exact (equals_not_symmetric (Variable' "x") (Variable' "y") Counter.new Hne).
Defined.

End EqualsRelation.

(** ** What [simplify] returns *)

Section SimplifyResults.

Lemma simplify_normal_result (fuel : nat) (e r : Expression) (c c' : Counter.t) :
  simplify fuel e c = Some (r, c') → normal r = true.
Proof.
  revert e r c c'. induction fuel as [|fuel IH]; intros e r c c' H; [discriminate|].
  destruct e as [u|u|k|o|cls u term|first second]; simpl in H;
    try (by injection H as <- _).
  - destruct (simplify fuel term c) as [[term1 c1]|] eqn:E1; [|discriminate].
    simpl in H. injection H as <- _. simpl. by eapply IH.
  - destruct (simplify fuel first c) as [[first1 c1]|] eqn:E1; [|discriminate].
    simpl in H.
    destruct (simplify fuel second c1) as [[second1 c2]|] eqn:E2; [|discriminate].
    simpl in H.
    pose proof (IH _ _ _ _ E1) as N1. pose proof (IH _ _ _ _ E2) as N2.
    destruct first1 as [| | | |[] variable term|];
      try (injection H as <- _; simpl in *; by rewrite ?N1, ?N2).
    destruct (replace term variable second1 c2) as [r' c3]. by eapply IH.
Qed.

(** X6: an expression returned by [simplify] has no beta-redex left: none of
    its applications has a [LambdaExpression] as functor. *)
Theorem simplify_returns_normal (fuel : nat) (e r : Expression) (c c' : Counter.t) :
  simplify fuel e c = Some (r, c') → normal r = true.
Proof. apply simplify_normal_result. Qed.

Lemma simplify_returns_normal_witness :
  simplify 10 (Terms.app Terms.succ Terms.zero) Counter.new = Some (Terms.one, Counter.new) ∧
  normal Terms.one = true.
Proof.
  assert (H : simplify 10 (Terms.app Terms.succ Terms.zero) Counter.new
              = Some (Terms.one, Counter.new)) by (vm_compute; reflexivity).
  split; [exact H|].
  exact (simplify_returns_normal 10 _ _ _ _ H).
Defined.

Lemma simplify_normal_fixed (fuel : nat) (e : Expression) (c : Counter.t) :
  normal e = true → height e < fuel → simplify fuel e c = Some (e, c).
Proof.
  revert e c. induction fuel as [|fuel IH]; intros e c Hn Hh; [lia|].
  destruct e as [u|u|k|o|cls u term|first second]; simpl in *; try done.
  - rewrite IH by (done || lia). done.
  - rewrite !andb_true_iff in Hn. destruct Hn as [[N1 N2] N3].
    rewrite (IH first) by (done || lia). simpl.
    rewrite (IH second) by (done || lia). simpl.
    by destruct first as [| | | |[] ? ?|].
Qed.

(** X7: [simplify] leaves an expression without beta-redex as it is (given
    fuel above its height), and is therefore idempotent: simplifying what
    [simplify] returned returns the same expression again, and does not touch
    the counter. *)
Theorem simplify_idempotent (fuel : nat) (e r : Expression) (c c' : Counter.t) :
  simplify fuel e c = Some (r, c') →
  ∀ fuel', height r < fuel' → simplify fuel' r c' = Some (r, c').
Proof.
  intros H fuel' Hh. apply simplify_normal_fixed; [|done].
  by eapply simplify_normal_result.
Qed.

Lemma simplify_idempotent_witness :
  simplify 10 (Terms.app Terms.succ Terms.one) Counter.new = Some (Terms.two, Counter.new) ∧
  height Terms.two < 5 ∧
  simplify 5 Terms.two Counter.new = Some (Terms.two, Counter.new).
Proof.
  assert (H : simplify 10 (Terms.app Terms.succ Terms.one) Counter.new
              = Some (Terms.two, Counter.new)) by (vm_compute; reflexivity).
  assert (Hh : height Terms.two < 5) by (vm_compute; lia).
  split; [exact H|]. split; [exact Hh|].
  exact (simplify_idempotent 10 _ _ _ _ H 5 Hh).
Defined.

(** X8: [simplify] introduces no free variable: the free variables of what it
    returns are free variables of the expression it was given. *)
Theorem simplify_free (fuel : nat) (e r : Expression) (c c' : Counter.t) :
  simplify fuel e c = Some (r, c') → free r ⊆ free e.
Proof.
  revert e r c c'. induction fuel as [|fuel IH]; intros e r c c' H; [discriminate|].
  destruct e as [u|u|k|o|cls u term|first second]; simpl in H;
    try (by injection H as <- _).
  - destruct (simplify fuel term c) as [[term1 c1]|] eqn:E1; [|discriminate].
    simpl in H. injection H as <- _. simpl.
    pose proof (IH _ _ _ _ E1). set_solver.
  - destruct (simplify fuel first c) as [[first1 c1]|] eqn:E1; [|discriminate].
    simpl in H.
    destruct (simplify fuel second c1) as [[second1 c2]|] eqn:E2; [|discriminate].
    simpl in H.
    pose proof (IH _ _ _ _ E1) as F1. pose proof (IH _ _ _ _ E2) as F2.
    destruct first1 as [| | | |[] variable term|];
      try (injection H as <- _; simpl in *; set_solver).
    pose proof (replace_free_subseteq term variable second1 c2) as Fr.
    destruct (replace term variable second1 c2) as [r' c3].
    pose proof (IH _ _ _ _ H) as F3. simpl in *. set_solver.
Qed.

Lemma simplify_free_witness :
  simplify 10 (Terms.app Terms.succ Terms.zero) Counter.new = Some (Terms.one, Counter.new) ∧
  free Terms.one ⊆ free (Terms.app Terms.succ Terms.zero).
Proof.
  assert (H : simplify 10 (Terms.app Terms.succ Terms.zero) Counter.new
              = Some (Terms.one, Counter.new)) by (vm_compute; reflexivity).
  split; [exact H|].
  exact (simplify_free 10 _ _ _ _ H).
Defined.

End SimplifyResults.

Section SimplifyDiverges.

Lemma simplify_normal_inv (fuel : nat) (e r : Expression) (c c' : Counter.t) :
  normal e = true → simplify fuel e c = Some (r, c') → r = e ∧ c' = c.
Proof.
  intros Hn H.
  pose proof (simplify_fuel_mono fuel (fuel + S (height e)) e c (r, c') H ltac:(lia)) as H1.
  rewrite (simplify_normal_fixed _ e c Hn) in H1 by lia.
  by injection H1 as <- <-.
Qed.

(** X9: [simplify] does not return on [(\\x.(x x) \\x.(x x))]: the
    beta-reduction step yields the same application again, whatever the
    variable [x], the counter and the fuel. *)
Theorem simplify_omega_never_returns (x : variable) (fuel : nat) (c : Counter.t) :
  let w := VariableBinderExpression LambdaExpression x
             (ApplicationExpression (VariableExpression x) (VariableExpression x)) in
  simplify fuel (ApplicationExpression w w) c = None.
Proof.
  intros w. revert c. induction fuel as [|fuel IH]; intros c; [done|].
  cbn [simplify].
  destruct (simplify fuel w c) as [[first' c1]|] eqn:E1; [|done].
  apply simplify_normal_inv in E1 as [-> ->]; [|done].
  simpl.
  destruct (simplify fuel w c) as [[second' c2]|] eqn:E2; [|done].
  apply simplify_normal_inv in E2 as [-> ->]; [|done].
  simpl. unfold_replace. rewrite Variable_equals_refl. apply IH.
Qed.

End SimplifyDiverges.

(** ** Skolemisation of expressions without existentials *)

Section SkolemiseIdentity.

Lemma _skolemise_without_SomeExpression self st :
  Forall (λ t, is_SomeExpression t = false) (subterms self) →
  _skolemise self st = (self, st).
Proof.
  revert st.
  induction self as [u|u|k|o|cls u term IH|first IH1 second IH2]; intros st H;
    try done.
  - simpl in H. apply Forall_app in H as [Ht Hself].
    apply Forall_cons in Hself as [Hcls _].
    rewrite _skolemise_Lambda_All by (intros ->; discriminate).
    rewrite IH by done. by destruct st.
  - simpl in H. rewrite !Forall_app in H. destruct H as (H1 & H2 & _).
    rewrite _skolemise_ApplicationExpression.
    rewrite IH1 by done. by rewrite IH2.
Qed.

(** X10: [skolemise] returns an expression without existential binders as
    it is, without drawing on any counter; as its results never contain an
    existential, Skolemising twice gives what Skolemising once gives. *)
Theorem skolemise_idempotent :
  (∀ e zc,
     Forall (λ t, is_SomeExpression t = false) (subterms e) →
     skolemise e zc = (e, zc)) ∧
  (∀ e zc zc',
     skolemise (skolemise e zc).1 zc' = ((skolemise e zc).1, zc')).
Proof.
  assert (H : ∀ e zc,
            Forall (λ t, is_SomeExpression t = false) (subterms e) →
            skolemise e zc = (e, zc)).
  { intros e zc He. unfold skolemise.
    by rewrite _skolemise_without_SomeExpression. }
  split; [exact H|].
  intros e zc zc'. apply H. unfold skolemise.
  pose proof (_skolemise_no_SomeExpression e
                {| bound_vars := ∅; counter := Counter.new; _counter := zc |}) as Hn.
  by destruct (_skolemise e _) as [r st].
Qed.

Lemma skolemise_idempotent_witness :
  Forall (λ t, is_SomeExpression t = false) (subterms Terms.lam_y_xy) ∧
  skolemise Terms.lam_y_xy (Counter.mk 2) = (Terms.lam_y_xy, Counter.mk 2).
Proof.
  assert (H : Forall (λ t, is_SomeExpression t = false) (subterms Terms.lam_y_xy))
    by (repeat constructor).
  split; [exact H|].
  exact (proj1 skolemise_idempotent Terms.lam_y_xy (Counter.mk 2) H).
Defined.

End SkolemiseIdentity.

(** ** Functor, operator and arguments of an application *)

Section FunctorAndArguments.

Lemma foldl_ApplicationExpression_snoc h args a :
  foldl ApplicationExpression h (args ++ [a]) =
  ApplicationExpression (foldl ApplicationExpression h args) a.
Proof. by rewrite foldl_app. Qed.

Lemma is_ApplicationExpression_foldl h args :
  is_ApplicationExpression (foldl ApplicationExpression h args) =
  is_ApplicationExpression h || bool_decide (args ≠ []).
Proof.
  induction args as [|a args IH] using rev_ind.
  - simpl. by rewrite orb_false_r.
  - rewrite foldl_ApplicationExpression_snoc. simpl.
    rewrite bool_decide_true by (by destruct args). by rewrite orb_true_r.
Qed.

Lemma _functor_foldl h args :
  is_ApplicationExpression h = false → args ≠ [] →
  _functor (foldl ApplicationExpression h args) = Some h ∧
  _arglist (foldl ApplicationExpression h args) = rev (map str args).
Proof.
  intros Hh. induction args as [|a args IH] using rev_ind; [done|]. intros _.
  rewrite foldl_ApplicationExpression_snoc, map_app, rev_app_distr. simpl.
  destruct args as [|a0 args0].
  - simpl. by destruct h.
  - destruct IH as [IH1 IH2]; [done|].
    pose proof (is_ApplicationExpression_foldl h (a0 :: args0)) as Happ.
    rewrite bool_decide_true, orb_true_r in Happ by done.
    rewrite <- IH1, <- IH2.
    by destruct (foldl ApplicationExpression h (a0 :: args0)).
Qed.

(** X11: on the application built by applying a functor [h], itself not an
    application, to one argument after the other, [fun] gives back [h], [args]
    gives the renderings of the arguments in order, and [op] gives the name of
    [h] when [h] is an operator and raises [AttributeError] otherwise. *)
Theorem functor_and_args_of_application (h : Expression) (args : list Expression) :
  is_ApplicationExpression h = false → args ≠ [] →
  let e := foldl ApplicationExpression h args in
  _functor e = Some h ∧
  _args e = map str args ∧
  _operator e = match h with Operator o => Some o | _ => None end.
Proof.
  intros Hh Hargs e. subst e.
  destruct (_functor_foldl h args Hh Hargs) as [H1 H2].
  unfold _args, _operator. rewrite H1, H2, rev_involutive. done.
Qed.

Lemma functor_and_args_of_application_witness :
  is_ApplicationExpression (Operator "and") = false ∧
  [Terms.var "a"; Terms.var "b"] ≠ [] ∧
  _functor (Terms.app (Terms.app (Operator "and") (Terms.var "a")) (Terms.var "b"))
    = Some (Operator "and") ∧
  _args (Terms.app (Terms.app (Operator "and") (Terms.var "a")) (Terms.var "b"))
    = ["a"; "b"] ∧
  _operator (Terms.app (Terms.app (Operator "and") (Terms.var "a")) (Terms.var "b"))
    = Some "and".
Proof.
  assert (Hh : is_ApplicationExpression (Operator "and") = false) by reflexivity.
  assert (Ha : [Terms.var "a"; Terms.var "b"] ≠ []) by discriminate.
  split; [exact Hh|]. split; [exact Ha|].
  exact (functor_and_args_of_application (Operator "and")
           [Terms.var "a"; Terms.var "b"] Hh Ha).
Defined.

End FunctorAndArguments.

(** ** What [token] returns *)

Section Tokens.

Lemma split_space_1_spec (s tok : string) (after : option string) :
  split_space_1 s = (tok, after) →
  all_chars not_space tok = true ∧
  match after with
  | Some r => s = tok +:+ String " " r
  | None => s = tok
  end.
Proof.
  revert tok after. induction s as [|x s IH]; intros tok after H; simpl in H.
  - by injection H as <- <-.
  - destruct (Ascii.eqb x " ") eqn:Ex.
    + injection H as <- <-. apply Ascii.eqb_eq in Ex as ->. done.
    + destruct (split_space_1 s) as [tok' after'] eqn:E.
      injection H as <- <-. destruct (IH _ _ eq_refl) as [H1 H2].
      split.
      * simpl. unfold not_space at 1. by rewrite Ex.
      * destruct after'; by rewrite H2 at 1.
Qed.

Lemma token_loop_spec (b t b' : string) :
  Parser.token_loop b = Some (t, b') →
  nospace t = true ∧ String.length b' < String.length b.
Proof.
  induction b as [|x b IH]; [done|]. cbn [Parser.token_loop].
  destruct (Ascii.eqb x " ") eqn:Ex.
  - intros H. destruct (IH H) as [H1 H2]. split; [done|]. simpl. lia.
  - destruct (split_space_1 (String x b)) as [tok after] eqn:E.
    intros [= <- <-].
    destruct (split_space_1_spec _ _ _ E) as [H1 H2].
    assert (Hne : nonempty tok = true).
    { simpl in E. rewrite Ex in E. destruct (split_space_1 b).
      by injection E as <- _. }
    split; [unfold nospace; by rewrite Hne, H1|].
    destruct after as [r|]; rewrite H2; cbn [default].
    + rewrite string_length_app. simpl. lia.
    + destruct tok; [done|]. simpl. lia.
Qed.

(** X12: what [token] gives is never empty and holds no space; taking it
    shortens the buffer, and looking ahead with [token(0)] gives the same
    token and leaves the buffer untouched.  The one exception [token] raises
    is "end of stream", and it raises it on the empty buffer only. *)
Theorem token_returns (buffer : string) (destructive : bool) :
  (∀ t b', Parser.token destructive buffer = Return t b' →
     nospace t = true ∧
     Parser.token false buffer = Return t buffer ∧
     (if destructive then String.length b' < String.length buffer
      else b' = buffer) ∧
     ∃ b'', Parser.token true buffer = Return t b'') ∧
  (∀ e, Parser.token destructive buffer = Raise e →
     e = Error "end of stream" ∧ buffer = "").
Proof.
  unfold Parser.token. split.
  - intros t b'. destruct (bool_decide (buffer = "")); [done|].
    destruct (Parser.token_loop buffer) as [[tok rest]|] eqn:E; [|done].
    destruct (token_loop_spec _ _ _ E) as [H1 H2].
    intros [= <- <-]. repeat split; try done.
    + by destruct destructive.
    + by exists rest.
  - intros e. destruct (bool_decide (buffer = "")) eqn:Eb.
    + apply bool_decide_eq_true in Eb. by intros [= <-].
    + by destruct (Parser.token_loop buffer) as [[tok rest]|].
Qed.

Lemma token_returns_witness :
  Parser.token true " ( a b ) " = Return "(" "a b ) " ∧
  nospace "(" = true ∧
  Parser.token false " ( a b ) " = Return "(" " ( a b ) ".
Proof.
  assert (H : Parser.token true " ( a b ) " = Return "(" "a b ) ") by reflexivity.
  split; [exact H|].
  destruct (proj1 (token_returns " ( a b ) " true) _ _ H) as (H1 & H2 & _).
  split; [exact H1 | exact H2].
Defined.

End Tokens.

(** ** A buffer of white space *)

Section BlankBuffer.

Lemma token_loop_spaces (b : string) :
  all_chars (λ c, Ascii.eqb c " ") b = true → Parser.token_loop b = None.
Proof.
  induction b as [|x b IH]; [done|]. simpl.
  rewrite andb_true_iff. intros [-> Hb]. by apply IH.
Qed.

Lemma process_blank (data : string) :
  all_chars (λ c, Ascii.eqb c " " || Ascii.eqb c (ascii_of_nat 9)
                  || Ascii.eqb c (ascii_of_nat 10)) data = true →
  all_chars (λ c, Ascii.eqb c " ") (Parser.process data) = true ∧
  (data ≠ "" → Parser.process data ≠ "").
Proof.
  induction data as [|x data IH]; [done|]. simpl.
  rewrite andb_true_iff, !orb_true_iff, !Ascii.eqb_eq. intros [Hx Hd].
  destruct (IH Hd) as [H1 _].
  change (String x data) with (String x "" +:+ data).
  rewrite process_app.
  assert (Hp : Parser.process (String x "") = " ")
    by (destruct Hx as [[->| ->]| ->]; reflexivity).
  rewrite Hp. split; [by simpl|done].
Qed.

(** X13: on a text that is not empty and holds only spaces, tabs and
    newlines, asking for the next expression neither returns nor raises: the
    buffer is not empty, so no "end of stream", and the loop of [token] finds
    no token in it and never exits.  (On the empty text the parser raises
    "end of stream".) *)
Theorem parse_blank_hangs (data : string) (fuel : nat) (constants : list string) :
  data ≠ "" →
  all_chars (λ c, Ascii.eqb c " " || Ascii.eqb c (ascii_of_nat 9)
                  || Ascii.eqb c (ascii_of_nat 10)) data = true →
  Parser.parse_fuel (S fuel) constants data = Hang.
Proof.
  intros Hne Hblank. destruct (process_blank data Hblank) as [H1 H2].
  unfold Parser.parse_fuel, Parser.new. cbn [Parser.__next__].
  unfold mbind, M_bind, Parser.token.
  rewrite bool_decide_false by auto.
  by rewrite token_loop_spaces.
Qed.

Lemma parse_blank_hangs_witness :
  "  " ≠ "" ∧ Parser.parse_fuel 1 [] "  " = Hang.
Proof.
  assert (Hne : "  " ≠ "") by discriminate.
  split; [exact Hne|].
  exact (parse_blank_hangs "  " 0 [] Hne eq_refl).
Defined.

End BlankBuffer.

(** ** The exceptions of the parser, and the nodes it builds *)

Section ParserOutcomes.

Context (constants : list string).

Lemma raises_only_bind {A B} P (m : M A) (k : A → M B) b :
  raises_only P (m b) →
  (∀ a b', m b = Return a b' → raises_only P (k a b')) →
  raises_only P ((m ≫= k) b).
Proof.
  intros Hm Hk e. unfold mbind, M_bind.
  destruct (m b) as [a b'| e' | |] eqn:E; try done.
  - by apply Hk.
  - intros [= <-]. by apply Hm.
Qed.

Lemma returns_only_bind {A B} (P : B → string → Prop) (m : M A) (k : A → M B) b :
  (∀ a b', m b = Return a b' → returns_only P (k a b')) →
  returns_only P ((m ≫= k) b).
Proof.
  intros Hk r b''. unfold mbind, M_bind.
  destruct (m b) as [a b'| e' | |] eqn:E; try done. by apply Hk.
Qed.

Lemma token_raises destructive b :
  raises_only parse_error (Parser.token destructive b).
Proof.
  intros e H. left. by destruct (proj2 (token_returns b destructive) e H).
Qed.

Lemma token_true_false b t b' :
  Parser.token true b = Return t b' → Parser.token false b = Return t b.
Proof. intros H. by destruct (proj1 (token_returns b true) t b' H) as (_ & ? & _). Qed.

Lemma token_nospace destructive b t b' :
  Parser.token destructive b = Return t b' → nospace t = true.
Proof.
  intros H. by destruct (proj1 (token_returns b destructive) t b' H) as (? & _).
Qed.

Lemma more_vars_raises fuel vars b :
  raises_only parse_error (Parser.more_vars fuel constants vars b).
Proof.
  revert vars b. induction fuel as [|fuel IH]; intros vars b; [done|].
  cbn [Parser.more_vars].
  apply raises_only_bind; [apply token_raises|]. intros ahead b' _.
  destruct (Parser.isVariable constants ahead); [|done].
  apply raises_only_bind; [apply token_raises|]. intros tok b'' _. apply IH.
Qed.

Lemma more_exps_raises fuel (next : M Expression) exps b :
  (∀ b', raises_only parse_error (next b')) →
  raises_only parse_error (Parser.more_exps fuel next exps b).
Proof.
  intros Hnext. revert exps b. induction fuel as [|fuel IH]; intros exps b; [done|].
  cbn [Parser.more_exps].
  apply raises_only_bind; [apply token_raises|]. intros ahead b' _.
  destruct (bool_decide (ahead ≠ Parser.CLOSE)); [|done].
  apply raises_only_bind; [apply Hnext|]. intros exp b'' _. apply IH.
Qed.

(** When the loop over the arguments is left, the token ahead is [")"]. *)
Lemma more_exps_leaves_CLOSE fuel (next : M Expression) exps b r b' :
  Parser.more_exps fuel next exps b = Return r b' →
  Parser.token false b' = Return Parser.CLOSE b'.
Proof.
  revert exps b. induction fuel as [|fuel IH]; intros exps b; [done|].
  cbn [Parser.more_exps]. unfold mbind, M_bind.
  destruct (Parser.token false b) as [ahead b0| | |] eqn:E0; try done.
  destruct (proj1 (token_returns b false) _ _ E0) as (_ & _ & -> & _).
  destruct (bool_decide (ahead ≠ Parser.CLOSE)) eqn:Ea.
  - destruct (next b) as [exp b1| | |]; try done. apply IH.
  - apply bool_decide_eq_false in Ea. apply dec_stable in Ea as ->.
    by intros [= _ <-].
Qed.

Lemma is_indvar_nospace t : nospace t = true → is_indvar t ≠ None.
Proof.
  intros H E. apply is_indvar_None in E as ->. done.
Qed.

Lemma __next___raises fuel b :
  raises_only parse_error (Parser.__next__ fuel constants b).
Proof.
  revert b. induction fuel as [|fuel IH]; intros b; [done|].
  cbn [Parser.__next__].
  apply raises_only_bind; [apply token_raises|]. intros tok b0 Htok.
  destruct (bool_decide (tok ∈ [Parser.LAMBDA; Parser.SOME; Parser.ALL])).
  { apply raises_only_bind; [apply token_raises|]. intros v b1 _.
    apply raises_only_bind; [apply more_vars_raises|]. intros vars b2 _.
    apply raises_only_bind; [apply token_raises|]. intros tok' b3 _.
    destruct (bool_decide (tok' ≠ Parser.DOT)).
    - intros e [= <-]. right. by exists tok'.
    - apply raises_only_bind; [apply IH|]. done. }
  destruct (bool_decide (tok = Parser.OPEN)).
  { apply raises_only_bind; [apply IH|]. intros first b1 _.
    apply raises_only_bind; [apply IH|]. intros second b2 _.
    apply raises_only_bind; [by apply more_exps_raises|]. intros exps b3 Hexps.
    apply raises_only_bind; [apply token_raises|]. intros tok' b4 Htok'.
    apply more_exps_leaves_CLOSE in Hexps.
    apply token_true_false in Htok'. rewrite Hexps in Htok'.
    injection Htok' as <-. by rewrite bool_decide_true. }
  destruct (bool_decide (tok ∈ constants)); [done|].
  destruct (bool_decide (tok ∈ Parser.OPS)); [done|].
  pose proof (is_indvar_nospace tok (token_nospace _ _ _ _ Htok)) as Hind.
  destruct (is_indvar tok) as [[]|]; [done| |done].
  destruct (Parser.isVariable constants tok); [done|].
  intros e [= <-]. right. by exists tok.
Qed.

(** X14: of the exceptions that its own statements can raise, the parser
    raises only its [Error]s, "end of stream" and "parse error, unexpected
    token: ...", whatever the buffer and the declared constants.  It never
    raises [IndexError]: [is_indvar] is never handed an empty token, and
    [vars.pop()] never meets an empty list.  It never raises
    [AssertionError]: the token swallowed after the arguments of an
    application is always the closing parenthesis.  (The [RecursionError] of
    the interpreter on deeply nested text is not an exception of the
    model.) *)
Theorem parser_raises_only_Error (fuel : nat) (buffer : string) (e : Exception) :
  Parser.__next__ fuel constants buffer = Raise e →
  parse_error e ∧ e ≠ IndexError ∧ e ≠ AssertionError.
Proof.
  intros H. apply __next___raises in H.
  split; [exact H|].
  destruct H as [->|[tok ->]]; split; discriminate.
Qed.

End ParserOutcomes.

Lemma parser_raises_only_Error_witness :
  Parser.__next__ 3 ["mia"] " ( mia . " = Raise (Parser.unexpected_token ".") ∧
  parse_error (Parser.unexpected_token ".") ∧
  Parser.unexpected_token "." ≠ IndexError ∧
  Parser.unexpected_token "." ≠ AssertionError.
Proof.
  assert (H : Parser.__next__ 3 ["mia"] " ( mia . "
              = Raise (Parser.unexpected_token ".")) by reflexivity.
  split; [exact H|].
  exact (parser_raises_only_Error ["mia"] 3 " ( mia . " _ H).
Defined.

Section ParserBuilds.

Context (constants : list string).

Lemma more_vars_nospace fuel vars b r b' :
  Forall (λ w, nospace w = true) vars →
  Parser.more_vars fuel constants vars b = Return r b' →
  Forall (λ w, nospace w = true) r.
Proof.
  revert vars b. induction fuel as [|fuel IH]; intros vars b Hvars; [done|].
  cbn [Parser.more_vars]. unfold mbind, M_bind.
  destruct (Parser.token false b) as [ahead b0| | |] eqn:E0; try done.
  destruct (Parser.isVariable constants ahead).
  - destruct (Parser.token true b0) as [tok b1| | |] eqn:E1; try done.
    apply IH. apply Forall_app. split; [done|].
    constructor; [|done]. by eapply token_nospace.
  - by intros [= <- _].
Qed.

Lemma more_exps_asserted fuel (next : M Expression) exps b r b' :
  (∀ b0, returns_only (λ e _, asserted constants e = true) (next b0)) →
  Forall (λ e, asserted constants e = true) exps →
  Parser.more_exps fuel next exps b = Return r b' →
  Forall (λ e, asserted constants e = true) r.
Proof.
  intros Hnext. revert exps b. induction fuel as [|fuel IH]; intros exps b Hexps; [done|].
  cbn [Parser.more_exps]. unfold mbind, M_bind.
  destruct (Parser.token false b) as [ahead b0| | |] eqn:E0; try done.
  destruct (bool_decide (ahead ≠ Parser.CLOSE)).
  - destruct (next b0) as [exp b1| | |] eqn:E1; try done.
    apply IH. apply Forall_app. split; [done|].
    constructor; [|done]. by eapply Hnext.
  - by intros [= <- _].
Qed.

Lemma asserted_foldr cls vars term :
  Forall (λ w, nospace w = true) vars → asserted constants term = true →
  asserted constants
    (foldr (λ v accum, VariableBinderExpression cls (Variable' v) accum) term vars) = true.
Proof.
  induction 1 as [|w vars Hw _ IH]; intros Ht; [done|].
  simpl. by rewrite Hw, IH.
Qed.

Lemma asserted_foldl accum exps :
  asserted constants accum = true →
  Forall (λ e, asserted constants e = true) exps →
  asserted constants (foldl ApplicationExpression accum exps) = true.
Proof.
  intros Ha Hexps. revert accum Ha.
  induction Hexps as [|e exps He _ IH]; intros accum Ha; [done|].
  simpl. apply IH. simpl. by rewrite Ha, He.
Qed.

Lemma __next___asserted fuel b :
  returns_only (λ e _, asserted constants e = true) (Parser.__next__ fuel constants b).
Proof.
  revert b. induction fuel as [|fuel IH]; intros b; [done|].
  cbn [Parser.__next__].
  apply returns_only_bind. intros tok b0 Htok.
  destruct (bool_decide (tok ∈ [Parser.LAMBDA; Parser.SOME; Parser.ALL])).
  { apply returns_only_bind. intros v b1 Hv.
    apply returns_only_bind. intros vars b2 Hvars.
    apply returns_only_bind. intros tok' b3 _.
    destruct (bool_decide (tok' ≠ Parser.DOT)); [done|].
    apply returns_only_bind. intros term b4 Hterm.
    intros a b5 [= <- _]. apply asserted_foldr.
    - eapply more_vars_nospace; [|exact Hvars].
      constructor; [|done]. by eapply token_nospace.
    - by eapply IH. }
  destruct (bool_decide (tok = Parser.OPEN)).
  { apply returns_only_bind. intros first b1 Hfirst.
    apply returns_only_bind. intros second b2 Hsecond.
    apply returns_only_bind. intros exps b3 Hexps.
    apply returns_only_bind. intros tok' b4 _.
    destruct (bool_decide (tok' = Parser.CLOSE)); [|done].
    intros a b5 [= <- _]. apply asserted_foldl.
    - apply IH in Hfirst. apply IH in Hsecond.
      destruct (is_Operator second); simpl; by rewrite Hfirst, Hsecond.
    - eapply more_exps_asserted; [|done|exact Hexps]. intros b'. apply IH. }
  destruct (bool_decide (tok ∈ constants)) eqn:Ec.
  { intros a b5 [= <- _]. simpl. by rewrite Ec. }
  destruct (bool_decide (tok ∈ Parser.OPS)) eqn:Eo.
  { intros a b5 [= <- _]. simpl. by rewrite Eo. }
  destruct (is_indvar tok) as [[]|] eqn:Ei; [| |done].
  - intros a b5 [= <- _]. simpl. by rewrite bool_decide_true.
  - destruct (Parser.isVariable constants tok) eqn:Ev; [|done].
    intros a b5 [= <- _]. simpl. rewrite Ev. by rewrite bool_decide_true.
Qed.

(** X15: every expression the parser returns satisfies what the constructors
    of its nodes assert, and more: the name of an [IndVariableExpression] has
    the form of an individual variable, the name of a plain
    [VariableExpression] has not and is none of the reserved tokens, an
    [Operator] is one of [Parser.OPS], a constant is a declared constant, and a
    bound variable is a non-empty token. *)
Theorem parser_builds_asserted (fuel : nat) (buffer : string) (e : Expression)
    (rest : string) :
  Parser.__next__ fuel constants buffer = Return e rest →
  asserted constants e = true.
Proof. intros H. by eapply __next___asserted. Qed.

End ParserBuilds.

Lemma parser_builds_asserted_witness :
  Parser.__next__ 5 [] " \ x y . ( x y z ) " =
    Return (Terms.lam "x" (Terms.lam "y"
              (Terms.app (Terms.app (Terms.ind "x") (Terms.ind "y")) (Terms.ind "z")))) "" ∧
  asserted [] (Terms.lam "x" (Terms.lam "y"
              (Terms.app (Terms.app (Terms.ind "x") (Terms.ind "y")) (Terms.ind "z")))) = true.
Proof.
  assert (H : Parser.__next__ 5 [] " \ x y . ( x y z ) " =
    Return (Terms.lam "x" (Terms.lam "y"
              (Terms.app (Terms.app (Terms.ind "x") (Terms.ind "y")) (Terms.ind "z")))) "")
    by (vm_compute; reflexivity).
  split; [exact H|].
  exact (parser_builds_asserted [] 5 _ _ _ H).
Defined.

(** ** Termination of the parser *)

Section ParserTerminates.

Context (constants : list string).

Lemma token_shorter b t b' :
  Parser.token true b = Return t b' → String.length b' < String.length b.
Proof. intros H. by destruct (proj1 (token_returns b true) t b' H) as (_ & _ & ? & _). Qed.

Lemma token_false_same b t b' : Parser.token false b = Return t b' → b' = b.
Proof. intros H. by destruct (proj1 (token_returns b false) t b' H) as (_ & _ & ? & _). Qed.

Lemma token_not_OutOfFuel destructive b : Parser.token destructive b ≠ OutOfFuel.
Proof.
  unfold Parser.token. destruct (bool_decide (b = "")); [done|].
  by destruct (Parser.token_loop b) as [[]|].
Qed.

Lemma more_vars_shorter fuel vars b r b' :
  Parser.more_vars fuel constants vars b = Return r b' →
  String.length b' ≤ String.length b.
Proof.
  revert vars b. induction fuel as [|fuel IH]; intros vars b; [done|].
  cbn [Parser.more_vars]. unfold mbind, M_bind.
  destruct (Parser.token false b) as [ahead b0| | |] eqn:E0; try done.
  apply token_false_same in E0 as ->.
  destruct (Parser.isVariable constants ahead).
  - destruct (Parser.token true b) as [tok b1| | |] eqn:E1; try done.
    apply token_shorter in E1. intros H. apply IH in H. lia.
  - by intros [= _ <-].
Qed.

Lemma more_exps_shorter fuel (next : M Expression) exps b r b' :
  (∀ b0 e b1, next b0 = Return e b1 → String.length b1 < String.length b0) →
  Parser.more_exps fuel next exps b = Return r b' →
  String.length b' ≤ String.length b.
Proof.
  intros Hnext. revert exps b. induction fuel as [|fuel IH]; intros exps b; [done|].
  cbn [Parser.more_exps]. unfold mbind, M_bind.
  destruct (Parser.token false b) as [ahead b0| | |] eqn:E0; try done.
  apply token_false_same in E0 as ->.
  destruct (bool_decide (ahead ≠ Parser.CLOSE)).
  - destruct (next b) as [exp b1| | |] eqn:E1; try done.
    apply Hnext in E1. intros H. apply IH in H. lia.
  - by intros [= _ <-].
Qed.

(** Reading an expression shortens the buffer. *)
Lemma __next___shorter fuel b e b' :
  Parser.__next__ fuel constants b = Return e b' →
  String.length b' < String.length b.
Proof.
  revert b e b'. induction fuel as [|fuel IH]; intros b e b'; [done|].
  cbn [Parser.__next__]. unfold mbind, M_bind.
  destruct (Parser.token true b) as [tok b0| | |] eqn:E0; try done.
  apply token_shorter in E0.
  destruct (bool_decide (tok ∈ [Parser.LAMBDA; Parser.SOME; Parser.ALL])).
  { destruct (Parser.token true b0) as [v b1| | |] eqn:E1; try done.
    apply token_shorter in E1.
    destruct (Parser.more_vars fuel constants [v] b1) as [vars b2| | |] eqn:E2; try done.
    apply more_vars_shorter in E2.
    destruct (Parser.token true b2) as [tok' b3| | |] eqn:E3; try done.
    apply token_shorter in E3.
    destruct (bool_decide (tok' ≠ Parser.DOT)); [done|].
    destruct (Parser.__next__ fuel constants b3) as [term b4| | |] eqn:E4; try done.
    apply IH in E4. intros [= _ <-]. lia. }
  destruct (bool_decide (tok = Parser.OPEN)).
  { destruct (Parser.__next__ fuel constants b0) as [first b1| | |] eqn:E1; try done.
    apply IH in E1.
    destruct (Parser.__next__ fuel constants b1) as [second b2| | |] eqn:E2; try done.
    apply IH in E2.
    destruct (Parser.more_exps fuel (Parser.__next__ fuel constants) [] b2)
      as [exps b3| | |] eqn:E3; try done.
    apply more_exps_shorter in E3; [|exact IH].
    destruct (Parser.token true b3) as [tok' b4| | |] eqn:E4; try done.
    apply token_shorter in E4.
    destruct (bool_decide (tok' = Parser.CLOSE)); [|done].
    intros [= _ <-]. lia. }
  destruct (bool_decide (tok ∈ constants)); [intros [= _ <-]; lia|].
  destruct (bool_decide (tok ∈ Parser.OPS)); [intros [= _ <-]; lia|].
  destruct (is_indvar tok) as [[]|]; [intros [= _ <-]; lia| |done].
  destruct (Parser.isVariable constants tok); [intros [= _ <-]; lia|done].
Qed.

Lemma bind_not_OutOfFuel {A B} (m : M A) (k : A → M B) b :
  m b ≠ OutOfFuel →
  (∀ a b', m b = Return a b' → k a b' ≠ OutOfFuel) →
  (m ≫= k) b ≠ OutOfFuel.
Proof.
  intros Hm Hk. unfold mbind, M_bind.
  destruct (m b) as [a b'| e' | |] eqn:E; try done. by apply Hk.
Qed.

Lemma more_vars_not_OutOfFuel fuel vars b :
  String.length b < fuel → Parser.more_vars fuel constants vars b ≠ OutOfFuel.
Proof.
  revert vars b. induction fuel as [|fuel IH]; intros vars b Hlen; [lia|].
  cbn [Parser.more_vars].
  apply bind_not_OutOfFuel; [apply token_not_OutOfFuel|]. intros ahead b0 E0.
  apply token_false_same in E0 as ->.
  destruct (Parser.isVariable constants ahead); [|done].
  apply bind_not_OutOfFuel; [apply token_not_OutOfFuel|]. intros tok b1 E1.
  apply token_shorter in E1. apply IH. lia.
Qed.

Lemma more_exps_not_OutOfFuel fuel (next : M Expression) exps b :
  String.length b < fuel →
  (∀ b0, String.length b0 ≤ String.length b → next b0 ≠ OutOfFuel) →
  (∀ b0 e b1, next b0 = Return e b1 → String.length b1 < String.length b0) →
  Parser.more_exps fuel next exps b ≠ OutOfFuel.
Proof.
  intros Hlen Hnext Hshort. revert exps b Hlen Hnext.
  induction fuel as [|fuel IH]; intros exps b Hlen Hnext; [lia|].
  cbn [Parser.more_exps].
  apply bind_not_OutOfFuel; [apply token_not_OutOfFuel|]. intros ahead b0 E0.
  apply token_false_same in E0 as ->.
  destruct (bool_decide (ahead ≠ Parser.CLOSE)); [|done].
  apply bind_not_OutOfFuel; [by apply Hnext|]. intros exp b1 E1.
  apply Hshort in E1. apply IH; [lia|].
  intros b0 Hb0. apply Hnext. lia.
Qed.


End ParserTerminates.


(** ** Individual variables and operators as texts *)

Section Atoms.

Context (constants : list string).

(** The characters the parser treats specially are ASCII, and no digit. *)
Lemma clean_char_false c :
  clean_char c = false →
  (N_of_ascii c <? 128)%N = true ∧ is_digit_code_point (N_of_ascii c) = false.
Proof. destruct c as [[] [] [] [] [] [] [] []]; by vm_compute. Qed.

Lemma all_digits_clean s :
  ∀ need lo acc, all_digits need lo acc s = true → all_chars clean_char s = true.
Proof.
  induction s as [|c rest IH]; intros need lo acc H; [done|].
  cbn [all_digits all_chars] in *.
  destruct (clean_char c) eqn:E.
  - cbn [andb]. destruct need as [|need].
    + repeat match type of H with
             | (if ?b then _ else _) = true => destruct b
             end; try discriminate H.
      * apply andb_true_iff in H as [_ H]. eauto.
      * eauto.
      * eauto.
      * eauto.
    + destruct (_ && _); [|discriminate H].
      destruct need; [|eauto].
      apply andb_true_iff in H as [_ H]. eauto.
  - apply clean_char_false in E as [E1 E2]. destruct need as [|need].
    + rewrite E1, E2 in H. discriminate H.
    + apply N.ltb_lt in E1.
      rewrite (proj2 (N.leb_gt 128 (N_of_ascii c))) in H by done. discriminate H.
Qed.

Lemma is_indvar_true_inv n :
  is_indvar n = Some true →
  ∃ c rest, n = String c rest ∧ c ∈ ["w"; "x"; "y"; "z"]%char ∧
            all_chars clean_char rest = true.
Proof.
  destruct n as [|c rest]; [done|]. unfold is_indvar.
  destruct (decide (1 < String.length (String c rest))) as [Hlen|Hlen].
  - intros [= H]. apply andb_true_iff in H as [Hc Hd].
    apply bool_decide_eq_true in Hc. exists c, rest. repeat split; try done.
    unfold isdigit in Hd. destruct rest as [|d rest]; [done|].
    by apply all_digits_clean in Hd.
  - intros [= Hc]. apply bool_decide_eq_true in Hc.
    exists c, rest. repeat split; try done.
    destruct rest; [done|]. simpl in Hlen. lia.
Qed.

Lemma is_indvar_var_token n :
  is_indvar n = Some true →
  clean n = true ∧
  (n ∉ [Parser.LAMBDA; Parser.SOME; Parser.ALL]) ∧ n ≠ Parser.OPEN ∧
  (n ∉ Parser.OPS).
Proof.
  intros H. apply is_indvar_true_inv in H as (c & rest & -> & Hc & Hrest).
  rewrite !elem_of_cons, elem_of_nil in Hc.
  unfold Parser.OPS, Parser.BOOL.
  rewrite !elem_of_cons, !elem_of_nil.
  destruct Hc as [->|[->|[->|[->|[]]]]];
    (repeat split; [unfold clean; simpl; by rewrite Hrest | | done| ]);
    intros Hin; repeat (destruct Hin as [Hin|Hin]; [discriminate Hin|]); done.
Qed.

(** X17: a text with the form of an individual variable, one of [w], [x],
    [y], [z] alone or followed by characters that [str.isdigit] accepts (the
    digits of any script, superscripts among them), is read as an
    [IndVariableExpression] of that name, and the name of an operator as that
    [Operator], provided the text is not among the declared constants, which
    the parser looks up first; nothing is left in the buffer. *)
Theorem parse_individual_variable_and_operator (fuel : nat) (n : string) :
  n ∉ constants →
  (is_indvar n = Some true →
   Parser.parse_fuel (S fuel) constants n =
   Return (IndVariableExpression (Variable' n)) "") ∧
  (n ∈ Parser.OPS →
   Parser.parse_fuel (S fuel) constants n = Return (Operator n) "").
Proof.
  intros Hc. split.
  - intros Hind.
    destruct (is_indvar_var_token n Hind) as (Hclean & Hk & Hopen & Hops).
    unfold Parser.parse_fuel, Parser.new. rewrite clean_process by done.
    assert (Htok : Parser.token true n = Return n "").
    { unfold Parser.token.
      rewrite bool_decide_false by (intros ->; done).
      destruct (token_loop_nospace n "" (clean_nospace n Hclean)) as [_ ->]. done. }
    cbn [Parser.__next__]. rewrite (M_bind_Return _ _ _ _ _ Htok).
    by rewrite (bool_decide_false _ Hk), (bool_decide_false _ Hopen),
      (bool_decide_false _ Hc), (bool_decide_false _ Hops), Hind.
  - intros Hops.
    destruct (OPS_inv n Hops) as [Hp Hns].
    destruct (OPS_not_special n Hops) as (Hk & Hopen & _).
    unfold Parser.parse_fuel, Parser.new. rewrite Hp.
    assert (Htok : Parser.token true n = Return n "").
    { unfold Parser.token.
      rewrite bool_decide_false by (intros ->; done).
      destruct (token_loop_nospace n "" Hns) as [_ ->]. done. }
    cbn [Parser.__next__]. rewrite (M_bind_Return _ _ _ _ _ Htok).
    by rewrite (bool_decide_false _ Hk), (bool_decide_false _ Hopen),
      (bool_decide_false _ Hc), (bool_decide_true _ Hops).
Qed.

End Atoms.

Lemma parse_individual_variable_and_operator_witness :
  ("x1²" ∉ ["mia"]) ∧ is_indvar "x1²" = Some true ∧
  Parser.parse_fuel 1 ["mia"] "x1²" = Return (IndVariableExpression (Variable' "x1²")) "".
Proof.
  assert (Hc : "x1²" ∉ ["mia"]) by (apply (bool_decide_unpack _); vm_compute; exact I).
  assert (Hi : is_indvar "x1²" = Some true) by reflexivity.
  split; [exact Hc|]. split; [exact Hi|].
  exact (proj1 (parse_individual_variable_and_operator ["mia"] 0 "x1²" Hc) Hi).
Defined.

(** ** Feeding the parser in batches *)

Section Feeding.

Context (constants : list string).

(** Processing a buffer again keeps its tokens, when each token on its own
    is kept. *)
Lemma tokenizes_process b l :
  tokenizes b l →
  Forall (λ t, tokenizes (Parser.process t) [t]) l →
  tokenizes (Parser.process b) l.
Proof.
  induction 1 as [|b l Hb IH|t Ht|t b l Ht Hb IH]; intros Hl.
  - constructor.
  - change (String " " b) with (" " +:+ b).
    rewrite (process_literal " " " ") by reflexivity.
    change (" " +:+ ?X) with (String " " X). constructor. by apply IH.
  - by apply Forall_cons in Hl as [? _].
  - apply Forall_cons in Hl as [Hst Hl].
    change (String " " b) with (" " +:+ b).
    rewrite process_app, (process_literal " " " ") by reflexivity.
    change (" " +:+ ?X) with (String " " X).
    change (t :: l) with ([t] ++ l).
    apply tokenizes_app; [done|]. constructor. by apply IH.
Qed.

Lemma tokenizes_nil_app a b l : tokenizes a [] → tokenizes b l → tokenizes (a +:+ b) l.
Proof.
  intros Ha Hb. remember [] as la eqn:E.
  induction Ha as [|a l' Ha IH| |]; try discriminate.
  - done.
  - rewrite string_app_cons. constructor. by apply IH.
Qed.

Lemma stable_clean t : clean t = true → tokenizes (Parser.process t) [t].
Proof.
  intros H. rewrite clean_process by done. constructor. by apply clean_nospace.
Qed.

Lemma stable_special t :
  t ∈ [Parser.LAMBDA; Parser.DOT; Parser.OPEN; Parser.CLOSE; Parser.SOME; Parser.ALL] →
  tokenizes (Parser.process t) [t].
Proof.
  rewrite !elem_of_cons, elem_of_nil.
  intros [->|[->|[->|[->|[->|[->|[]]]]]]];
    try (apply stable_clean; reflexivity);
    match goal with
    | |- tokenizes (Parser.process ?t) _ =>
        change (Parser.process t) with (String " " (t +:+ String " " ""))
    end; constructor; by repeat constructor.
Qed.

Lemma toks_stable e m :
  parsable constants e = true →
  Forall (λ t, tokenizes (Parser.process t) [t]) (toks m e).
Proof.
  revert m.
  induction e as [u|u|k|o|cls u term IH|first IH1 second IH2]; intros m He.
  - simpl in *. unfold var_token in He. apply andb_true_iff in He as [Hc _].
    repeat constructor. by apply stable_clean.
  - simpl in *. unfold var_token in He. apply andb_true_iff in He as [Hc _].
    repeat constructor. by apply stable_clean.
  - simpl in *. rewrite !andb_true_iff in He. destruct He as [[Hc _] _].
    repeat constructor. by apply stable_clean.
  - simpl in *. apply andb_true_iff in He as [Ho _].
    apply bool_decide_eq_true in Ho. apply OPS_inv in Ho as [Hp Hn].
    repeat constructor. rewrite Hp. by constructor.
  - apply parsable_VariableBinderExpression in He as (Hc & _ & Ht).
    cbn [toks]. apply Forall_app. split.
    + destruct m; repeat constructor; apply stable_special; destruct cls; set_solver.
    + constructor; [by apply stable_clean|].
      destruct (same_binder_class cls term); [by apply IH|].
      constructor; [apply stable_special; set_solver | by apply IH].
  - apply parsable_ApplicationExpression in He as (Hf & Hs & Hop).
    cbn [toks].
    assert (Hbody : Forall (λ t, tokenizes (Parser.process t) [t])
                      (toks (if is_ApplicationExpression first then Inner else Top) first
                       ++ toks Top second)).
    { apply Forall_app. split; [by apply IH1 | by apply IH2]. }
    destruct m; try done;
      (apply Forall_cons; split; [apply stable_special; set_solver|]);
      (apply Forall_app; split; [done|]);
      (apply Forall_cons; split; [apply stable_special; set_solver|]);
      apply Forall_nil_2.
Qed.

Lemma tokenizes_str e :
  parsable constants e = true → tokenizes (Parser.process (str e)) (toks Top e).
Proof.
  intros He. unfold str. rewrite (__str___strs constants e false He).
  by apply (tokenizes_strs constants).
Qed.

(** X18: a parser can be fed in batches, when the batches are kept apart
    by white space.  Fed the renderings of two expressions with a space
    between them, it returns the first and keeps the second in its buffer;
    fed a space and a third rendering after that (the whole buffer is
    processed again), it returns the second and then the third.  The
    expressions are those of the round trip, and each call has fuel for the
    nodes of its expression.  The space is needed: [feed] appends to the
    buffer as it is, so that after ["(walk mia) x"] and one expression taken,
    feeding ["y"] makes the waiting [x] the variable [xy]. *)
Theorem parser_feed_in_batches (e1 e2 e3 : Expression) (fuel : nat) :
  parsable constants e1 = true → parsable constants e2 = true →
  parsable constants e3 = true →
  size e1 ≤ fuel → size e2 ≤ fuel → size e3 ≤ fuel →
  (∃ b1 b3 b4,
     Parser.__next__ fuel constants (feed (str e1 +:+ " " +:+ str e2) "")
       = Return (retag e1) b1 ∧
     Parser.__next__ fuel constants (feed (" " +:+ str e3) b1) = Return (retag e2) b3 ∧
     Parser.__next__ fuel constants b3 = Return (retag e3) b4) ∧
  (Parser.__next__ 3 [] (feed "(walk mia) x" "") =
     Return (ApplicationExpression (VariableExpression (Variable' "walk"))
                                   (VariableExpression (Variable' "mia"))) " x" ∧
   Parser.__next__ 3 [] (feed "y" " x") =
     Return (VariableExpression (Variable' "xy")) "" ∧
   Parser.__next__ 3 [] (feed " y" " x") =
     Return (IndVariableExpression (Variable' "x")) "y").
Proof.
  intros H1 H2 H3 F1 F2 F3.
  split; [|by vm_compute].
  assert (T12 : tokenizes (feed (str e1 +:+ " " +:+ str e2) "")
                  (toks Top e1 ++ toks Top e2)).
  { unfold feed. rewrite string_app_nil_l, process_app.
    rewrite (process_literal " " " ") by reflexivity.
    change (" " +:+ ?X) with (String " " X).
    apply tokenizes_app; [by apply tokenizes_str|].
    constructor. by apply tokenizes_str. }
  destruct (__next___on_rendering constants (size e1) e1 ltac:(lia) H1 fuel _ _ F1 T12)
    as (b1 & N1 & T2).
  assert (T23 : tokenizes (feed (" " +:+ str e3) b1) (toks Top e2 ++ toks Top e3)).
  { unfold feed. rewrite process_app.
    rewrite (process_literal " " " ") by reflexivity.
    change (" " +:+ ?X) with (String " " X).
    apply tokenizes_app.
    - apply tokenizes_process; [done|]. by apply toks_stable.
    - constructor. by apply tokenizes_str. }
  destruct (__next___on_rendering constants (size e2) e2 ltac:(lia) H2 fuel _ _ F2 T23)
    as (b3 & N2 & T3).
  rewrite <- (app_nil_r (toks Top e3)) in T3.
  destruct (__next___on_rendering constants (size e3) e3 ltac:(lia) H3 fuel _ _ F3 T3)
    as (b4 & N3 & _).
  by exists b1, b3, b4.
Qed.

(** X19: [parse] called twice on one parser returns the two expressions, one
    per call: the first call leaves nothing but spaces behind, to which the
    second call appends its own text. *)
Theorem parser_parse_twice (e1 e2 : Expression) (fuel : nat) :
  parsable constants e1 = true → parsable constants e2 = true →
  size e1 ≤ fuel → size e2 ≤ fuel →
  ∃ b1 b2,
    parse fuel constants (str e1) "" = Return (retag e1) b1 ∧
    parse fuel constants (str e2) b1 = Return (retag e2) b2.
Proof.
  intros H1 H2 F1 F2.
  assert (T1 : tokenizes (feed (str e1) "") (toks Top e1 ++ [])).
  { unfold feed. rewrite string_app_nil_l, app_nil_r. by apply tokenizes_str. }
  destruct (__next___on_rendering constants (size e1) e1 ltac:(lia) H1 fuel _ _ F1 T1)
    as (b1 & N1 & Tb1).
  assert (T2 : tokenizes (feed (str e2) b1) (toks Top e2 ++ [])).
  { unfold feed. rewrite process_app, app_nil_r.
    apply tokenizes_nil_app; [|by apply tokenizes_str].
    by apply tokenizes_process. }
  destruct (__next___on_rendering constants (size e2) e2 ltac:(lia) H2 fuel _ _ F2 T2)
    as (b2 & N2 & _).
  by exists b1, b2.
Qed.

End Feeding.

Section FeedingExamples.

Import Terms.

Lemma parser_feed_in_batches_witness :
  let e1 := app (var "walk") (var "mia") in
  let e2 := lam "x" (ind "x") in
  let e3 := ind "y" in
  parsable [] e1 = true ∧ parsable [] e2 = true ∧ parsable [] e3 = true ∧
  size e1 ≤ 3 ∧ size e2 ≤ 3 ∧ size e3 ≤ 3 ∧
  ∃ b1 b3 b4,
    Parser.__next__ 3 [] (feed (str e1 +:+ " " +:+ str e2) "") = Return (retag e1) b1 ∧
    Parser.__next__ 3 [] (feed (" " +:+ str e3) b1) = Return (retag e2) b3 ∧
    Parser.__next__ 3 [] b3 = Return (retag e3) b4.
Proof.
  intros e1 e2 e3.
  assert (H1 : parsable [] e1 = true) by reflexivity.
  assert (H2 : parsable [] e2 = true) by reflexivity.
  assert (H3 : parsable [] e3 = true) by reflexivity.
  assert (F1 : size e1 ≤ 3) by (simpl; lia).
  assert (F2 : size e2 ≤ 3) by (simpl; lia).
  assert (F3 : size e3 ≤ 3) by (simpl; lia).
  repeat (split; [assumption|]).
  exact (proj1 (parser_feed_in_batches [] e1 e2 e3 3 H1 H2 H3 F1 F2 F3)).
Defined.

Lemma parser_parse_twice_witness :
  let e1 := app (var "walk") (var "mia") in
  let e2 := lam "x" (ind "x") in
  parsable [] e1 = true ∧ parsable [] e2 = true ∧ size e1 ≤ 3 ∧ size e2 ≤ 3 ∧
  ∃ b1 b2,
    parse 3 [] (str e1) "" = Return (retag e1) b1 ∧
    parse 3 [] (str e2) b1 = Return (retag e2) b2.
Proof.
  intros e1 e2.
  assert (H1 : parsable [] e1 = true) by reflexivity.
  assert (H2 : parsable [] e2 = true) by reflexivity.
  assert (F1 : size e1 ≤ 3) by (simpl; lia).
  assert (F2 : size e2 ≤ 3) by (simpl; lia).
  repeat (split; [assumption|]).
  exact (parser_parse_twice [] e1 e2 3 H1 H2 F1 F2).
Defined.

End FeedingExamples.

(** ** Infix form *)

Section Infix.

Lemma infixify_ApplicationExpression first second :
  ∃ x y, infixify (ApplicationExpression first second) = ApplicationExpression x y.
Proof.
  cbn [infixify]. destruct (infixify first) as [| | |o| |]; try by eexists _, _.
  destruct (negb (String.eqb o "not")); by eexists _, _.
Qed.

Lemma is_Operator_infixify e : is_Operator (infixify e) = is_Operator e.
Proof.
  destruct e as [| | | | |first second]; try done.
  by destruct (infixify_ApplicationExpression first second) as (x & y & ->).
Qed.

Lemma is_ApplicationExpression_infixify e :
  is_ApplicationExpression (infixify e) = is_ApplicationExpression e.
Proof.
  destruct e as [| | | | |first second]; try done.
  by destruct (infixify_ApplicationExpression first second) as (x & y & ->).
Qed.

Lemma same_binder_class_infixify cls e :
  same_binder_class cls (infixify e) = same_binder_class cls e.
Proof.
  destruct e as [| | | | |first second]; try done.
  by destruct (infixify_ApplicationExpression first second) as (x & y & ->).
Qed.

(** [infixify] changes nothing where no operator is a functor. *)
Lemma infixify_operators_follow e : operators_follow e = true → infixify e = e.
Proof.
  induction e as [u|u|k|o|cls u term IH|first IH1 second IH2]; try done.
  - cbn [operators_follow infixify]. intros H. by rewrite IH.
  - cbn [operators_follow infixify]. rewrite !andb_true_iff. intros [[H1 H2] H3].
    rewrite IH1, IH2 by done. destruct first; try done. by rewrite H3.
Qed.

(** After [infixify] no operator other than ["not"] is a functor, when none
    was an argument before. *)
Lemma operators_follow_infixify e :
  operators_lead e = true → operators_follow (infixify e) = true.
Proof.
  induction e as [u|u|k|o|cls u term IH|first IH1 second IH2]; try done.
  cbn [operators_lead]. rewrite !andb_true_iff, negb_true_iff. intros [[H1 H2] H3].
  specialize (IH1 H1). specialize (IH2 H2).
  rewrite <- is_Operator_infixify in H3.
  cbn [infixify].
  destruct (infixify first) as [| | |o| |] eqn:E1;
    try (change (operators_follow (ApplicationExpression ?f ?s))
           with (operators_follow f && operators_follow s && true);
         by rewrite IH1, IH2).
  destruct (String.eqb o "not") eqn:Eo; cbn [negb operators_follow].
  - by rewrite IH2, Eo.
  - rewrite IH2. by destruct (infixify second).
Qed.

(** X20: [infixify] is idempotent on expressions in which no application has
    an operator as its argument; the condition is needed, since on an
    operator applied to an operator (neither of them ["not"]) a second
    [infixify] undoes the first. *)
Theorem infixify_idempotent :
  (∀ e, operators_lead e = true → infixify (infixify e) = infixify e) ∧
  (∀ o1 o2, o1 ≠ "not" → o2 ≠ "not" →
     let e := ApplicationExpression (Operator o1) (Operator o2) in
     infixify e = ApplicationExpression (Operator o2) (Operator o1) ∧
     infixify (infixify e) = e).
Proof.
  split.
  - intros e He. by apply infixify_operators_follow, operators_follow_infixify.
  - intros o1 o2 H1 H2 e. subst e.
    apply String.eqb_neq in H1. apply String.eqb_neq in H2.
    cbn [infixify]. rewrite H1. cbn [negb infixify]. by rewrite H2.
Qed.

Lemma __str___rendering e continuation :
  __str__ e continuation = rendering (if continuation then Continuation else Top) e.
Proof.
  revert continuation.
  induction e as [u|u|k|o|cls u term IH|first IH1 second IH2]; intros continuation.
  - by destruct continuation.
  - by destruct continuation.
  - by destruct continuation.
  - by destruct continuation.
  - simpl. rewrite (IH true), (IH false). simpl.
    by destruct continuation, (same_binder_class cls term).
  - simpl. rewrite (IH1 false), (IH2 false). simpl.
    destruct first as [| | | | |f1 f2], (is_Operator second); simpl;
      rewrite ?slice_1_m1_parens; destruct continuation;
      by rewrite ?string_app_assoc.
Qed.

(** X21: a binary operator application is rendered infix after [infixify],
    and a negation prefix: [((and p) q)] as [(p and q)], [(not p)] as it
    is. *)
Theorem str_infixify_operator (o : string) (p q : Expression) :
  o ≠ "not" → is_Operator q = false →
  str (infixify (ApplicationExpression (ApplicationExpression (Operator o) p) q)) =
    "(" +:+ str (infixify p) +:+ " " +:+ o +:+ " " +:+ str (infixify q) +:+ ")" ∧
  str (infixify (ApplicationExpression (Operator "not") p)) =
    "(not " +:+ str (infixify p) +:+ ")".
Proof.
  intros Ho Hq. rewrite <- is_Operator_infixify in Hq.
  apply String.eqb_neq in Ho.
  cbn [infixify]. rewrite Ho. cbn [negb].
  unfold str. cbn [__str__ is_ApplicationExpression is_Operator andb negb].
  rewrite Hq. cbn [negb].
  rewrite andb_false_r.
  split.
  - replace (__str__ (infixify p) false +:+ " " +:+ o +:+ ")")
      with ((__str__ (infixify p) false +:+ " " +:+ o) +:+ ")")
      by (by rewrite ?string_app_assoc).
    rewrite slice_1_m1_parens. by rewrite ?string_app_assoc.
  - change (String.eqb "not" "not") with true.
    cbn [negb __str__ is_ApplicationExpression andb]. reflexivity.
Qed.

End Infix.

Section InfixExamples.

Import Terms.

Lemma str_infixify_operator_witness :
  let p := app (var "walk") (var "mia") in
  let q := var "rain" in
  "and" ≠ "not" ∧ is_Operator q = false ∧
  str (infixify (app (app (Operator "and") p) q)) = "((walk mia) and rain)" ∧
  str (infixify (app (Operator "not") p)) = "(not (walk mia))".
Proof.
  intros p q.
  assert (Ho : "and" ≠ "not") by discriminate.
  assert (Hq : is_Operator q = false) by reflexivity.
  split; [exact Ho|]. split; [exact Hq|].
  exact (str_infixify_operator "and" p q Ho Hq).
Defined.

Lemma infixify_idempotent_witness :
  let e := app (app (Operator "and") (var "p")) (app (Operator "not") (var "q")) in
  operators_lead e = true ∧ infixify (infixify e) = infixify e ∧
  "and" ≠ "not" ∧ "or" ≠ "not" ∧
  infixify (infixify (app (Operator "and") (Operator "or"))) =
    app (Operator "and") (Operator "or").
Proof.
  intros e.
  assert (He : operators_lead e = true) by reflexivity.
  assert (H1 : "and" ≠ "not") by discriminate.
  assert (H2 : "or" ≠ "not") by discriminate.
  split; [exact He|]. split; [exact (proj1 infixify_idempotent e He)|].
  split; [exact H1|]. split; [exact H2|].
  exact (proj2 (proj2 infixify_idempotent "and" "or" H1 H2)).
Defined.

End InfixExamples.

(** ** Reading the infix form back *)

Section InfixRoundTrip.

Context (constants : list string).

Lemma parsable_lexable e : parsable constants e = true → lexable e = true.
Proof.
  induction e as [u|u|k|o|cls u term IH|first IH1 second IH2]; simpl;
    unfold var_token; rewrite ?andb_true_iff; try tauto.
Qed.

Lemma lexable_infixify e : lexable e = true → lexable (infixify e) = true.
Proof.
  induction e as [u|u|k|o|cls u term IH|first IH1 second IH2]; try done.
  - simpl. rewrite !andb_true_iff. intros [? ?]. split; [done|by apply IH].
  - cbn [lexable infixify]. rewrite andb_true_iff. intros [H1 H2].
    specialize (IH1 H1). specialize (IH2 H2).
    destruct (infixify first) as [| | |o'| |];
      try (cbn [lexable] in *; by rewrite IH1, IH2).
    destruct (negb (String.eqb o' "not")); cbn [lexable] in *; by rewrite IH1, IH2.
Qed.

Lemma tokenizes_rendering e m :
  lexable e = true →
  tokenizes (Parser.process (rendering m e)) (tokens m e).
Proof.
  revert m.
  induction e as [u|u|k|o|cls u term IH|first IH1 second IH2]; intros m He.
  - simpl in *. rewrite clean_process by done. constructor. by apply clean_nospace.
  - simpl in *. rewrite clean_process by done. constructor. by apply clean_nospace.
  - simpl in *. rewrite clean_process by done. constructor. by apply clean_nospace.
  - simpl in *. apply bool_decide_eq_true in He. apply OPS_inv in He as [-> Hn].
    by constructor.
  - cbn [lexable] in He. apply andb_true_iff in He as [Hc Ht].
    cbn [rendering tokens]. rewrite process_app.
    apply tokenizes_keyword.
    rewrite process_app, clean_process by done.
    destruct term as [w|w|k|o|cls' w term'|f s];
      try (cbn [same_binder_class];
           rewrite (process_literal "." " . ") by reflexivity;
           change (" . " +:+ ?X) with (String " " ("." +:+ String " " X));
           constructor; [by apply clean_nospace|];
           constructor; [done|]; by apply IH).
    cbn [same_binder_class]. destruct (bool_decide (cls' = cls)) eqn:Ecls.
    + pose proof (IH Continuation Ht) as H.
      cbn [rendering tokens] in H |- *.
      rewrite (process_literal " " " ") in H |- * by reflexivity.
      change (" " +:+ ?X) with (String " " X) in H |- *.
      constructor; [by apply clean_nospace|]. by apply tokenizes_space_inv.
    + rewrite (process_literal "." " . ") by reflexivity.
      change (" . " +:+ ?X) with (String " " ("." +:+ String " " X)).
      constructor; [by apply clean_nospace|].
      constructor; [done|]. by apply IH.
  - cbn [lexable] in He. apply andb_true_iff in He as [Hf Hs].
    cbn [rendering tokens].
    set (m' := if is_ApplicationExpression first && negb (is_Operator second)
               then Inner else Top).
    assert (Hbody : tokenizes (Parser.process (rendering m' first +:+ " " +:+
                                               rendering Top second))
                      (tokens m' first ++ tokens Top second)).
    { rewrite process_app, (process_literal " " " ") by reflexivity.
      change (" " +:+ ?X) with (String " " X).
      apply tokenizes_app; [by apply IH1|]. constructor. by apply IH2. }
    destruct m; try exact Hbody;
      rewrite (process_literal "(" " ( ") by reflexivity;
      rewrite process_app;
      change (Parser.process ")") with (String " " (")" +:+ String " " ""));
      change (" ( " +:+ ?X) with (String " " ("(" +:+ String " " X));
      (constructor; constructor; [done|]);
      (apply tokenizes_app; [done|]); repeat constructor.
Qed.

Lemma tokens_chain_infixify cls term :
  (if same_binder_class cls (infixify term) then tokens Continuation (infixify term)
   else Parser.DOT :: tokens Top (infixify term)) =
  chain_vars cls term ++ Parser.DOT :: tokens Top (infixify (chain_body cls term)).
Proof.
  induction term as [u|u|k|o|cls' u term IH|first IH1 second IH2]; try done.
  - cbn [infixify same_binder_class chain_vars chain_body].
    destruct (bool_decide (cls' = cls)) eqn:E; [|done].
    apply bool_decide_eq_true in E as ->.
    cbn [tokens]. by rewrite IH.
  - by rewrite same_binder_class_infixify.
Qed.

Lemma tokens_head_infixify e :
  parsable constants e = true →
  ∃ t l, tokens Top (infixify e) = t :: l ∧ t ≠ Parser.CLOSE.
Proof.
  destruct e as [u|u|k|o|cls u term|first second]; intros He.
  - exact (toks_head constants _ He).
  - exact (toks_head constants _ He).
  - exact (toks_head constants _ He).
  - exact (toks_head constants _ He).
  - eexists _, _. split; [reflexivity|]. by destruct cls.
  - destruct (infixify_ApplicationExpression first second) as (x & y & ->).
    eexists _, _. split; [reflexivity|]. done.
Qed.

Lemma more_exps_by (next : M Expression) (tk : Expression → list string)
    (res : Expression → Expression) args :
  Forall (λ a, (∃ t l, tk a = t :: l ∧ t ≠ Parser.CLOSE) ∧
               ∀ b rest, tokenizes b (tk a ++ rest) →
                         ∃ R, next b = Return (res a) R ∧ tokenizes R rest) args →
  ∀ fuel acc b rest,
    length args < fuel →
    tokenizes b (flat_map tk args ++ Parser.CLOSE :: rest) →
    ∃ b', Parser.more_exps fuel next acc b = Return (acc ++ map res args) b' ∧
          tokenizes b' (Parser.CLOSE :: rest).
Proof.
  induction 1 as [|a args [Ha Hnext] Hargs IH]; intros fuel acc b rest Hfuel Hb;
    (destruct fuel as [|fuel]; [simpl in Hfuel; lia|]); cbn [Parser.more_exps].
  - destruct (tokenizes_token _ _ _ Hb) as [Hpeek _].
    rewrite (M_bind_Return _ _ _ _ _ Hpeek).
    rewrite bool_decide_false by (intros Hne; by apply Hne).
    exists b. by rewrite app_nil_r.
  - cbn [flat_map] in Hb. rewrite <- app_assoc in Hb.
    destruct Ha as (t & l & Et & Hne).
    pose proof Hb as Hb'. rewrite Et in Hb'.
    destruct (tokenizes_token _ _ _ Hb') as [Hpeek _].
    rewrite (M_bind_Return _ _ _ _ _ Hpeek).
    rewrite bool_decide_true by done.
    destruct (Hnext b _ Hb) as (R & HR & HtR).
    rewrite (M_bind_Return _ _ _ _ _ HR).
    destruct (IH fuel (acc ++ [res a]) R rest) as (b' & H1 & H2);
      [simpl in Hfuel; lia|done|].
    exists b'. rewrite H1. cbn [map]. by rewrite <- app_assoc.
Qed.

Lemma foldl_ApplicationExpression x y args :
  ∃ f s, foldl ApplicationExpression (ApplicationExpression x y) args =
         ApplicationExpression f s.
Proof.
  revert x y. induction args as [|a args IH]; intros x y; [by eexists _, _|].
  cbn [foldl]. apply IH.
Qed.

Lemma infixify_foldl x y args :
  infixify (foldl ApplicationExpression (ApplicationExpression x y) args) =
  foldl ApplicationExpression (infixify (ApplicationExpression x y)) (map infixify args).
Proof.
  revert x y. induction args as [|a args IH]; intros x y; [done|].
  cbn [foldl map]. rewrite IH. f_equal.
  destruct (infixify_ApplicationExpression x y) as (f & s & E).
  change (infixify (ApplicationExpression (ApplicationExpression x y) a))
    with (let first' := infixify (ApplicationExpression x y) in
          let second' := infixify a in
          match first' with
          | Operator o =>
              if negb (String.eqb o "not") then ApplicationExpression second' first'
              else ApplicationExpression first' second'
          | _ => ApplicationExpression first' second'
          end).
  cbv zeta. by rewrite E.
Qed.

Lemma tokens_foldl x y args :
  Forall (λ a, is_Operator a = false) args →
  tokens Inner (foldl ApplicationExpression (ApplicationExpression x y) (map infixify args)) =
  tokens Inner (ApplicationExpression x y) ++
  flat_map (λ a, tokens Top (infixify a)) args.
Proof.
  intros H. revert x y.
  induction H as [|a args Ha Hargs IH]; intros x y.
  - cbn [map foldl flat_map]. by rewrite app_nil_r.
  - cbn [map foldl flat_map]. rewrite IH.
    change (tokens Inner (ApplicationExpression (ApplicationExpression x y) (infixify a)))
      with (tokens (if true && negb (is_Operator (infixify a)) then Inner else Top)
              (ApplicationExpression x y) ++ tokens Top (infixify a)).
    rewrite is_Operator_infixify, Ha. cbn [andb negb]. by rewrite <- app_assoc.
Qed.

Lemma retag_foldl x args :
  retag (foldl ApplicationExpression x args) =
  foldl ApplicationExpression (retag x) (map retag args).
Proof.
  revert x. induction args as [|a args IH]; intros x; [done|].
  cbn [foldl map]. by rewrite IH.
Qed.

Lemma spine_foldl e :
  e = foldl ApplicationExpression (spine_head e) (spine_args e).
Proof.
  induction e as [u|u|k|o|cls u term IH|f1 IH1 f2 IH2]; try done.
  cbn [spine_head spine_args]. rewrite foldl_app. cbn [foldl]. by rewrite <- IH1.
Qed.

(** The two shapes of an infixified application. *)
Lemma infixify_head h a1 :
  is_ApplicationExpression h = false →
  infixify (ApplicationExpression h a1) =
  match h with
  | Operator o =>
      if negb (String.eqb o "not")
      then ApplicationExpression (infixify a1) (Operator o)
      else ApplicationExpression (Operator o) (infixify a1)
  | _ => ApplicationExpression (infixify h) (infixify a1)
  end.
Proof. by destruct h. Qed.

Lemma __next___OPEN fuel buffer b0 first b1 second b2 exps b3 b4 :
  Parser.token true buffer = Return Parser.OPEN b0 →
  Parser.__next__ fuel constants b0 = Return first b1 →
  Parser.__next__ fuel constants b1 = Return second b2 →
  Parser.more_exps fuel (Parser.__next__ fuel constants) [] b2 = Return exps b3 →
  Parser.token true b3 = Return Parser.CLOSE b4 →
  Parser.__next__ (S fuel) constants buffer =
  Return (foldl ApplicationExpression
            (if is_Operator second then ApplicationExpression second first
             else ApplicationExpression first second) exps) b4.
Proof.
  intros H0 H1 H2 H3 H4.
  cbn [Parser.__next__]. rewrite (M_bind_Return _ _ _ _ _ H0).
  rewrite bool_decide_false by (rewrite !elem_of_cons, elem_of_nil; by intros [?|[?|[?|[]]]]).
  rewrite bool_decide_true by done.
  rewrite (M_bind_Return _ _ _ _ _ H1).
  rewrite (M_bind_Return _ _ _ _ _ H2).
  rewrite (M_bind_Return _ _ _ _ _ H3).
  rewrite (M_bind_Return _ _ _ _ _ H4).
  by rewrite bool_decide_true by done.
Qed.

Lemma tokens_Top_foldl x y args :
  tokens Top (foldl ApplicationExpression (ApplicationExpression x y) args) =
  Parser.OPEN ::
    tokens Inner (foldl ApplicationExpression (ApplicationExpression x y) args) ++
    [Parser.CLOSE].
Proof. by destruct (foldl_ApplicationExpression x y args) as (f & s & ->). Qed.

(** Reading the rendering of [infixify e]: the parser returns [e] itself,
    classified its way. *)
Lemma __next___on_infix n :
  ∀ e, size e ≤ n →
    parsable constants e = true →
    ∀ fuel b rest,
      size e ≤ fuel →
      tokenizes b (tokens Top (infixify e) ++ rest) →
      ∃ R, Parser.__next__ fuel constants b = Return (retag e) R ∧ tokenizes R rest.
Proof.
  induction n as [|n IH]; intros e Hn He fuel b rest Hfuel Hb.
  { pose proof (size_pos e). lia. }
  destruct e as [u|u|k|o|cls u term|first second];
    try (by apply (__next___on_rendering constants (S n) _ Hn He fuel b rest Hfuel Hb)).
  - destruct fuel as [|fuel]; [simpl in Hfuel; lia|].
    apply parsable_VariableBinderExpression in He as (Hc & Hv & Ht).
    destruct (chain_parsable constants cls term Ht) as (Hvars & Hbody & Hsize).
    cbn [infixify tokens] in Hb. rewrite tokens_chain_infixify in Hb.
    simpl in Hn, Hfuel.
    cbn [app] in Hb. rewrite <- app_assoc in Hb. cbn [app] in Hb.
    destruct (tokenizes_token _ _ _ Hb) as [_ (b0 & Htok0 & Hb0)].
    destruct (tokenizes_token _ _ _ Hb0) as [_ (b1 & Htok1 & Hb1)].
    destruct (more_vars_ok constants _ Hvars fuel [variable_name u] b1 _
                ltac:(pose proof (size_pos (chain_body cls term)); lia) Hb1)
      as (b2 & Hvars2 & Hb2).
    destruct (tokenizes_token _ _ _ Hb2) as [_ (b3 & Htok3 & Hb3)].
    destruct (IH (chain_body cls term) ltac:(lia) Hbody fuel b3 rest ltac:(lia) Hb3)
      as (R & Hterm & HR).
    exists R. split; [|done].
    destruct (factory_keyword cls) as [Hkw Hfac].
    cbn [Parser.__next__]. rewrite (M_bind_Return _ _ _ _ _ Htok0).
    rewrite (bool_decide_true _ Hkw), Hfac.
    rewrite (M_bind_Return _ _ _ _ _ Htok1).
    rewrite (M_bind_Return _ _ _ _ _ Hvars2).
    rewrite (M_bind_Return _ _ _ _ _ Htok3).
    rewrite bool_decide_false by (intros Hne; by apply Hne).
    rewrite (M_bind_Return _ _ _ _ _ Hterm).
    cbn [retag app foldr]. rewrite Variable_eta.
    by rewrite (retag_chain cls term).
  - destruct fuel as [|fuel]; [simpl in Hfuel; lia|].
    pose proof He as He'.
    apply spine_parsable in He' as (Hh & Hnapp & Hhsize & Hlen & Hargs).
    pose proof (spine_foldl (ApplicationExpression first second)) as Ee.
    apply parsable_ApplicationExpression in He as (Hf & Hs & Hop).
    cbn [spine_head spine_args] in *.
    simpl in Hn, Hfuel.
    assert (Hargs' : Forall (λ a, parsable constants a = true ∧ is_Operator a = false ∧
                                  size a ≤ n ∧ size a ≤ fuel)
                       (spine_args first ++ [second])).
    { eapply Forall_impl; [exact Hargs|]. simpl. intros a (? & ? & ?).
      repeat split; try done; lia. }
    pose proof (spine_parsable constants first Hf) as (_ & _ & Hhsize' & _ & _).
    pose proof (size_pos second) as Hpos2.
    set (h := spine_head first) in *.
    destruct (spine_args first ++ [second]) as [|a1 args] eqn:Eargs.
    { by destruct (spine_args first). }
    apply Forall_cons in Hargs' as [(Ha1 & Hop1 & Hn1 & Hf1) Hrest].
    cbn [foldl] in Ee. rewrite Ee in Hb |- *. clear Ee.
    rewrite infixify_foldl in Hb.
    rewrite retag_foldl. cbn [retag].
    assert (Hnop : Forall (λ a, is_Operator a = false) args).
    { eapply Forall_impl; [exact Hrest|]. simpl. by intros a (_ & ? & _). }
    assert (Hitems : Forall (λ a, (∃ t l, tokens Top (infixify a) = t :: l ∧
                                          t ≠ Parser.CLOSE) ∧
                       ∀ b rest, tokenizes b (tokens Top (infixify a) ++ rest) →
                         ∃ R, Parser.__next__ fuel constants b = Return (retag a) R ∧
                              tokenizes R rest) args).
    { eapply Forall_impl; [exact Hrest|]. simpl. intros a (Ha & _ & Han & Haf).
      split; [by apply tokens_head_infixify|].
      intros b' rest' Hb'. by apply (IH a). }
    assert (Hshape :
      (∃ o, h = Operator o ∧ String.eqb o "not" = false ∧
            infixify (ApplicationExpression h a1) =
              ApplicationExpression (infixify a1) (Operator o)) ∨
      (infixify (ApplicationExpression h a1) =
         ApplicationExpression (infixify h) (infixify a1))).
    { rewrite (infixify_head h a1 Hnapp).
      destruct h as [| | |o'| |]; try by right.
      destruct (String.eqb o' "not") eqn:Eo; [by right|]. left. by exists o'. }
    destruct Hshape as [(o & Eh & Eo & Ei)|Ei]; rewrite Ei in Hb;
      rewrite tokens_Top_foldl, (tokens_foldl _ _ args Hnop) in Hb.
    + cbn [tokens is_Operator negb] in Hb. rewrite andb_false_r in Hb.
      cbn [app] in Hb. rewrite <- !app_assoc in Hb. cbn [app] in Hb.
      destruct (tokenizes_token _ _ _ Hb) as [_ (b0 & Htok0 & Hb0)].
      destruct (IH a1 ltac:(lia) Ha1 fuel b0 _ ltac:(lia) Hb0) as (b1 & Hfirst & Hb1).
      rewrite Eh in Hh.
      destruct (IH (Operator o) ltac:(simpl; lia) Hh fuel b1 _ ltac:(simpl; lia) Hb1)
        as (b2 & Hsecond & Hb2).
      destruct (more_exps_by (Parser.__next__ fuel constants)
                  (λ a, tokens Top (infixify a)) retag args Hitems
                  fuel [] b2 rest ltac:(simpl in Hlen; lia) Hb2)
        as (b3 & Hexps & Hb3).
      destruct (tokenizes_token _ _ _ Hb3) as [_ (R & Htok3 & HR)].
      exists R. split; [|done].
      rewrite (__next___OPEN _ _ _ _ _ _ _ _ _ _ Htok0 Hfirst Hsecond Hexps Htok3).
      by rewrite Eh.
    + cbn [tokens] in Hb.
      rewrite is_ApplicationExpression_infixify, Hnapp in Hb. cbn [andb] in Hb.
      cbn [app] in Hb. rewrite <- !app_assoc in Hb. cbn [app] in Hb.
      destruct (tokenizes_token _ _ _ Hb) as [_ (b0 & Htok0 & Hb0)].
      destruct (IH h ltac:(lia) Hh fuel b0 _ ltac:(lia) Hb0) as (b1 & Hfirst & Hb1).
      destruct (IH a1 ltac:(lia) Ha1 fuel b1 _ ltac:(lia) Hb1) as (b2 & Hsecond & Hb2).
      destruct (more_exps_by (Parser.__next__ fuel constants)
                  (λ a, tokens Top (infixify a)) retag args Hitems
                  fuel [] b2 rest ltac:(simpl in Hlen; lia) Hb2)
        as (b3 & Hexps & Hb3).
      destruct (tokenizes_token _ _ _ Hb3) as [_ (R & Htok3 & HR)].
      exists R. split; [|done].
      rewrite (__next___OPEN _ _ _ _ _ _ _ _ _ _ Htok0 Hfirst Hsecond Hexps Htok3).
      by rewrite is_Operator_retag, Hop1.
Qed.

(** X22: what [infixify] renders, the parser reads back in prefix form.  For
    every expression [e] whose rendering the parser reads back, parsing
    [str(e.infixify())] returns [e] (variables classified by the parser),
    just as parsing [str(e)] does: of [((and p) q)] the infix form is
    [(p and q)], which the parser swaps back. *)
Theorem parse_str_infixify (e : Expression) (fuel : nat) :
  parsable constants e = true →
  size e ≤ fuel →
  ∃ R R',
    Parser.parse_fuel fuel constants (str (infixify e)) = Return (retag e) R ∧
    Parser.parse_fuel fuel constants (str e) = Return (retag e) R'.
Proof.
  intros He Hfuel.
  pose proof (tokenizes_rendering (infixify e) Top
                (lexable_infixify e (parsable_lexable e He))) as Htok.
  rewrite <- (app_nil_r (tokens Top (infixify e))) in Htok.
  destruct (__next___on_infix (size e) e ltac:(lia) He fuel _ [] Hfuel Htok)
    as (R & Hparse & _).
  pose proof (tokenizes_strs constants e Top He) as Htok'.
  rewrite <- (app_nil_r (toks Top e)) in Htok'.
  destruct (__next___on_rendering constants (size e) e ltac:(lia) He fuel _ [] Hfuel Htok')
    as (R' & Hparse' & _).
  exists R, R'. split.
  - unfold Parser.parse_fuel, Parser.new, str. by rewrite __str___rendering.
  - unfold Parser.parse_fuel, Parser.new, str.
    by rewrite (__str___strs constants e false He).
Qed.

End InfixRoundTrip.

Section InfixRoundTripExamples.

Import Terms.

Lemma parse_str_infixify_witness :
  let e := app (app (Operator "and") (app (var "walk") (var "mia")))
             (app (Operator "not") (var "rain")) in
  parsable [] e = true ∧ size e ≤ 9 ∧
  str (infixify e) = "((walk mia) and (not rain))" ∧
  ∃ R R',
    Parser.parse_fuel 9 [] (str (infixify e)) = Return (retag e) R ∧
    Parser.parse_fuel 9 [] (str e) = Return (retag e) R'.
Proof.
  intros e.
  assert (He : parsable [] e = true) by reflexivity.
  assert (Hs : size e ≤ 9) by (simpl; lia).
  split; [exact He|]. split; [exact Hs|]. split; [reflexivity|].
  exact (parse_str_infixify [] e 9 He Hs).
Defined.

End InfixRoundTripExamples.

(** ** Substitution without capture, and [alpha_convert] *)

Section Substitution.

Lemma replace_substitute t v e c :
  binders t ## free e → replace t v e c = (substitute t v e, c).
Proof.
  revert c.
  induction t as [u|u|k|o|cls u term IH|first IH1 second IH2]; intros c Hd;
    simpl in Hd.
  - rewrite replace_VariableExpression. done.
  - rewrite replace_IndVariableExpression. done.
  - done.
  - done.
  - rewrite replace_VariableBinderExpression. cbn [substitute].
    destruct (Variable_equals u v) eqn:E; [done|].
    rewrite bool_decide_false by set_solver.
    rewrite IH by set_solver. done.
  - rewrite replace_ApplicationExpression.
    rewrite IH1 by set_solver. rewrite IH2 by set_solver. done.
Qed.

Lemma substitute_not_free t v e : v ∉ free t → substitute t v e = t.
Proof.
  induction t as [u|u|k|o|cls u term IH|first IH1 second IH2]; simpl; intros Hv;
    try done.
  - rewrite (proj2 (Variable_equals_neq u v)) by set_solver. done.
  - rewrite (proj2 (Variable_equals_neq u v)) by set_solver. done.
  - destruct (Variable_equals u v) eqn:E; [done|].
    apply Variable_equals_neq in E. rewrite IH by set_solver. done.
  - rewrite IH1, IH2 by set_solver. done.
Qed.

Lemma free_substitute t v e :
  binders t ## free e → v ∈ free t →
  free (substitute t v e) = (free t ∖ {[ v ]}) ∪ free e.
Proof.
  induction t as [u|u|k|o|cls u term IH|first IH1 second IH2]; simpl; intros Hd Hv.
  - assert (u = v) as -> by set_solver. rewrite Variable_equals_refl. set_solver.
  - assert (u = v) as -> by set_solver. rewrite Variable_equals_refl. set_solver.
  - set_solver.
  - set_solver.
  - destruct (Variable_equals u v) eqn:E.
    { apply Variable_equals_eq in E. set_solver. }
    apply Variable_equals_neq in E. simpl. rewrite IH by set_solver.
    apply set_eq. intros x. set_solver.
  - destruct (decide (v ∈ free first)) as [H1|H1],
             (decide (v ∈ free second)) as [H2|H2].
    + rewrite IH1, IH2 by set_solver. set_solver.
    + rewrite IH1 by set_solver. rewrite (substitute_not_free second) by done.
      apply set_eq. intros x. set_solver.
    + rewrite IH2 by set_solver. rewrite (substitute_not_free first) by done.
      apply set_eq. intros x. set_solver.
    + set_solver.
Qed.

(** X23: where no binder of [t] is free in [e], [replace] is the substitution
    of its docstring: no binder is renamed, the counter is left alone, and
    if [v] is free in [t], the free variables of the result are those of [t]
    other than [v] together with those of [e]. *)
Theorem replace_without_capture (t : Expression) (v : variable) (e : Expression)
    (c : Counter.t) :
  binders t ## free e →
  replace t v e c = (substitute t v e, c) ∧
  (v ∈ free t → free (replace t v e c).1 = (free t ∖ {[ v ]}) ∪ free e).
Proof.
  intros Hd. rewrite replace_substitute by done. split; [done|].
  intros Hv. by apply free_substitute.
Qed.

Lemma binders_substitute_variable t v w :
  binders (substitute t v (VariableExpression w)) = binders t.
Proof.
  induction t as [u|u|k|o|cls u term IH|first IH1 second IH2]; simpl; try done.
  - by destruct (Variable_equals u v).
  - by destruct (Variable_equals u v).
  - destruct (Variable_equals u v); [done|]. simpl. by rewrite IH.
  - by rewrite IH1, IH2.
Qed.

Lemma substitute_there_and_back t v w :
  w ∉ variables t → v ∉ binders t →
  untag (substitute (substitute t v (VariableExpression w)) w (VariableExpression v)) =
  untag t.
Proof.
  induction t as [u|u|k|o|cls u term IH|first IH1 second IH2]; simpl; intros Hw Hv;
    try done.
  - destruct (Variable_equals u v) eqn:E; simpl.
    + apply Variable_equals_eq in E as ->. by rewrite Variable_equals_refl.
    + rewrite (proj2 (Variable_equals_neq u w)) by set_solver. done.
  - destruct (Variable_equals u v) eqn:E; simpl.
    + apply Variable_equals_eq in E as ->. by rewrite Variable_equals_refl.
    + rewrite (proj2 (Variable_equals_neq u w)) by set_solver. done.
  - rewrite (proj2 (Variable_equals_neq u v)) by set_solver. simpl.
    rewrite (proj2 (Variable_equals_neq u w)) by set_solver. simpl.
    rewrite IH by set_solver. done.
  - rewrite IH1, IH2 by set_solver. done.
Qed.

Lemma free_in_variables e : free e ⊆ variables e.
Proof. induction e; simpl; set_solver. Qed.

(** X24: [alpha_convert] to a variable that does not occur in the body, of a
    binder whose variable is not bound again inside, renames without
    touching the counter, and the result [equals] the binder it came from,
    in both directions. *)
Theorem alpha_convert_equals (cls : BinderClass) (v : variable) (term : Expression)
    (newvar : variable) (c : Counter.t) :
  newvar ∉ variables term → v ∉ binders term →
  let self := VariableBinderExpression cls v term in
  alpha_convert cls v term newvar c =
    (VariableBinderExpression cls newvar (substitute term v (VariableExpression newvar)), c) ∧
  equals self (alpha_convert cls v term newvar c).1 c = (true, c) ∧
  equals (alpha_convert cls v term newvar c).1 self c = (true, c).
Proof.
  intros Hw Hv self. subst self.
  assert (Hb : newvar ∉ binders term).
  { clear -Hw. induction term; simpl in *; set_solver. }
  assert (Hf : newvar ∉ free term).
  { pose proof (free_in_variables term). set_solver. }
  unfold alpha_convert.
  rewrite replace_substitute by (simpl; set_solver).
  split; [done|]. cbn [fst equals].
  rewrite !bool_decide_true by done.
  destruct (Variable_equals v newvar) eqn:E.
  - apply Variable_equals_eq in E as <-.
    rewrite Variable_equals_refl, substitute_not_free by done.
    split; by apply equals_refl_untag.
  - apply Variable_equals_neq in E.
    rewrite (proj2 (Variable_equals_neq newvar v)) by done.
    rewrite !replace_substitute
      by (rewrite ?binders_substitute_variable; simpl; set_solver).
    split; apply equals_refl_untag; [|done].
    by rewrite substitute_there_and_back.
Qed.

Lemma replace_without_capture_witness :
  let t := Terms.lam_z_yz in
  binders t ## free (Terms.var "a") ∧
  replace t (Variable' "y") (Terms.var "a") (Counter.mk 4) =
    (substitute t (Variable' "y") (Terms.var "a"), Counter.mk 4) ∧
  (Variable' "y" ∈ free t →
   free (replace t (Variable' "y") (Terms.var "a") (Counter.mk 4)).1 =
   (free t ∖ {[ Variable' "y" ]}) ∪ free (Terms.var "a")).
Proof.
  intros t.
  assert (Hd : binders t ## free (Terms.var "a"))
    by (apply (bool_decide_unpack _); vm_compute; exact I).
  split; [exact Hd|].
  exact (replace_without_capture t (Variable' "y") (Terms.var "a") (Counter.mk 4) Hd).
Defined.

Lemma alpha_convert_equals_witness :
  let term := Terms.app (Terms.var "x") (Terms.var "y") in
  (Variable' "w" ∉ variables term) ∧ (Variable' "x" ∉ binders term) ∧
  alpha_convert LambdaExpression (Variable' "x") term (Variable' "w") (Counter.mk 4) =
    (VariableBinderExpression LambdaExpression (Variable' "w")
       (substitute term (Variable' "x") (VariableExpression (Variable' "w"))),
     Counter.mk 4) ∧
  equals (Terms.lam "x" term)
    (alpha_convert LambdaExpression (Variable' "x") term (Variable' "w") (Counter.mk 4)).1
    (Counter.mk 4) = (true, Counter.mk 4) ∧
  equals
    (alpha_convert LambdaExpression (Variable' "x") term (Variable' "w") (Counter.mk 4)).1
    (Terms.lam "x" term) (Counter.mk 4) = (true, Counter.mk 4).
Proof.
  intros term.
  assert (Hw : Variable' "w" ∉ variables term)
    by (apply (bool_decide_unpack _); vm_compute; exact I).
  assert (Hv : Variable' "x" ∉ binders term)
    by (apply (bool_decide_unpack _); vm_compute; exact I).
  split; [exact Hw|]. split; [exact Hv|].
  exact (alpha_convert_equals LambdaExpression (Variable' "x") term (Variable' "w")
           (Counter.mk 4) Hw Hv).
Defined.

End Substitution.

(** ** The notation without abbreviations *)

Section Unabbreviated.

Context (constants : list string).

Lemma tokenizes_plain e :
  parsable constants e = true →
  tokenizes (Parser.process (plain e)) (plain_toks e).
Proof.
  induction e as [u|u|k|o|cls u term IH|first IH1 second IH2]; intros He.
  - exact (tokenizes_strs constants (VariableExpression u) Top He).
  - exact (tokenizes_strs constants (IndVariableExpression u) Top He).
  - exact (tokenizes_strs constants (ConstantExpression k) Top He).
  - exact (tokenizes_strs constants (Operator o) Top He).
  - apply parsable_VariableBinderExpression in He as (Hc & _ & Ht).
    cbn [plain plain_toks]. rewrite process_app.
    apply (tokenizes_keyword cls Top).
    rewrite process_app, clean_process by done.
    rewrite (process_literal "." " . ") by reflexivity.
    change (" . " +:+ ?X) with (String " " ("." +:+ String " " X)).
    constructor; [by apply clean_nospace|].
    constructor; [done|]. by apply IH.
  - apply parsable_ApplicationExpression in He as (Hf & Hs & Hop).
    cbn [plain plain_toks].
    assert (Hbody : tokenizes (Parser.process (plain first +:+ " " +:+ plain second))
                      (plain_toks first ++ plain_toks second)).
    { rewrite process_app, (process_literal " " " ") by reflexivity.
      change (" " +:+ ?X) with (String " " X).
      apply tokenizes_app; [by apply IH1|]. constructor. by apply IH2. }
    replace (plain first +:+ " " +:+ plain second +:+ ")")
      with ((plain first +:+ " " +:+ plain second) +:+ ")")
      by (by rewrite ?string_app_assoc).
    rewrite (process_literal "(" " ( ") by reflexivity.
    rewrite process_app.
    change (Parser.process ")") with (String " " (")" +:+ String " " "")).
    change (" ( " +:+ ?X) with (String " " ("(" +:+ String " " X)).
    constructor; constructor; [done|].
    rewrite app_assoc.
    apply tokenizes_app; [done|]. repeat constructor.
Qed.

Lemma __next___on_plain e :
  parsable constants e = true →
  ∀ fuel b rest,
    size e ≤ fuel →
    tokenizes b (plain_toks e ++ rest) →
    ∃ R, Parser.__next__ fuel constants b = Return (retag e) R ∧ tokenizes R rest.
Proof.
  induction e as [u|u|k|o|cls u term IH|first IH1 second IH2];
    intros He fuel b rest Hfuel Hb;
    try (apply (__next___on_rendering constants 1); [simpl; lia|done..]).
  - destruct fuel as [|fuel]; [simpl in Hfuel; lia|].
    apply parsable_VariableBinderExpression in He as (Hc & Hv & Ht).
    simpl in Hfuel. pose proof (size_pos term) as Hpos.
    cbn [plain_toks app] in Hb.
    destruct (tokenizes_token _ _ _ Hb) as [_ (b0 & Htok0 & Hb0)].
    destruct (tokenizes_token _ _ _ Hb0) as [_ (b1 & Htok1 & Hb1)].
    destruct (more_vars_ok constants [] ltac:(constructor) fuel [variable_name u] b1 _
                ltac:(simpl; lia) Hb1)
      as (b2 & Hvars2 & Hb2).
    destruct (tokenizes_token _ _ _ Hb2) as [_ (b3 & Htok3 & Hb3)].
    destruct (IH Ht fuel b3 rest ltac:(lia) Hb3) as (R & Hterm & HR).
    exists R. split; [|done].
    destruct (factory_keyword cls) as [Hkw Hfac].
    cbn [Parser.__next__]. rewrite (M_bind_Return _ _ _ _ _ Htok0).
    rewrite (bool_decide_true _ Hkw), Hfac.
    rewrite (M_bind_Return _ _ _ _ _ Htok1).
    rewrite (M_bind_Return _ _ _ _ _ Hvars2).
    rewrite (M_bind_Return _ _ _ _ _ Htok3).
    rewrite bool_decide_false by (intros Hne; by apply Hne).
    rewrite (M_bind_Return _ _ _ _ _ Hterm).
    cbn [retag app foldr]. by rewrite Variable_eta.
  - destruct fuel as [|fuel]; [simpl in Hfuel; lia|].
    apply parsable_ApplicationExpression in He as (Hf & Hs & Hop).
    simpl in Hfuel.
    cbn [plain_toks app] in Hb. rewrite <- !app_assoc in Hb. cbn [app] in Hb.
    destruct (tokenizes_token _ _ _ Hb) as [_ (b0 & Htok0 & Hb0)].
    destruct (IH1 Hf fuel b0 _ ltac:(lia) Hb0) as (b1 & Hfirst & Hb1).
    destruct (IH2 Hs fuel b1 _ ltac:(lia) Hb1) as (b2 & Hsecond & Hb2).
    destruct (more_exps_by (Parser.__next__ fuel constants) plain_toks retag []
                ltac:(constructor) fuel [] b2 rest
                ltac:(pose proof (size_pos first); simpl; lia) Hb2)
      as (b3 & Hexps & Hb3).
    destruct (tokenizes_token _ _ _ Hb3) as [_ (R & Htok3 & HR)].
    exists R. split; [|done].
    rewrite (__next___OPEN constants _ _ _ _ _ _ _ _ _ _
               Htok0 Hfirst Hsecond Hexps Htok3).
    by rewrite is_Operator_retag, Hop.
Qed.

(** X25: the abbreviations of the notation are only abbreviations.  An
    expression written out in full, [\x.\y.M] for [\x y.M] and [((M N) P)]
    for [(M N P)], is read by the parser as the same expression as its
    rendering [str(e)], which abbreviates. *)
Theorem parse_plain (e : Expression) (fuel : nat) :
  parsable constants e = true →
  size e ≤ fuel →
  ∃ R R',
    Parser.parse_fuel fuel constants (plain e) = Return (retag e) R ∧
    Parser.parse_fuel fuel constants (str e) = Return (retag e) R'.
Proof.
  intros He Hfuel.
  pose proof (tokenizes_plain e He) as Htok.
  rewrite <- (app_nil_r (plain_toks e)) in Htok.
  destruct (__next___on_plain e He fuel _ [] Hfuel Htok) as (R & Hparse & _).
  pose proof (tokenizes_strs constants e Top He) as Htok'.
  rewrite <- (app_nil_r (toks Top e)) in Htok'.
  destruct (__next___on_rendering constants (size e) e ltac:(lia) He fuel _ [] Hfuel Htok')
    as (R' & Hparse' & _).
  exists R, R'. split; [done|].
  unfold Parser.parse_fuel, Parser.new, str.
  by rewrite (__str___strs constants e false He).
Qed.

End Unabbreviated.

Section UnabbreviatedExamples.

Import Terms.

Lemma parse_plain_witness :
  let e := lam "x" (lam "y" (app (app (var "x") (var "y")) (var "z"))) in
  parsable [] e = true ∧ size e ≤ 7 ∧
  plain e = "\x.\y.((x y) z)" ∧ str e = "\x y.(x y z)" ∧
  ∃ R R',
    Parser.parse_fuel 7 [] (plain e) = Return (retag e) R ∧
    Parser.parse_fuel 7 [] (str e) = Return (retag e) R'.
Proof.
  intros e.
  assert (He : parsable [] e = true) by reflexivity.
  assert (Hs : size e ≤ 7) by (simpl; lia).
  split; [exact He|]. split; [exact Hs|].
  split; [reflexivity|]. split; [reflexivity|].
  exact (parse_plain [] e 7 He Hs).
Defined.

End UnabbreviatedExamples.

(** ** Skolemisation of expressions with ordinary binder names *)

Section SkolemisePlain.

Lemma str_of_int_inj (j k : nat) : str_of_int j = str_of_int k → j = k.
Proof. Transparent str_of_int. unfold str_of_int. apply (inj pretty). Opaque str_of_int. Qed.

Lemma skolem_like_fresh_s c : skolem_like (variable_name (fresh_s c).1) = true.
Proof. rewrite fresh_s_eq. reflexivity. Qed.

Lemma plain_binders_binders e v :
  plain_binders e = true → v ∈ binders e → skolem_like (variable_name v) = false.
Proof.
  induction e as [u|u|k|o|cls u term IH|first IH1 second IH2]; simpl;
    rewrite ?andb_true_iff, ?negb_true_iff; try set_solver.
Qed.

Lemma height_substitute_variable t v w :
  height (substitute t v (VariableExpression w)) = height t.
Proof.
  induction t as [u|u|k|o|cls u term IH|first IH1 second IH2]; simpl; try done.
  - by destruct (Variable_equals u v).
  - by destruct (Variable_equals u v).
  - destruct (Variable_equals u v); [done|]. simpl. by rewrite IH.
  - by rewrite IH1, IH2.
Qed.

Lemma plain_binders_substitute_variable t v w :
  plain_binders (substitute t v (VariableExpression w)) = plain_binders t.
Proof.
  induction t as [u|u|k|o|cls u term IH|first IH1 second IH2]; simpl; try done.
  - by destruct (Variable_equals u v).
  - by destruct (Variable_equals u v).
  - destruct (Variable_equals u v); [done|]. simpl. by rewrite IH.
  - by rewrite IH1, IH2.
Qed.

Lemma kept_binders_substitute_variable t v w :
  kept_binders (substitute t v (VariableExpression w)) = kept_binders t.
Proof.
  induction t as [u|u|k|o|cls u term IH|first IH1 second IH2]; simpl; try done.
  - by destruct (Variable_equals u v).
  - by destruct (Variable_equals u v).
  - destruct (Variable_equals u v); [done|]. simpl. by rewrite IH.
  - by rewrite IH1, IH2.
Qed.

Lemma existentials_substitute_variable t v w :
  existentials (substitute t v (VariableExpression w)) = existentials t.
Proof.
  induction t as [u|u|k|o|cls u term IH|first IH1 second IH2]; simpl; try done.
  - by destruct (Variable_equals u v).
  - by destruct (Variable_equals u v).
  - destruct (Variable_equals u v); [done|]. simpl. by rewrite IH.
  - by rewrite IH1, IH2.
Qed.

(** With ordinary binder names, a clashing existential is renamed by plain
    substitution. *)
Lemma replace_fresh_s term v c zc :
  plain_binders term = true →
  replace term v (VariableExpression (fresh_s c).1) zc =
  (substitute term v (VariableExpression (fresh_s c).1), zc).
Proof.
  intros Hp. apply replace_substitute. simpl.
  apply disjoint_singleton_r. intros Hin.
  apply (plain_binders_binders _ _ Hp) in Hin.
  by rewrite skolem_like_fresh_s in Hin.
Qed.

Lemma numbered_fresh_s st :
  numbered st →
  ((fresh_s (counter st)).1 ∉ bound_vars st) ∧
  numbered {| bound_vars := {[ (fresh_s (counter st)).1 ]} ∪ bound_vars st;
              counter := (fresh_s (counter st)).2; _counter := _counter st |}.
Proof.
  intros Hn. rewrite fresh_s_eq. cbn [fst snd]. split.
  - apply (Hn (S (Counter._value (counter st)))). lia.
  - intros k Hk. cbn in Hk |- *. apply not_elem_of_union. split.
    + apply not_elem_of_singleton. intros [= E].
      apply str_of_int_inj in E. lia.
    + apply Hn. lia.
Qed.

Lemma numbered_binder st v :
  numbered st → skolem_like (variable_name v) = false →
  numbered {| bound_vars := {[ v ]} ∪ bound_vars st;
              counter := counter st; _counter := _counter st |}.
Proof.
  intros Hn Hv k Hk. cbn in Hk |- *. apply not_elem_of_union. split.
  - apply not_elem_of_singleton. intros E. subst v. done.
  - by apply Hn.
Qed.

(** What [_skolemise] does to an expression with ordinary binder names, from
    a set that holds no Skolem name to come. *)
Lemma _skolemise_plain n :
  ∀ e st, height e < n → plain_binders e = true → numbered st →
    kept_binders (_skolemise e st).1 = kept_binders e ∧
    _counter (_skolemise e st).2 = _counter st ∧
    Counter._value (counter st) ≤ Counter._value (counter (_skolemise e st).2) ∧
    numbered (_skolemise e st).2 ∧
    length (additions_fuel n e st) = existentials e ∧
    Forall (λ a, a.1 ∉ a.2) (additions_fuel n e st).
Proof.
  induction n as [|n IH]; intros e st Hh Hp Hn; [lia|].
  destruct e as [u|u|k|o|cls u term|first second];
    try (rewrite _skolemise_leaf by done; by repeat split).
  - cbn [plain_binders] in Hp. apply andb_true_iff in Hp as [Hu Ht].
    apply negb_true_iff in Hu. simpl in Hh.
    destruct (decide (cls = SomeExpression)) as [->|Hcls].
    + rewrite _skolemise_SomeExpression. cbn [additions_fuel kept_binders existentials].
      destruct (bool_decide (u ∈ bound_vars st)) eqn:Hin.
      * destruct (numbered_fresh_s st Hn) as [Hfresh Hn'].
        pose proof (replace_fresh_s term u (counter st) (_counter st) Ht) as Hr.
        destruct (fresh_s (counter st)) as [var counter1] eqn:Ef.
        cbn [fst snd] in *. rewrite Hr.
        destruct (IH (substitute term u (VariableExpression var)) _
                    ltac:(rewrite height_substitute_variable; lia)
                    ltac:(by rewrite plain_binders_substitute_variable) Hn')
          as (H1 & H2 & H3 & H4 & H5 & H6).
        rewrite kept_binders_substitute_variable in H1.
        rewrite existentials_substitute_variable in H5.
        cbn [_counter counter] in H2, H3.
        assert (Hc : Counter._value (counter st) ≤ Counter._value counter1).
        { rewrite fresh_s_eq in Ef. injection Ef as _ <-. simpl. lia. }
        repeat split; try done.
        -- lia.
        -- cbn [length]. by rewrite H5.
        -- by constructor.
      * apply bool_decide_eq_false in Hin.
        destruct (IH term _ ltac:(lia) Ht (numbered_binder st u Hn Hu))
          as (H1 & H2 & H3 & H4 & H5 & H6).
        repeat split; try done.
        -- cbn [length]. by rewrite H5.
        -- by constructor.
    + rewrite _skolemise_Lambda_All by done.
      assert (Ea : additions_fuel (S n) (VariableBinderExpression cls u term) st =
                   additions_fuel n term
                     {| bound_vars := {[ u ]} ∪ bound_vars st;
                        counter := counter st; _counter := _counter st |})
        by (destruct cls; first [reflexivity | by destruct Hcls]).
      rewrite Ea. clear Ea.
      assert (Ek : ∀ term', kept_binders (VariableBinderExpression cls u term') =
                            (cls, u) :: kept_binders term')
        by (intros term'; destruct cls; first [reflexivity | by destruct Hcls]).
      assert (Ee : existentials (VariableBinderExpression cls u term) =
                   existentials term)
        by (destruct cls; first [reflexivity | by destruct Hcls]).
      rewrite Ee. clear Ee.
      destruct (IH term _ ltac:(lia) Ht (numbered_binder st u Hn Hu))
        as (H1 & H2 & H3 & H4 & H5 & H6).
      destruct (_skolemise term _) as [term' st'] eqn:E.
      cbn [fst snd bound_vars counter _counter] in *.
      repeat split; try done.
      * by rewrite !Ek, H1.
      * intros k Hk. cbn [bound_vars counter] in Hk |- *. apply Hn. lia.
  - cbn [plain_binders] in Hp. apply andb_true_iff in Hp as [Hp1 Hp2].
    simpl in Hh.
    rewrite _skolemise_ApplicationExpression. cbn [additions_fuel].
    destruct (IH first st ltac:(lia) Hp1 Hn) as (H1 & H2 & H3 & H4 & H5 & H6).
    destruct (_skolemise first st) as [first' st1]. cbn [fst snd] in *.
    destruct (IH second st1 ltac:(lia) Hp2 H4) as (G1 & G2 & G3 & G4 & G5 & G6).
    destruct (_skolemise second st1) as [second' st2]. cbn [fst snd] in *.
    repeat split; try done.
    + cbn [kept_binders]. by rewrite H1, G1.
    + congruence.
    + lia.
    + rewrite length_app. cbn [existentials]. lia.
    + by apply Forall_app.
Qed.

End SkolemisePlain.

(** ** Skolemisation: what holds in general, and what does not *)

Section SkolemiseInGeneral.

Import Terms.




End SkolemiseInGeneral.
